(** * clusterfuck: the lexer, parser and encoder of [parser/parser.go]

    A shallow embedding of the extended variant of the compiler (the one
    with function definitions, [{ } !], and the conditional imports of
    the preamble), followed by the properties of its three stages.
    The driver that reads a program and prints its code is the module
    [Main]; the two earlier versions of the package that the repository
    holds are the modules [V1] (the first half of [parser/parser.go],
    with [parseLoop]) and [Part000] ([unnamed/part_000]).

    Conventions of the embedding:
    - a Go [int] is a [Z], 64 bits wide; every addition the program
      performs is wrapped ([int_add]), and a slice holds at most
      [MaxInt] elements, which the statements that depend on it assume
      of the text or of the token list;
    - a Go [string] is a Rocq [string], read as its bytes; the
      [for i, c := range s] loop decodes UTF-8 as the Go runtime does
      ([decoderune]);
    - a node is a value of the inductive type [Node]; the interface
      value [nil] is [None];
    - [TokenList.lastNode] is a pointer to a node that is also held in
      [TokenList.Nodes]; it is modelled as the index of that node, so
      that [Add] through [lastNode] changes the node in the list;
    - a Go run-time panic is the outcome [Panicked]. *)

From Stdlib Require Import ZArith List String Ascii Bool Lia Arith.
From Stdlib Require Import DecimalString.
From Equations Require Import Equations.
Import ListNotations.

Open Scope string_scope.
Open Scope list_scope.
Open Scope Z_scope.

Set Warnings "-register-all".

(** ** Machine integers *)

Definition int_wrap (z : Z) : Z := (z + 2 ^ 63) mod 2 ^ 64 - 2 ^ 63.

Definition int_add (a b : Z) : Z := int_wrap (a + b).

Definition MaxInt : Z := 2 ^ 63 - 1.

(** ** Text *)

Definition nl : string := String (ascii_of_nat 10) EmptyString.
Definition tab : string := String (ascii_of_nat 9) EmptyString.
Definition dq : string := String (ascii_of_nat 34) EmptyString.

(** [fmt.Sprintf("%d", z)] *)
Definition fmt_d (z : Z) : string := NilZero.string_of_int (Z.to_int z).

Definition rune (a : ascii) : Z := Z.of_N (N_of_ascii a).

Definition bytes_of_string (s : string) : list Z :=
  map rune (list_ascii_of_string s).

(** ** Nodes *)

Record BaseNode : Type := { start : Z; end_ : Z }.

Record BaseCountable : Type := { count : Z }.

Inductive Node : Type :=
| PreambleNode (b : BaseNode) (UseIO UseFmt : bool)
| PostambleNode (b : BaseNode)
| IncNode (b : BaseNode) (c : BaseCountable)
| DecNode (b : BaseNode) (c : BaseCountable)
| PrevNode (b : BaseNode) (c : BaseCountable)
| NextNode (b : BaseNode) (c : BaseCountable)
| OutputNode (b : BaseNode)
| InputNode (b : BaseNode)
| LoopNode (b : BaseNode) (Nodes : list Node)
| LoopOpenNode (b : BaseNode)
| LoopCloseNode (b : BaseNode)
| FunctionNode (b : BaseNode) (Nodes : list Node)
| FuncOpenNode (b : BaseNode)
| FuncCloseNode (b : BaseNode)
| FuncExecNode (b : BaseNode).

Definition base (n : Node) : BaseNode :=
  match n with
  | PreambleNode b _ _ | PostambleNode b | IncNode b _ | DecNode b _
  | PrevNode b _ | NextNode b _ | OutputNode b | InputNode b
  | LoopNode b _ | LoopOpenNode b | LoopCloseNode b | FunctionNode b _
  | FuncOpenNode b | FuncCloseNode b | FuncExecNode b => b
  end.

Definition Pos (n : Node) : Z := start (base n).

Definition End_ (n : Node) : Z := end_ (base n).

(** The dynamic type of an interface value, as [reflect.TypeOf] sees it. *)
Inductive NodeType : Type :=
| TPreamble | TPostamble | TInc | TDec | TPrev | TNext | TOutput | TInput
| TLoop | TLoopOpen | TLoopClose | TFunction | TFuncOpen | TFuncClose
| TFuncExec.

Definition NodeType_eqb (a b : NodeType) : bool :=
  match a, b with
  | TPreamble, TPreamble | TPostamble, TPostamble | TInc, TInc
  | TDec, TDec | TPrev, TPrev | TNext, TNext | TOutput, TOutput
  | TInput, TInput | TLoop, TLoop | TLoopOpen, TLoopOpen
  | TLoopClose, TLoopClose | TFunction, TFunction
  | TFuncOpen, TFuncOpen | TFuncClose, TFuncClose
  | TFuncExec, TFuncExec => true
  | _, _ => false
  end.

Definition type_of (n : Node) : NodeType :=
  match n with
  | PreambleNode _ _ _ => TPreamble
  | PostambleNode _ => TPostamble
  | IncNode _ _ => TInc
  | DecNode _ _ => TDec
  | PrevNode _ _ => TPrev
  | NextNode _ _ => TNext
  | OutputNode _ => TOutput
  | InputNode _ => TInput
  | LoopNode _ _ => TLoop
  | LoopOpenNode _ => TLoopOpen
  | LoopCloseNode _ => TLoopClose
  | FunctionNode _ _ => TFunction
  | FuncOpenNode _ => TFuncOpen
  | FuncCloseNode _ => TFuncClose
  | FuncExecNode _ => TFuncExec
  end.

(** [reflect.TypeOf] of an interface value; [nil] has no type. *)
Definition TypeOf (n : option Node) : option NodeType := option_map type_of n.

Definition TypeOf_eqb (a b : option NodeType) : bool :=
  match a, b with
  | Some x, Some y => NodeType_eqb x y
  | None, None => true
  | _, _ => false
  end.

(** The types that have [Count] and [Add]: those embedding
    [BaseCountable]. *)
Definition Summarizable (n : Node) : bool :=
  match n with
  | IncNode _ _ | DecNode _ _ | PrevNode _ _ | NextNode _ _ => true
  | _ => false
  end.

Definition Count (n : Node) : option Z :=
  match n with
  | IncNode _ c | DecNode _ c | PrevNode _ c | NextNode _ c => Some (count c)
  | _ => None
  end.

(** [b.count++] *)
Definition BaseCountable_Add (c : BaseCountable) : BaseCountable :=
  {| count := int_add (count c) 1 |}.

Definition Add (n : Node) : Node :=
  match n with
  | IncNode b c => IncNode b (BaseCountable_Add c)
  | DecNode b c => DecNode b (BaseCountable_Add c)
  | PrevNode b c => PrevNode b (BaseCountable_Add c)
  | NextNode b c => NextNode b (BaseCountable_Add c)
  | _ => n
  end.

(** The types that have [Code]: all but the four markers. *)
Definition Encodable (n : Node) : bool :=
  match n with
  | LoopOpenNode _ | LoopCloseNode _ | FuncOpenNode _ | FuncCloseNode _ =>
      false
  | _ => true
  end.

(** ** The token list *)

Fixpoint update_at (l : list Node) (k : nat) (f : Node -> Node) : list Node :=
  match l, k with
  | [], _ => []
  | x :: l', O => f x :: l'
  | x :: l', S k' => x :: update_at l' k' f
  end.

Module TokenList.

Record t : Type := { Nodes : list Node; lastNode : option nat }.

(** [&TokenList{}] *)
Definition empty : t := {| Nodes := []; lastNode := None |}.

(** The node [lastNode] points to. *)
Definition deref (tl : t) : option Node :=
  match lastNode tl with
  | Some k => nth_error (Nodes tl) k
  | None => None
  end.

Definition Append (tl : t) (n : Node) : t :=
  if Summarizable n && TypeOf_eqb (TypeOf (deref tl)) (TypeOf (Some n))
  then
    match lastNode tl with
    | Some k => {| Nodes := update_at (Nodes tl) k Add;
                   lastNode := lastNode tl |}
    | None => tl
    end
  else
    {| Nodes := Nodes tl ++ [n];
       lastNode := Some (List.length (Nodes tl)) |}.

End TokenList.

(** ** Ranging over a string *)

Definition RuneError : Z := 0xFFFD.

(** The continuation bytes of UTF-8. *)
Definition is_cont (b : Z) : bool := (0x80 <=? b) && (b <=? 0xBF).

(** The code points of the two, three and four byte sequences. *)
Definition rune2 (b0 b1 : Z) : Z :=
  Z.lor (Z.shiftl (Z.land b0 0x1F) 6) (Z.land b1 0x3F).

Definition rune3 (b0 b1 b2 : Z) : Z :=
  Z.lor (Z.lor (Z.shiftl (Z.land b0 0x0F) 12) (Z.shiftl (Z.land b1 0x3F) 6))
        (Z.land b2 0x3F).

Definition rune4 (b0 b1 b2 b3 : Z) : Z :=
  Z.lor (Z.lor (Z.lor (Z.shiftl (Z.land b0 0x07) 18)
                      (Z.shiftl (Z.land b1 0x3F) 12))
               (Z.shiftl (Z.land b2 0x3F) 6))
        (Z.land b3 0x3F).

(** [runtime.decoderune] at a first byte [b0 >= 0x80] followed by
    [rest]: the rune and the number of bytes it takes. *)
Definition decoderune (b0 : Z) (rest : list Z) : Z * nat :=
  if (0xC0 <=? b0) && (b0 <? 0xE0) then
    match rest with
    | b1 :: _ =>
        if is_cont b1 && (0x7F <? rune2 b0 b1)
        then (rune2 b0 b1, 2%nat) else (RuneError, 1%nat)
    | _ => (RuneError, 1%nat)
    end
  else if (0xE0 <=? b0) && (b0 <? 0xF0) then
    match rest with
    | b1 :: b2 :: _ =>
        if is_cont b1 && is_cont b2 && (0x7FF <? rune3 b0 b1 b2)
           && negb ((0xD800 <=? rune3 b0 b1 b2) && (rune3 b0 b1 b2 <=? 0xDFFF))
        then (rune3 b0 b1 b2, 3%nat) else (RuneError, 1%nat)
    | _ => (RuneError, 1%nat)
    end
  else if (0xF0 <=? b0) && (b0 <? 0xF8) then
    match rest with
    | b1 :: b2 :: b3 :: _ =>
        if is_cont b1 && is_cont b2 && is_cont b3
           && (0xFFFF <? rune4 b0 b1 b2 b3) && (rune4 b0 b1 b2 b3 <=? 0x10FFFF)
        then (rune4 b0 b1 b2 b3, 4%nat) else (RuneError, 1%nat)
    | _ => (RuneError, 1%nat)
    end
  else (RuneError, 1%nat).

(** [for i, c := range s]: the pairs of a byte offset and the rune that
    starts there.  [skip] counts the bytes of the current rune still to
    pass over. *)
Fixpoint range_from (bs : list Z) (i : Z) (skip : nat) : list (Z * Z) :=
  match bs with
  | [] => []
  | b0 :: rest =>
      match skip with
      | S k => range_from rest (i + 1) k
      | O =>
          if b0 <? 0x80 then (i, b0) :: range_from rest (i + 1) 0
          else
            let '(r, size) := decoderune b0 rest in
            (i, r) :: range_from rest (i + 1) (Nat.pred size)
      end
  end.

Definition range_string (s : string) : list (Z * Z) :=
  range_from (bytes_of_string s) 0 0.

(** [len(string(c))]: the length of the UTF-8 encoding of a rune; a
    value that is no code point is encoded as U+FFFD. *)
Definition len_string (c : Z) : Z :=
  if c <? 0 then 3
  else if c <? 0x80 then 1
  else if c <? 0x800 then 2
  else if (0xD800 <=? c) && (c <=? 0xDFFF) then 3
  else if c <? 0x10000 then 3
  else if c <=? 0x10FFFF then 4
  else 3.

(** ** The lexer *)

Definition Tokenize_body (tl : TokenList.t) (ic : Z * Z) : TokenList.t :=
  let '(i, c) := ic in
  let e := int_add i (len_string c) in
  let b := {| start := i; end_ := e |} in
  if c =? rune "+" then
    TokenList.Append tl (IncNode b {| count := 1 |})
  else if c =? rune "-" then
    TokenList.Append tl (DecNode b {| count := 1 |})
  else if c =? rune "<" then
    TokenList.Append tl (PrevNode b {| count := 1 |})
  else if c =? rune ">" then
    TokenList.Append tl (NextNode b {| count := 1 |})
  else if c =? rune "[" then TokenList.Append tl (LoopOpenNode b)
  else if c =? rune "]" then TokenList.Append tl (LoopCloseNode b)
  else if c =? rune "{" then TokenList.Append tl (FuncOpenNode b)
  else if c =? rune "}" then TokenList.Append tl (FuncCloseNode b)
  else if c =? rune "!" then TokenList.Append tl (FuncExecNode b)
  else if c =? rune "." then TokenList.Append tl (OutputNode b)
  else if c =? rune "," then TokenList.Append tl (InputNode b)
  else tl.

Definition Tokenize (s : string) : TokenList.t :=
  let tl :=
    TokenList.Append TokenList.empty
      (PreambleNode {| start := 0; end_ := 0 |} false false) in
  let tl := fold_left Tokenize_body (range_string s) tl in
  TokenList.Append tl (PostambleNode {| start := 0; end_ := 0 |}).

(** ** The parser *)

Module ParseList.

Record t : Type := { Nodes : list Node }.

(** [&ParseList{}] *)
Definition empty : t := {| Nodes := [] |}.

Definition Append (p : t) (n : Node) : t := {| Nodes := Nodes p ++ [n] |}.

End ParseList.

Record ParseError : Type := { FaultyNode : Node; Message : string }.

Definition Error (p : ParseError) : string := Message p.

Definition parseError (n : Node) (msg : string) : ParseError :=
  {| FaultyNode := n;
     Message := ("Error: " ++ msg ++ ", Position: " ++ fmt_d (Pos n)
                   ++ " - " ++ fmt_d (End_ n) ++ nl)%string |}.

(** The two run-time panics the parser can raise: [s[k]] with [k] out of
    range, and [x.(T)] on a value of another type. *)
Inductive PanicKind : Type := IndexOutOfRange | TypeAssertion.

(** How a call ends: it returns with a [nil] error, it returns an error,
    or it panics. *)
Inductive Outcome (A : Type) : Type :=
| Returned (a : A)
| Failed (e : ParseError)
| Panicked (k : PanicKind).

Arguments Returned {A} a.
Arguments Failed {A} e.
Arguments Panicked {A} k.

(** [s[k]] on a slice *)
Definition index (l : list Node) (k : Z) : Outcome Node :=
  if k <? 0 then Panicked IndexOutOfRange
  else match nth_error l (Z.to_nat k) with
       | Some n => Returned n
       | None => Panicked IndexOutOfRange
       end.

(** [len(s)] *)
Definition len (l : list Node) : Z := Z.of_nat (List.length l).

(** The span [BaseNode{ p2.Nodes[0].Pos(), p2.Nodes[len(p2.Nodes)-1].End() }]
    of a container built from the list [p2]. *)
Definition span_of (p2 : ParseList.t) : Outcome BaseNode :=
  match index (ParseList.Nodes p2) 0 with
  | Returned first =>
      match index (ParseList.Nodes p2)
                  (int_add (len (ParseList.Nodes p2)) (-1)) with
      | Returned final =>
          Returned {| start := Pos first; end_ := End_ final |}
      | Failed e => Failed e
      | Panicked k => Panicked k
      end
  | Failed e => Failed e
  | Panicked k => Panicked k
  end.

(** [UseIO = true] on [p.Nodes[0]] asserted to be a [PreambleNode]: the
    first node of [p] is changed in place. *)
Definition set_UseIO (p : ParseList.t) : Outcome ParseList.t :=
  match index (ParseList.Nodes p) 0 with
  | Returned (PreambleNode b _ useFmt) =>
      Returned {| ParseList.Nodes :=
                    PreambleNode b true useFmt :: tl (ParseList.Nodes p) |}
  | Returned _ => Panicked TypeAssertion
  | Failed e => Failed e
  | Panicked k => Panicked k
  end.

(** [UseFmt = true] on [p.Nodes[0]] asserted to be a [PreambleNode] *)
Definition set_UseFmt (p : ParseList.t) : Outcome ParseList.t :=
  match index (ParseList.Nodes p) 0 with
  | Returned (PreambleNode b useIO _) =>
      Returned {| ParseList.Nodes :=
                    PreambleNode b useIO true :: tl (ParseList.Nodes p) |}
  | Returned _ => Panicked TypeAssertion
  | Failed e => Failed e
  | Panicked k => Panicked k
  end.

(** The loop of [ParseTokens], at index [i] with [ts = t.Nodes[i:]] still
    to scan and [p] built so far.  The recursive call of the source,
    [ParseTokens(&TokenList{t.Nodes[i+1:], nil}, nesting+1)], is the loop
    started on those tokens at index 0 with an empty list.  After a
    recursive call that returned [skip] the source goes on at index
    [i + skip + 1], that is on the tokens [skipn skip rest]; the index is
    kept for the count that the call returns at a closer.  The recursion
    is on the number of tokens still to scan. *)
Equations? ParseTokens_loop (ts : list Node) (nesting : Z) (i : Z)
    (p : ParseList.t) : Outcome (ParseList.t * Z)
    by wf (List.length ts) lt :=
  ParseTokens_loop [] nesting i p := Returned (p, 0);
  ParseTokens_loop (unknownNode :: rest) nesting i p :=
    match unknownNode with
    | LoopOpenNode _ =>
        match ParseTokens_loop rest (int_add nesting 1) 0 ParseList.empty with
        | Returned (p2, skip) =>
            match span_of p2 with
            | Returned b =>
                ParseTokens_loop (skipn (Z.to_nat skip) rest) nesting
                  (int_add (int_add i skip) 1)
                  (ParseList.Append p (LoopNode b (ParseList.Nodes p2)))
            | Failed e => Failed e
            | Panicked k => Panicked k
            end
        | Failed err => Failed err
        | Panicked k => Panicked k
        end
    | LoopCloseNode _ =>
        if nesting =? 0 then
          Failed (parseError unknownNode "Loop closed while not open")
        else Returned (p, int_add i 1)
    | FuncOpenNode _ =>
        match ParseTokens_loop rest (int_add nesting 1) 0 ParseList.empty with
        | Returned (p2, skip) =>
            match span_of p2 with
            | Returned b =>
                ParseTokens_loop (skipn (Z.to_nat skip) rest) nesting
                  (int_add (int_add i skip) 1)
                  (ParseList.Append p (FunctionNode b (ParseList.Nodes p2)))
            | Failed e => Failed e
            | Panicked k => Panicked k
            end
        | Failed err => Failed err
        | Panicked k => Panicked k
        end
    | FuncCloseNode _ =>
        if nesting =? 0 then
          Failed (parseError unknownNode "Func closed while not open")
        else Returned (p, int_add i 1)
    | InputNode _ =>
        match set_UseIO p with
        | Returned p' =>
            ParseTokens_loop rest nesting (int_add i 1)
              (ParseList.Append p' unknownNode)
        | Failed e => Failed e
        | Panicked k => Panicked k
        end
    | OutputNode _ =>
        match set_UseFmt p with
        | Returned p' =>
            ParseTokens_loop rest nesting (int_add i 1)
              (ParseList.Append p' unknownNode)
        | Failed e => Failed e
        | Panicked k => Panicked k
        end
    | _ =>
        ParseTokens_loop rest nesting (int_add i 1)
          (ParseList.Append p unknownNode)
    end.
Proof.
  all: try (simpl; lia).
  all: rewrite length_skipn; simpl; lia.
Qed.

Definition ParseTokens (t : TokenList.t) (nesting : Z)
  : Outcome (ParseList.t * Z) :=
  ParseTokens_loop (TokenList.Nodes t) nesting 0 ParseList.empty.

Definition Parse (s : string) : Outcome ParseList.t :=
  match ParseTokens (Tokenize s) 0 with
  | Returned (p, _) => Returned p
  | Failed err => Failed err
  | Panicked k => Panicked k
  end.

(** ** The encoder *)

Definition cat (l : list string) : string := String.concat "" l.

Definition PreambleNode_headers : string := cat [nl; "import "; dq; "os"; dq; nl].

Definition PreambleNode_start : string := cat [nl; "package main"; nl].

Definition PreambleNode_body : string :=
  cat [nl; nl;
       "const REGISTERS = 100"; nl; nl;
       "func main() {"; nl;
       tab; "registers := make([]byte, REGISTERS)"; nl;
       tab; "functions := make([]func(), REGISTERS)"; nl;
       tab; "currentIndex := 0"; nl; nl;
       tab; "// Suppress unused warnings"; nl;
       tab; "registers[0] = 0"; nl;
       tab; "functions[0] = nil"; nl; nl;
       tab; "// Program begin"; nl].

Definition import_io : string := cat ["import "; dq; "io"; dq; nl].

Definition import_fmt : string := cat ["import "; dq; "fmt"; dq; nl].

Definition PreambleNode_Code (UseIO UseFmt : bool) : string :=
  let start := (PreambleNode_start ++ PreambleNode_headers)%string in
  let start := if UseIO then (start ++ import_io)%string else start in
  let start := if UseFmt then (start ++ import_fmt)%string else start in
  (start ++ PreambleNode_body)%string.

Definition PostambleNode_Code : string :=
  cat [nl;
       tab; "// Program end"; nl;
       tab; "// Flush stdout"; nl;
       tab; "os.Stdout.Sync()"; nl;
       "}"; nl].

Definition IncNode_Code (c : Z) : string :=
  cat ["registers[currentIndex] += "; fmt_d c; nl].

Definition DecNode_Code (c : Z) : string :=
  cat ["registers[currentIndex] -= "; fmt_d c; nl].

Definition PrevNode_Code (c : Z) : string :=
  cat [nl;
       tab; "if currentIndex == 0 {"; nl;
       tab; tab; "currentIndex = REGISTERS-1"; nl;
       tab; "} else {"; nl;
       tab; tab; "currentIndex -= "; fmt_d c; nl;
       tab; "}"; nl].

Definition NextNode_Code (c : Z) : string :=
  cat ["currentIndex = (currentIndex + "; fmt_d c; ") % REGISTERS"; nl].

Definition OutputNode_Code : string :=
  cat ["fmt.Print(string(registers[currentIndex]))"; nl].

Definition InputNode_Code : string :=
  cat [nl;
       tab; "{"; nl;
       tab; tab; "_, err := fmt.Scanf("; dq; "%c"; dq;
                 ", &registers[currentIndex])"; nl; nl;
       tab; tab; "if err != nil {"; nl;
       tab; tab; tab; "if err == io.EOF {"; nl;
       tab; tab; tab; tab; "registers[currentIndex] = 0"; nl;
       tab; tab; tab; "} else {"; nl;
       tab; tab; tab; tab; "fmt.Println("; dq; "Keyscan Error:"; dq;
                           ", err)"; nl;
       tab; tab; tab; tab; "return"; nl;
       tab; tab; tab; "}"; nl;
       tab; tab; "}"; nl;
       tab; "}"; nl].

Definition LoopNode_header : string :=
  cat ["{"; nl; tab; tab; "for ; registers[currentIndex] > 0; {"; nl].

Definition LoopNode_footer : string :=
  cat [nl; tab; tab; "}"; nl; tab; "}"; nl].

Definition FunctionNode_header : string :=
  cat [nl; tab; "functions[currentIndex] = func() {"; nl].

Definition FunctionNode_footer : string := cat [nl; tab; "}"; nl].

Definition FuncExecNode_Code : string :=
  cat [nl;
       tab; "if functions[currentIndex] != nil {"; nl;
       tab; tab; "functions[currentIndex]()"; nl;
       tab; "}"; nl].

(** The method [Code] of each type.  The markers have none: they are
    reached only through the assertion [node.(Encodable)] in the loops of
    [LoopNode.Code] and [FunctionNode.Code], which panics on them. *)
Fixpoint Code (n : Node) : Outcome string :=
  let children :=
    fix children (l : list Node) (code footer : string) : Outcome string :=
      match l with
      | [] => Returned (code ++ footer)%string
      | node :: l' =>
          if Encodable node then
            match Code node with
            | Returned c =>
                children l' (code ++ (cat [tab; tab; tab] ++ c))%string footer
            | Failed e => Failed e
            | Panicked k => Panicked k
            end
          else Panicked TypeAssertion
      end in
  match n with
  | PreambleNode _ UseIO UseFmt => Returned (PreambleNode_Code UseIO UseFmt)
  | PostambleNode _ => Returned PostambleNode_Code
  | IncNode _ c => Returned (IncNode_Code (count c))
  | DecNode _ c => Returned (DecNode_Code (count c))
  | PrevNode _ c => Returned (PrevNode_Code (count c))
  | NextNode _ c => Returned (NextNode_Code (count c))
  | OutputNode _ => Returned OutputNode_Code
  | InputNode _ => Returned InputNode_Code
  | LoopNode _ Nodes => children Nodes LoopNode_header LoopNode_footer
  | FunctionNode _ Nodes =>
      children Nodes FunctionNode_header FunctionNode_footer
  | FuncExecNode _ => Returned FuncExecNode_Code
  | LoopOpenNode _ | LoopCloseNode _ | FuncOpenNode _ | FuncCloseNode _ =>
      Panicked TypeAssertion
  end.

Fixpoint Encode_loop (l : list Node) (code : string) : Outcome string :=
  match l with
  | [] => Returned code
  | node :: l' =>
      if Encodable node then
        match Code node with
        | Returned c => Encode_loop l' (code ++ (tab ++ c))%string
        | Failed e => Failed e
        | Panicked k => Panicked k
        end
      else Encode_loop l' code
  end.

Definition Encode (t : ParseList.t) : Outcome string :=
  Encode_loop (ParseList.Nodes t) "".

(** ** Notions used in the statements *)

(** The characters the lexer has a case for. *)
Definition recognized (c : Z) : bool :=
  existsb (Z.eqb c)
    (map rune ["+"; "-"; "<"; ">"; "["; "]"; "{"; "}"; "!"; "."; ","]%char).

(** The characters of the four countable operations. *)
Definition countable_char (c : Z) : bool :=
  existsb (Z.eqb c) (map rune ["+"; "-"; "<"; ">"]%char).

(** The bytes of a text, each with its offset, counted from [i]. *)
Fixpoint indexed (bs : list Z) (i : Z) : list (Z * Z) :=
  match bs with
  | [] => []
  | b :: bs' => (i, b) :: indexed bs' (i + 1)
  end.

(** The body of the lexer's loop run on every byte, from the token list
    [tl] on.  [scan_bytes_range] shows it is what the loop over the runes
    computes. *)
Definition scan_bytes (bs : list Z) (i : Z) (tl : TokenList.t) : TokenList.t :=
  fold_left Tokenize_body (indexed bs i) tl.

(** The tokens of a text that starts at offset [i], lexed on their own. *)
Definition tokens_from (i : Z) (s : string) : list Node :=
  TokenList.Nodes (scan_bytes (bytes_of_string s) i TokenList.empty).

(** The last and the first recognized character of a text, if any. *)
Fixpoint last_recognized (bs : list Z) : option Z :=
  match bs with
  | [] => None
  | b :: bs' =>
      match last_recognized bs' with
      | Some c => Some c
      | None => if recognized b then Some b else None
      end
  end.

Fixpoint first_recognized (bs : list Z) : option Z :=
  match bs with
  | [] => None
  | b :: bs' => if recognized b then Some b else first_recognized bs'
  end.

(** A text without any recognized character. *)
Definition unrecognized (bs : list Z) : bool :=
  forallb (fun b => negb (recognized b)) bs.

(** Would [Append] merge the node [n] into the last node [x]. *)
Definition merges (x n : Node) : bool :=
  Summarizable n && NodeType_eqb (type_of x) (type_of n).

(** [N] times the character [c]. *)
Fixpoint repeat_char (c : ascii) (N : nat) : string :=
  match N with
  | O => EmptyString
  | S N' => String c (repeat_char c N')
  end.

(** The node the lexer creates for a countable character. *)
Definition op_node (c : Z) (b : BaseNode) (k : Z) : Node :=
  if c =? rune "+" then IncNode b {| count := k |}
  else if c =? rune "-" then DecNode b {| count := k |}
  else if c =? rune "<" then PrevNode b {| count := k |}
  else NextNode b {| count := k |}.

(** Does [pat] occur in [s]; how many times. *)
Fixpoint occurs (pat s : string) : bool :=
  prefix pat s ||
  match s with
  | EmptyString => false
  | String _ s' => occurs pat s'
  end.

Fixpoint count_sub (pat s : string) : nat :=
  ((if prefix pat s then 1 else 0) +
   match s with
   | EmptyString => 0
   | String _ s' => count_sub pat s'
   end)%nat.

(** The numbers of [LoopNode]s and of nodes of type [ty] in a tree,
    at any depth. *)
Fixpoint count_type (ty : NodeType) (n : Node) : nat :=
  let children :=
    fix children (l : list Node) : nat :=
      match l with
      | [] => 0%nat
      | x :: l' => (count_type ty x + children l')%nat
      end in
  ((if NodeType_eqb (type_of n) ty then 1 else 0) +
   match n with
   | LoopNode _ Nodes | FunctionNode _ Nodes => children Nodes
   | _ => 0
   end)%nat.

Definition count_type_list (ty : NodeType) (l : list Node) : nat :=
  fold_right (fun n acc => (count_type ty n + acc)%nat) 0%nat l.

(** The classes of tokens [ParseTokens] tells apart. *)
Inductive TokenClass : Type :=
| COpen (mk : BaseNode -> list Node -> Node)
| CClose (msg : string)
| CInput
| COutput
| CPlain.

Definition classify (n : Node) : TokenClass :=
  match n with
  | LoopOpenNode _ => COpen LoopNode
  | FuncOpenNode _ => COpen FunctionNode
  | LoopCloseNode _ => CClose "Loop closed while not open"
  | FuncCloseNode _ => CClose "Func closed while not open"
  | InputNode _ => CInput
  | OutputNode _ => COutput
  | _ => CPlain
  end.

(** Is the first node of the list a [PreambleNode]. *)
Definition head_preamble (p : ParseList.t) : bool :=
  match ParseList.Nodes p with
  | PreambleNode _ _ _ :: _ => true
  | _ => false
  end.

(** The characters of the four markers. *)
Definition marker_char (c : Z) : bool :=
  existsb (Z.eqb c) (map rune ["["; "]"; "{"; "}"]%char).

(** The tokens a call of the loop has gone through when it returns the
    count [k], having started at index [i] on the tokens [ts]: all of
    them when it ran to the end ([k = 0]), those up to the closer
    otherwise. *)
Definition visited (ts : list Node) (i k : Z) : list Node :=
  if k =? 0 then ts else firstn (Z.to_nat (k - i)) ts.




(** The program of the specification's example. *)
Definition example_program : string := "+++[>+++[>+++<-]<-]>+.".

(** The node the lexer creates for the character [c] at offset [i]. *)
Definition char_node (c i : Z) : option Node :=
  let b := {| start := i; end_ := int_add i (len_string c) |} in
  if c =? rune "+" then Some (IncNode b {| count := 1 |})
  else if c =? rune "-" then Some (DecNode b {| count := 1 |})
  else if c =? rune "<" then Some (PrevNode b {| count := 1 |})
  else if c =? rune ">" then Some (NextNode b {| count := 1 |})
  else if c =? rune "[" then Some (LoopOpenNode b)
  else if c =? rune "]" then Some (LoopCloseNode b)
  else if c =? rune "{" then Some (FuncOpenNode b)
  else if c =? rune "}" then Some (FuncCloseNode b)
  else if c =? rune "!" then Some (FuncExecNode b)
  else if c =? rune "." then Some (OutputNode b)
  else if c =? rune "," then Some (InputNode b)
  else None.

(** The type of that node. *)
Definition char_type (c : Z) : option NodeType :=
  option_map type_of (char_node c 0).

(** A token list with the one node [x], which [lastNode] points to. *)
Definition single (x : Node) : TokenList.t :=
  {| TokenList.Nodes := [x]; TokenList.lastNode := Some 0%nat |}.

(** The token list [tl] with the nodes [init] put in front. *)
Definition shift (init : list Node) (tl : TokenList.t) : TokenList.t :=
  {| TokenList.Nodes := init ++ TokenList.Nodes tl;
     TokenList.lastNode :=
       option_map (Nat.add (List.length init)) (TokenList.lastNode tl) |}.

(** The token list is empty or ends with the node [lastNode] points to. *)
Definition shaped (tl : TokenList.t) : Prop :=
  tl = TokenList.empty \/ exists init x, tl = shift init (single x).

(** Two texts whose tokens do not merge where the texts meet. *)
Definition apart (a b : list Z) : Prop :=
  forall c, last_recognized a = Some c -> first_recognized b = Some c ->
            countable_char c = false.

(** Does the text hold the character [c]. *)
Definition contains (c : ascii) (s : string) : bool :=
  existsb (fun b => b =? rune c) (bytes_of_string s).

(** Is there a node of type [ty] in the list (at its top level). *)
Definition has_type (ty : NodeType) (l : list Node) : bool :=
  existsb (fun n => NodeType_eqb (type_of n) ty) l.

Definition Preamble0 : Node :=
  PreambleNode {| start := 0; end_ := 0 |} false false.

Definition Postamble0 : Node := PostambleNode {| start := 0; end_ := 0 |}.

(** What a call of the loop that went through the tokens [vs], from the
    list [p] to the list [q], did about input and output: when [p] does
    not start with the preamble there was none among [vs]; when it does,
    the flags of the preamble of [q] are those of [p] or-ed with the
    presence of an [InputNode], of an [OutputNode], among [vs]. *)
Definition io_summary (p q : ParseList.t) (vs : list Node) : Prop :=
  (head_preamble p = false ->
   has_type TInput vs = false /\ has_type TOutput vs = false) /\
  (forall b io fm p0,
      ParseList.Nodes p = PreambleNode b io fm :: p0 ->
      exists q0,
        ParseList.Nodes q =
        PreambleNode b (io || has_type TInput vs) (fm || has_type TOutput vs)
        :: q0).

(** Well-bracketed tokens and the nodes they stand for, below an opener:
    a token that is no marker and neither input nor output stands for
    itself; an opener, the tokens up to its closer of the same kind and
    that closer stand for one container node, whose children are the
    nodes of the tokens strictly between the two markers and whose span
    runs from the first child to the last. *)
Inductive nest : list Node -> list Node -> Prop :=
| nest_nil : nest [] []
| nest_leaf x ts ns :
    classify x = CPlain -> nest ts ns -> nest (x :: ts) (x :: ns)
| nest_loop bo bc body ch b ts ns :
    nest body ch -> span_of {| ParseList.Nodes := ch |} = Returned b ->
    nest ts ns ->
    nest (LoopOpenNode bo :: body ++ LoopCloseNode bc :: ts)
         (LoopNode b ch :: ns)
| nest_func bo bc body ch b ts ns :
    nest body ch -> span_of {| ParseList.Nodes := ch |} = Returned b ->
    nest ts ns ->
    nest (FuncOpenNode bo :: body ++ FuncCloseNode bc :: ts)
         (FunctionNode b ch :: ns).

(** The same at the top level, where input and output tokens stand for
    themselves too. *)
Inductive nest_top : list Node -> list Node -> Prop :=
| nest_top_nil : nest_top [] []
| nest_top_leaf x ts ns :
    classify x = CPlain \/ classify x = CInput \/ classify x = COutput ->
    nest_top ts ns -> nest_top (x :: ts) (x :: ns)
| nest_top_loop bo bc body ch b ts ns :
    nest body ch -> span_of {| ParseList.Nodes := ch |} = Returned b ->
    nest_top ts ns ->
    nest_top (LoopOpenNode bo :: body ++ LoopCloseNode bc :: ts)
             (LoopNode b ch :: ns)
| nest_top_func bo bc body ch b ts ns :
    nest body ch -> span_of {| ParseList.Nodes := ch |} = Returned b ->
    nest_top ts ns ->
    nest_top (FuncOpenNode bo :: body ++ FuncCloseNode bc :: ts)
             (FunctionNode b ch :: ns).

(** No node of the list can be merged into the node before it. *)
Fixpoint adjacent_ok (l : list Node) : bool :=
  match l with
  | x :: l' =>
      match l' with
      | y :: _ => negb (merges x y) && adjacent_ok l'
      | [] => true
      end
  | [] => true
  end.

(** The first byte of the node's span is the character that gives nodes
    of its type, and the span is one byte long. *)
Definition token_at (bs : list Z) (n : Node) : Prop :=
  0 <= Pos n < Z.of_nat (List.length bs) /\
  End_ n = int_add (Pos n) 1 /\
  exists c, nth_error bs (Z.to_nat (Pos n)) = Some c /\
            char_type c = Some (type_of n).

(** The count of a node, 0 for a node without one. *)
Definition count_or0 (n : Node) : Z :=
  match Count n with
  | Some k => k
  | None => 0
  end.

(** The sum of the counts of the nodes of type [ty] in a list. *)
Fixpoint count_of (ty : NodeType) (l : list Node) : Z :=
  match l with
  | [] => 0
  | n :: l' =>
      (if NodeType_eqb (type_of n) ty then count_or0 n else 0)
      + count_of ty l'
  end.

(** How many times the byte [c] occurs in a text. *)
Fixpoint occ (c : Z) (bs : list Z) : Z :=
  match bs with
  | [] => 0
  | b :: bs' => (if b =? c then 1 else 0) + occ c bs'
  end.

Definition occurrences (c : ascii) (s : string) : Z :=
  occ (rune c) (bytes_of_string s).

(** What a node of the token list is, its span left out: its type and
    its count. *)
Definition kind (n : Node) : NodeType * option Z := (type_of n, Count n).

(** Two token lists with nodes of the same kinds, both empty or both
    with [lastNode] at their last node. *)
Definition alike (tl tl' : TokenList.t) : Prop :=
  (tl = TokenList.empty /\ tl' = TokenList.empty) \/
  exists init x init' x',
    tl = shift init (single x) /\ tl' = shift init' (single x') /\
    map kind init = map kind init' /\ kind x = kind x'.

(** The nodes the lexer makes: all but the two containers. *)
Definition is_token (n : Node) : bool :=
  match n with
  | LoopNode _ _ | FunctionNode _ _ => false
  | _ => true
  end.

(** A node that has [Code], and so have the nodes below it. *)
Fixpoint deep_encodable (n : Node) : bool :=
  let children :=
    fix children (l : list Node) : bool :=
      match l with
      | [] => true
      | x :: l' => deep_encodable x && children l'
      end in
  Encodable n &&
  match n with
  | LoopNode _ Nodes | FunctionNode _ Nodes => children Nodes
  | _ => true
  end.

(** The loop over the children in [LoopNode.Code] and
    [FunctionNode.Code]. *)
Fixpoint Code_children (l : list Node) (code footer : string)
  : Outcome string :=
  match l with
  | [] => Returned (code ++ footer)%string
  | node :: l' =>
      if Encodable node then
        match Code node with
        | Returned c =>
            Code_children l' (code ++ (cat [tab; tab; tab] ++ c))%string footer
        | Failed e => Failed e
        | Panicked k => Panicked k
        end
      else Panicked TypeAssertion
  end.

(** Two tokens that are the same, or two closers of any kinds. *)
Definition same_but_closers (x y : Node) : Prop :=
  x = y \/ exists m1 m2, classify x = CClose m1 /\ classify y = CClose m2.

(** A node without any [InputNode] or [OutputNode], at any depth. *)
Definition io_free (m : Node) : Prop :=
  count_type TInput m = 0%nat /\ count_type TOutput m = 0%nat.

(** ** The driver *)

Module Main.

Definition max (a b : Z) : Z := if a >? b then a else b.

Definition min (a b : Z) : Z := if a <? b then a else b.

(** What [ioutil.ReadAll(os.Stdin)] gives: the bytes read, or an error
    with its text. *)
Inductive Stdin : Type :=
| Read (data : string)
| ReadFailed (err : string).

(** What a run of the program leaves: the text written to the standard
    output and the exit status. *)
Record Run : Type := { stdout : string; status : Z }.

(** [string(data[lo:hi])].  Go checks [hi] against the capacity of
    [data], which is at least its length; the check here is against
    the length, so that the model panics whenever the program does. *)
Definition slice (data : string) (lo hi : Z) : Outcome string :=
  if (lo <? 0) || (hi <? lo) || (Z.of_nat (String.length data) <? hi)
  then Panicked IndexOutOfRange
  else Returned (substring (Z.to_nat lo) (Z.to_nat (hi - lo)) data).

(** The bounds of the text shown with an error, [t := 10] bytes around
    the faulty node. *)
Definition window (data : string) (pe : ParseError) : Z * Z :=
  let s := Pos (FaultyNode pe) in
  let e := End_ (FaultyNode pe) in
  let t := 10 in
  (max (int_add s (- t)) 0,
   min (int_add e t) (Z.of_nat (String.length data))).

(** The branch of [main] that runs (the other is under [if false]). *)
Definition main (stdin : Stdin) : Outcome Run :=
  match stdin with
  | ReadFailed err =>
      Returned {| stdout := cat ["Reading from stdin failed: "; err; nl];
                  status := 1 |}
  | Read data =>
      match Parse data with
      | Failed pe =>
          let '(lo, hi) := window data pe in
          match slice data lo hi with
          | Returned details =>
              Returned {| stdout := cat [Error pe; nl;
                                         "Details: "; details; nl];
                          status := 1 |}
          | Failed e => Failed e
          | Panicked k => Panicked k
          end
      | Panicked k => Panicked k
      | Returned p =>
          match Encode p with
          | Returned code =>
              Returned {| stdout := cat [code; nl]; status := 0 |}
          | Failed e => Failed e
          | Panicked k => Panicked k
          end
      end
  end.

End Main.

(** ** The first variant of [parser/parser.go]

    The file holds two versions of the package.  The first has no
    function definitions, no flags on the preamble and no nesting
    argument: a loop is parsed by [parseLoop], and a syntax error is a
    plain [fmt.Errorf] value. *)

Module V1.

Inductive Node : Type :=
| PreambleNode (b : BaseNode)
| PostambleNode (b : BaseNode)
| IncNode (b : BaseNode) (c : BaseCountable)
| DecNode (b : BaseNode) (c : BaseCountable)
| PrevNode (b : BaseNode) (c : BaseCountable)
| NextNode (b : BaseNode) (c : BaseCountable)
| OutputNode (b : BaseNode)
| InputNode (b : BaseNode)
| LoopNode (b : BaseNode) (Nodes : list Node)
| LoopOpenNode (b : BaseNode)
| LoopCloseNode (b : BaseNode).

Definition base (n : Node) : BaseNode :=
  match n with
  | PreambleNode b | PostambleNode b | IncNode b _ | DecNode b _
  | PrevNode b _ | NextNode b _ | OutputNode b | InputNode b
  | LoopNode b _ | LoopOpenNode b | LoopCloseNode b => b
  end.

Definition Pos (n : Node) : Z := start (base n).

Definition End_ (n : Node) : Z := end_ (base n).

Definition type_of (n : Node) : NodeType :=
  match n with
  | PreambleNode _ => TPreamble
  | PostambleNode _ => TPostamble
  | IncNode _ _ => TInc
  | DecNode _ _ => TDec
  | PrevNode _ _ => TPrev
  | NextNode _ _ => TNext
  | OutputNode _ => TOutput
  | InputNode _ => TInput
  | LoopNode _ _ => TLoop
  | LoopOpenNode _ => TLoopOpen
  | LoopCloseNode _ => TLoopClose
  end.

Definition TypeOf (n : option Node) : option NodeType := option_map type_of n.

Definition Summarizable (n : Node) : bool :=
  match n with
  | IncNode _ _ | DecNode _ _ | PrevNode _ _ | NextNode _ _ => true
  | _ => false
  end.

Definition Count (n : Node) : option Z :=
  match n with
  | IncNode _ c | DecNode _ c | PrevNode _ c | NextNode _ c => Some (count c)
  | _ => None
  end.

Definition Add (n : Node) : Node :=
  match n with
  | IncNode b c => IncNode b (BaseCountable_Add c)
  | DecNode b c => DecNode b (BaseCountable_Add c)
  | PrevNode b c => PrevNode b (BaseCountable_Add c)
  | NextNode b c => NextNode b (BaseCountable_Add c)
  | _ => n
  end.

(** The types that have [Code]: all but the two markers. *)
Definition Encodable (n : Node) : bool :=
  match n with
  | LoopOpenNode _ | LoopCloseNode _ => false
  | _ => true
  end.

Fixpoint update_at (l : list Node) (k : nat) (f : Node -> Node) : list Node :=
  match l, k with
  | [], _ => []
  | x :: l', O => f x :: l'
  | x :: l', S k' => x :: update_at l' k' f
  end.

Module TokenList.

Record t : Type := { Nodes : list Node; lastNode : option nat }.

Definition empty : t := {| Nodes := []; lastNode := None |}.

Definition deref (tl : t) : option Node :=
  match lastNode tl with
  | Some k => nth_error (Nodes tl) k
  | None => None
  end.

Definition Append (tl : t) (n : Node) : t :=
  if Summarizable n && TypeOf_eqb (TypeOf (deref tl)) (TypeOf (Some n))
  then
    match lastNode tl with
    | Some k => {| Nodes := update_at (Nodes tl) k Add;
                   lastNode := lastNode tl |}
    | None => tl
    end
  else
    {| Nodes := Nodes tl ++ [n];
       lastNode := Some (List.length (Nodes tl)) |}.

End TokenList.

(** The body of the lexer's loop.  Here [end := len(string(c))] is the
    length of the character, not the offset after it. *)
Definition Tokenize_body (tl : TokenList.t) (ic : Z * Z) : TokenList.t :=
  let '(i, c) := ic in
  let e := len_string c in
  let b := {| start := i; end_ := e |} in
  if c =? rune "+" then
    TokenList.Append tl (IncNode b {| count := 1 |})
  else if c =? rune "-" then
    TokenList.Append tl (DecNode b {| count := 1 |})
  else if c =? rune "<" then
    TokenList.Append tl (PrevNode b {| count := 1 |})
  else if c =? rune ">" then
    TokenList.Append tl (NextNode b {| count := 1 |})
  else if c =? rune "[" then TokenList.Append tl (LoopOpenNode b)
  else if c =? rune "]" then TokenList.Append tl (LoopCloseNode b)
  else if c =? rune "." then TokenList.Append tl (OutputNode b)
  else if c =? rune "," then TokenList.Append tl (InputNode b)
  else tl.

Definition Tokenize (s : string) : TokenList.t :=
  let tl :=
    TokenList.Append TokenList.empty
      (PreambleNode {| start := 0; end_ := 0 |}) in
  let tl := fold_left Tokenize_body (range_string s) tl in
  TokenList.Append tl (PostambleNode {| start := 0; end_ := 0 |}).

Module ParseList.

Record t : Type := { Nodes : list Node }.

Definition empty : t := {| Nodes := [] |}.

Definition Append (p : t) (n : Node) : t := {| Nodes := Nodes p ++ [n] |}.

End ParseList.

(** How a call ends: with a [nil] error, with the error of the given
    text, or in a panic. *)
Inductive Outcome (A : Type) : Type :=
| Returned (a : A)
| Failed (err : string)
| Panicked (k : PanicKind).

Arguments Returned {A} a.
Arguments Failed {A} err.
Arguments Panicked {A} k.

Definition index (l : list Node) (k : Z) : Outcome Node :=
  if k <? 0 then Panicked IndexOutOfRange
  else match nth_error l (Z.to_nat k) with
       | Some n => Returned n
       | None => Panicked IndexOutOfRange
       end.

Definition len (l : list Node) : Z := Z.of_nat (List.length l).

(** The text of the error of [parseLoop]. *)
Definition no_loop_close (pos : Z) : string :=
  cat ["Syntax error: No Loop Close found. Expected at pos. "; fmt_d pos; nl].

(** [&LoopNode{}] with the nodes appended to it so far *)
Definition loopNode_of (nodes : list Node) : Node :=
  LoopNode {| start := 0; end_ := 0 |} nodes.

(** The end of [parseLoop(t)] when its loop has run out: the error made
    from [t[len(t)-1].End()]. *)
Definition parseLoop_end (t : list Node) : Outcome (Node * Z) :=
  match index t (int_add (len t) (-1)) with
  | Returned final => Failed (no_loop_close (End_ final))
  | Failed e => Failed e
  | Panicked k => Panicked k
  end.

(** The loop of [parseLoop(t)] at index [i], with [ts = t[i:]] still to
    scan and [nodes] the nodes of [loopNode] so far.  The recursive call
    [parseLoop(t[i+1:])] is the loop started on those tokens at index 0;
    after it returned [skip] the iteration goes on with [node = lnode]
    and [i + skip], and the next one is at [i + skip + 1], on the tokens
    [skipn skip rest].  When the loop runs out, the error reads the last
    node of [t]. *)
Equations? parseLoop_loop (t ts : list Node) (i : Z) (nodes : list Node)
    : Outcome (Node * Z) by wf (List.length ts) lt :=
  parseLoop_loop t [] i nodes := parseLoop_end t;
  parseLoop_loop t (node :: rest) i nodes :=
    match node with
    | LoopOpenNode _ =>
        match parseLoop_loop rest rest 0 [] with
        | Returned (lnode, skip) =>
            match lnode with
            | LoopCloseNode _ =>
                Returned (loopNode_of nodes, int_add i skip)
            | _ =>
                parseLoop_loop t (skipn (Z.to_nat skip) rest)
                  (int_add (int_add i skip) 1) (nodes ++ [lnode])
            end
        | Failed err => Failed err
        | Panicked k => Panicked k
        end
    | LoopCloseNode _ => Returned (loopNode_of nodes, i)
    | _ => parseLoop_loop t rest (int_add i 1) (nodes ++ [node])
    end.
Proof.
  all: try (simpl; lia).
  all: rewrite length_skipn; simpl; lia.
Qed.

Definition parseLoop (t : list Node) : Outcome (Node * Z) :=
  parseLoop_loop t t 0 [].

(** The loop of [ParseTokens] on the tokens [ts = t.Nodes[i:]] still to
    scan; after [parseLoop] returned [skip] it goes on at [i + skip + 1].
    The type switch has no case for a [LoopCloseNode]. *)
Equations? ParseTokens_loop (ts : list Node) (p : ParseList.t)
    : Outcome ParseList.t by wf (List.length ts) lt :=
  ParseTokens_loop [] p := Returned p;
  ParseTokens_loop (unknownNode :: rest) p :=
    match unknownNode with
    | LoopOpenNode _ =>
        match parseLoop rest with
        | Returned (loopNode, skip) =>
            ParseTokens_loop (skipn (Z.to_nat skip) rest)
              (ParseList.Append p loopNode)
        | Failed err => Failed err
        | Panicked k => Panicked k
        end
    | LoopCloseNode _ => ParseTokens_loop rest p
    | _ => ParseTokens_loop rest (ParseList.Append p unknownNode)
    end.
Proof.
  all: try (simpl; lia).
  all: rewrite length_skipn; simpl; lia.
Qed.

Definition ParseTokens (t : TokenList.t) : Outcome ParseList.t :=
  ParseTokens_loop (TokenList.Nodes t) ParseList.empty.

Definition Parse (s : string) : Outcome ParseList.t :=
  ParseTokens (Tokenize s).

(** The texts of the [Code] methods that differ from the second
    variant's; the others are the same. *)
Definition PreambleNode_Code : string :=
  cat [nl;
       "package main"; nl; nl;
       "import "; dq; "fmt"; dq; nl;
       "import "; dq; "os"; dq; nl; nl;
       "const REGISTERS = 100"; nl; nl;
       "func main() {"; nl;
       tab; "registers := make([]byte, REGISTERS)"; nl;
       tab; "currentIndex := 0"; nl; nl;
       tab; "// Program begin"; nl].

Definition InputNode_Code : string :=
  cat [nl;
       tab; "{"; nl;
       tab; tab; "_, err := fmt.Scanf("; dq; "%c"; dq;
                 ", &registers[currentIndex])"; nl; nl;
       tab; tab; "if err != nil {"; nl;
       tab; tab; tab; "fmt.Println("; dq; "Keyscan Error:"; dq; ", err)"; nl;
       tab; tab; tab; "return"; nl;
       tab; tab; "}"; nl; nl;
       tab; tab; "fmt.Println(registers[currentIndex])"; nl;
       tab; "}"; nl].

Definition LoopNode_header : string :=
  cat ["{"; nl;
       tab; tab; "loopIndex := currentIndex"; nl;
       tab; tab; "for ; registers[loopIndex] > 0; {"; nl].

(** The method [Code] of each type; the assertion [node.(Encodable)] in
    [LoopNode.Code] panics on a marker. *)
Fixpoint Code (n : Node) : Outcome string :=
  let children :=
    fix children (l : list Node) (code : string) : Outcome string :=
      match l with
      | [] => Returned (code ++ LoopNode_footer)%string
      | node :: l' =>
          if Encodable node then
            match Code node with
            | Returned c =>
                children l' (code ++ (cat [tab; tab; tab] ++ c))%string
            | Failed e => Failed e
            | Panicked k => Panicked k
            end
          else Panicked TypeAssertion
      end in
  match n with
  | PreambleNode _ => Returned PreambleNode_Code
  | PostambleNode _ => Returned PostambleNode_Code
  | IncNode _ c => Returned (IncNode_Code (count c))
  | DecNode _ c => Returned (DecNode_Code (count c))
  | PrevNode _ c => Returned (PrevNode_Code (count c))
  | NextNode _ c => Returned (NextNode_Code (count c))
  | OutputNode _ => Returned OutputNode_Code
  | InputNode _ => Returned InputNode_Code
  | LoopNode _ Nodes => children Nodes LoopNode_header
  | LoopOpenNode _ | LoopCloseNode _ => Panicked TypeAssertion
  end.

Fixpoint Encode_loop (l : list Node) (code : string) : Outcome string :=
  match l with
  | [] => Returned code
  | node :: l' =>
      if Encodable node then
        match Code node with
        | Returned c => Encode_loop l' (code ++ (tab ++ c))%string
        | Failed e => Failed e
        | Panicked k => Panicked k
        end
      else Encode_loop l' code
  end.

Definition Encode (t : ParseList.t) : Outcome string :=
  Encode_loop (ParseList.Nodes t) "".

(** *** Notions used in the statements about the first variant *)

Definition is_open (n : Node) : bool :=
  match n with LoopOpenNode _ => true | _ => false end.

Definition is_close (n : Node) : bool :=
  match n with LoopCloseNode _ => true | _ => false end.

Definition is_loop (n : Node) : bool :=
  match n with LoopNode _ _ => true | _ => false end.

(** Some ['['] of the text has no [']'] after it. *)
Fixpoint unclosed (bs : list Z) : bool :=
  match bs with
  | [] => false
  | b :: bs' =>
      ((b =? rune "[") && negb (existsb (Z.eqb (rune "]")) bs'))
      || unclosed bs'
  end.

(** Some opener of the tokens has no closer after it. *)
Fixpoint unclosed_tokens (ts : list Node) : bool :=
  match ts with
  | [] => false
  | n :: ts' =>
      (is_open n && negb (existsb is_close ts')) || unclosed_tokens ts'
  end.

(** What [parseLoop] makes of the tokens before the first closer: every
    opener among them starts a loop that takes all the tokens up to that
    same closer. *)
Fixpoint nest_right (a : list Node) : list Node :=
  match a with
  | [] => []
  | LoopOpenNode _ :: a' => [loopNode_of (nest_right a')]
  | n :: a' => n :: nest_right a'
  end.

(** The nodes of a tree that are no loops, from left to right. *)
Fixpoint leaves (n : Node) : list Node :=
  match n with
  | LoopNode _ Nodes => flat_map leaves Nodes
  | _ => [n]
  end.

(** In the tree [n] a loop holds another loop only as its last child. *)
Fixpoint right_nested (n : Node) : bool :=
  match n with
  | LoopNode _ Nodes =>
      (fix children (l : list Node) : bool :=
         match l with
         | [] => true
         | x :: l' =>
             match l' with
             | [] => right_nested x
             | _ :: _ => negb (is_loop x) && children l'
             end
         end) Nodes
  | _ => true
  end.

(** No marker is left in the tree [n]. *)
Fixpoint deep_encodable (n : Node) : bool :=
  match n with
  | LoopNode _ Nodes => forallb deep_encodable Nodes
  | _ => Encodable n
  end.

(** The nodes the lexer creates. *)
Definition is_token (n : Node) : bool := negb (is_loop n).

(** What [ParseTokens] makes of a token list: a closer is passed over,
    an opener takes the tokens up to the next closer into a loop, built
    by [nest_right], and any other token is kept. *)
Inductive parsed : list Node -> list Node -> Prop :=
| parsed_nil : parsed [] []
| parsed_close c ts q :
    is_close c = true -> parsed ts q -> parsed (c :: ts) q
| parsed_open o a c r q :
    is_open o = true ->
    forallb (fun n => negb (is_close n)) a = true ->
    is_close c = true ->
    parsed r q ->
    parsed (o :: a ++ c :: r) (loopNode_of (nest_right a) :: q)
| parsed_keep n ts q :
    is_open n = false -> is_close n = false ->
    parsed ts q -> parsed (n :: ts) (n :: q).

(** The loop of [LoopNode.Code] over the children, on its own. *)
Fixpoint Code_children (l : list Node) (code : string) : Outcome string :=
  match l with
  | [] => Returned (code ++ LoopNode_footer)%string
  | node :: l' =>
      if Encodable node then
        match Code node with
        | Returned c =>
            Code_children l' (code ++ (cat [tab; tab; tab] ++ c))%string
        | Failed e => Failed e
        | Panicked k => Panicked k
        end
      else Panicked TypeAssertion
  end.

End V1.

(** ** The variant of [unnamed/part_000]

    This version of the package stands between the two of
    [parser/parser.go]: its nodes, its token list and its parse list are
    those of the first variant, its lexer sets [end] to the offset after
    the character, and its [ParseTokens] has the nesting argument and
    the error type of the extended variant, without the functions and
    without the flags of the preamble. *)

Module Part000.

Definition Tokenize_body (tl : V1.TokenList.t) (ic : Z * Z) : V1.TokenList.t :=
  let '(i, c) := ic in
  let e := int_add i (len_string c) in
  let b := {| start := i; end_ := e |} in
  if c =? rune "+" then
    V1.TokenList.Append tl (V1.IncNode b {| count := 1 |})
  else if c =? rune "-" then
    V1.TokenList.Append tl (V1.DecNode b {| count := 1 |})
  else if c =? rune "<" then
    V1.TokenList.Append tl (V1.PrevNode b {| count := 1 |})
  else if c =? rune ">" then
    V1.TokenList.Append tl (V1.NextNode b {| count := 1 |})
  else if c =? rune "[" then V1.TokenList.Append tl (V1.LoopOpenNode b)
  else if c =? rune "]" then V1.TokenList.Append tl (V1.LoopCloseNode b)
  else if c =? rune "." then V1.TokenList.Append tl (V1.OutputNode b)
  else if c =? rune "," then V1.TokenList.Append tl (V1.InputNode b)
  else tl.

Definition Tokenize (s : string) : V1.TokenList.t :=
  let tl :=
    V1.TokenList.Append V1.TokenList.empty
      (V1.PreambleNode {| start := 0; end_ := 0 |}) in
  let tl := fold_left Tokenize_body (range_string s) tl in
  V1.TokenList.Append tl (V1.PostambleNode {| start := 0; end_ := 0 |}).

Record ParseError : Type := { FaultyNode : V1.Node; Message : string }.

Definition Error (p : ParseError) : string := Message p.

Definition parseError (n : V1.Node) (msg : string) : ParseError :=
  {| FaultyNode := n;
     Message := ("Error: " ++ msg ++ ", Position: " ++ fmt_d (V1.Pos n)
                   ++ " - " ++ fmt_d (V1.End_ n) ++ nl)%string |}.

Inductive Outcome (A : Type) : Type :=
| Returned (a : A)
| Failed (e : ParseError)
| Panicked (k : PanicKind).

Arguments Returned {A} a.
Arguments Failed {A} e.
Arguments Panicked {A} k.

Definition index (l : list V1.Node) (k : Z) : Outcome V1.Node :=
  if k <? 0 then Panicked IndexOutOfRange
  else match nth_error l (Z.to_nat k) with
       | Some n => Returned n
       | None => Panicked IndexOutOfRange
       end.

(** The span [BaseNode{ p2.Nodes[0].Pos(), p2.Nodes[len(p2.Nodes)-1].End() }]
    of the loop built from the list [p2]. *)
Definition span_of (p2 : V1.ParseList.t) : Outcome BaseNode :=
  match index (V1.ParseList.Nodes p2) 0 with
  | Returned first =>
      match index (V1.ParseList.Nodes p2)
                  (int_add (V1.len (V1.ParseList.Nodes p2)) (-1)) with
      | Returned final =>
          Returned {| start := V1.Pos first; end_ := V1.End_ final |}
      | Failed e => Failed e
      | Panicked k => Panicked k
      end
  | Failed e => Failed e
  | Panicked k => Panicked k
  end.

(** The loop of [ParseTokens], at index [i] with [ts = t.Nodes[i:]] still
    to scan and [p] built so far; the recursive call on
    [t.Nodes[i+1:]] is the loop started on those tokens at index 0, and
    after it returned [skip] the loop goes on at [i + skip + 1]. *)
Equations? ParseTokens_loop (ts : list V1.Node) (nesting : Z) (i : Z)
    (p : V1.ParseList.t) : Outcome (V1.ParseList.t * Z)
    by wf (List.length ts) lt :=
  ParseTokens_loop [] nesting i p := Returned (p, 0);
  ParseTokens_loop (unknownNode :: rest) nesting i p :=
    match unknownNode with
    | V1.LoopOpenNode _ =>
        match ParseTokens_loop rest (int_add nesting 1) 0
                V1.ParseList.empty with
        | Returned (p2, skip) =>
            match span_of p2 with
            | Returned b =>
                ParseTokens_loop (skipn (Z.to_nat skip) rest) nesting
                  (int_add (int_add i skip) 1)
                  (V1.ParseList.Append p
                     (V1.LoopNode b (V1.ParseList.Nodes p2)))
            | Failed e => Failed e
            | Panicked k => Panicked k
            end
        | Failed err => Failed err
        | Panicked k => Panicked k
        end
    | V1.LoopCloseNode _ =>
        if nesting =? 0 then
          Failed (parseError unknownNode "Loop closed while not open")
        else Returned (p, int_add i 1)
    | _ =>
        ParseTokens_loop rest nesting (int_add i 1)
          (V1.ParseList.Append p unknownNode)
    end.
Proof.
  all: try (simpl; lia).
  all: rewrite length_skipn; simpl; lia.
Qed.

Definition ParseTokens (t : V1.TokenList.t) (nesting : Z)
  : Outcome (V1.ParseList.t * Z) :=
  ParseTokens_loop (V1.TokenList.Nodes t) nesting 0 V1.ParseList.empty.

Definition Parse (s : string) : Outcome V1.ParseList.t :=
  match ParseTokens (Tokenize s) 0 with
  | Returned (p, _) => Returned p
  | Failed err => Failed err
  | Panicked k => Panicked k
  end.

(** The preamble of this variant imports the three packages always. *)
Definition PreambleNode_Code : string :=
  cat [nl;
       "package main"; nl; nl;
       "import "; dq; "fmt"; dq; nl;
       "import "; dq; "os"; dq; nl;
       "import "; dq; "io"; dq; nl; nl;
       "const REGISTERS = 100"; nl; nl;
       "func main() {"; nl;
       tab; "registers := make([]byte, REGISTERS)"; nl;
       tab; "currentIndex := 0"; nl; nl;
       tab; "// Program begin"; nl].

Fixpoint Code (n : V1.Node) : Outcome string :=
  let children :=
    fix children (l : list V1.Node) (code : string) : Outcome string :=
      match l with
      | [] => Returned (code ++ LoopNode_footer)%string
      | node :: l' =>
          if V1.Encodable node then
            match Code node with
            | Returned c =>
                children l' (code ++ (cat [tab; tab; tab] ++ c))%string
            | Failed e => Failed e
            | Panicked k => Panicked k
            end
          else Panicked TypeAssertion
      end in
  match n with
  | V1.PreambleNode _ => Returned PreambleNode_Code
  | V1.PostambleNode _ => Returned PostambleNode_Code
  | V1.IncNode _ c => Returned (IncNode_Code (count c))
  | V1.DecNode _ c => Returned (DecNode_Code (count c))
  | V1.PrevNode _ c => Returned (PrevNode_Code (count c))
  | V1.NextNode _ c => Returned (NextNode_Code (count c))
  | V1.OutputNode _ => Returned OutputNode_Code
  | V1.InputNode _ => Returned InputNode_Code
  | V1.LoopNode _ Nodes => children Nodes LoopNode_header
  | V1.LoopOpenNode _ | V1.LoopCloseNode _ => Panicked TypeAssertion
  end.

Fixpoint Encode_loop (l : list V1.Node) (code : string) : Outcome string :=
  match l with
  | [] => Returned code
  | node :: l' =>
      if V1.Encodable node then
        match Code node with
        | Returned c => Encode_loop l' (code ++ (tab ++ c))%string
        | Failed e => Failed e
        | Panicked k => Panicked k
        end
      else Encode_loop l' code
  end.

Definition Encode (t : V1.ParseList.t) : Outcome string :=
  Encode_loop (V1.ParseList.Nodes t) "".

(** *** Notions used in the statements about this variant *)

(** The loop of [LoopNode.Code] over the children, on its own. *)
Fixpoint Code_children (l : list V1.Node) (code : string) : Outcome string :=
  match l with
  | [] => Returned (code ++ LoopNode_footer)%string
  | node :: l' =>
      if V1.Encodable node then
        match Code node with
        | Returned c =>
            Code_children l' (code ++ (cat [tab; tab; tab] ++ c))%string
        | Failed e => Failed e
        | Panicked k => Panicked k
        end
      else Panicked TypeAssertion
  end.

(** The nodes that well-bracketed tokens stand for: a token that is no
    marker stands for itself, also an input or an output inside a loop,
    and an opener with its closer for a loop of the nodes between them,
    whose span runs from the first of them to the last. *)
Inductive nest : list V1.Node -> list V1.Node -> Prop :=
| nest_nil : nest [] []
| nest_leaf x ts ns :
    V1.is_open x = false -> V1.is_close x = false ->
    nest ts ns -> nest (x :: ts) (x :: ns)
| nest_loop bo bc body ch b ts ns :
    nest body ch -> span_of {| V1.ParseList.Nodes := ch |} = Returned b ->
    nest ts ns ->
    nest (V1.LoopOpenNode bo :: body ++ V1.LoopCloseNode bc :: ts)
         (V1.LoopNode b ch :: ns).

(** An opener of the list has a closer right after it, or is its last
    node. *)
Fixpoint empty_body (ts : list V1.Node) : bool :=
  match ts with
  | [] => false
  | x :: ts' =>
      (V1.is_open x &&
       match ts' with
       | [] => true
       | y :: _ => V1.is_close y
       end)
      || empty_body ts'
  end.

End Part000.

(** The node the lexer creates for a recognized character that is none
    of the four countable operations. *)
Definition marker_node (c : Z) (b : BaseNode) : Node :=
  if c =? rune "[" then LoopOpenNode b
  else if c =? rune "]" then LoopCloseNode b
  else if c =? rune "{" then FuncOpenNode b
  else if c =? rune "}" then FuncCloseNode b
  else if c =? rune "!" then FuncExecNode b
  else if c =? rune "." then OutputNode b
  else InputNode b.

(** [N] nodes of the character [c], one for each of the offsets
    [i], [i + 1], ... *)
Fixpoint marker_run (c i : Z) (N : nat) : list Node :=
  match N with
  | O => []
  | S N' =>
      marker_node c {| start := i; end_ := i + 1 |} :: marker_run c (i + 1) N'
  end.

(** ** Properties of the lexer *)

(** Case analysis on every test of a chain of [if]s. *)
Ltac case_ifs :=
  repeat match goal with
  | |- context [if ?c then _ else _] => destruct c
  end.

Ltac case_ifs_eqn :=
  repeat match goal with
  | |- context [if ?c then _ else _] => destruct c eqn:?
  end.

Lemma recognized_lt c : recognized c = true -> 0 < c < 0x80.
Proof.
  unfold recognized. cbn [map existsb].
  rewrite !orb_true_iff, !Z.eqb_eq.
  intros H. repeat (destruct H as [H | H]; [subst c; cbv; split; reflexivity |]).
  discriminate.
Qed.

Lemma Tokenize_body_unrecognized tl i c :
  recognized c = false -> Tokenize_body tl (i, c) = tl.
Proof.
  unfold recognized. cbn [map existsb].
  rewrite !orb_false_iff. intros H.
  unfold Tokenize_body.
  repeat match goal with
  | H : _ /\ _ |- _ => let E := fresh in destruct H as [E H]; rewrite E
  end.
  reflexivity.
Qed.

Lemma high_not_recognized c : 0x7F < c -> recognized c = false.
Proof.
  intros H. destruct (recognized c) eqn:E; [| reflexivity].
  apply recognized_lt in E. lia.
Qed.

Lemma is_cont_not_recognized b : is_cont b = true -> recognized b = false.
Proof.
  unfold is_cont. rewrite andb_true_iff, !Z.leb_le.
  intros [H _]. apply high_not_recognized. lia.
Qed.

Lemma decoderune_spec b0 rest r size :
  decoderune b0 rest = (r, size) ->
  0x7F < r /\ Forall (fun b => is_cont b = true) (firstn (Nat.pred size) rest).
Proof.
  assert (E : 0x7F < RuneError) by reflexivity.
  unfold decoderune.
  repeat match goal with
  | |- context [if ?c then _ else _] => destruct c eqn:?
  | |- context [match ?l with [] => _ | _ :: _ => _ end] => destruct l
  end; intros [= <- <-]; cbn [Nat.pred firstn];
  repeat match goal with
  | H : _ && _ = true |- _ => apply andb_true_iff in H; destruct H
  | H : (_ <? _) = true |- _ => apply Z.ltb_lt in H
  end;
  (split; [first [exact E | lia] | repeat (constructor; try assumption)]).
Qed.

Lemma scan_bytes_range bs : forall i skip tl,
  Forall (fun b => is_cont b = true) (firstn skip bs) ->
  fold_left Tokenize_body (range_from bs i skip) tl = scan_bytes bs i tl.
Proof.
  unfold scan_bytes.
  induction bs as [| b0 rest IH]; intros i skip tl Hs; [reflexivity |].
  cbn [range_from indexed]. destruct skip as [| k].
  - destruct (b0 <? 0x80) eqn:Hb.
    + cbn [fold_left]. apply IH. constructor.
    + destruct (decoderune b0 rest) as [r size] eqn:Hd.
      apply decoderune_spec in Hd. destruct Hd as [Hr Hc].
      cbn [fold_left].
      rewrite !Tokenize_body_unrecognized; [apply IH; exact Hc | |].
      * apply high_not_recognized. apply Z.ltb_ge in Hb. lia.
      * apply high_not_recognized. exact Hr.
  - cbn [firstn] in Hs. inversion Hs; subst.
    cbn [fold_left].
    rewrite Tokenize_body_unrecognized by (apply is_cont_not_recognized; assumption).
    apply IH. assumption.
Qed.

Lemma Tokenize_body_char_node tl i c :
  Tokenize_body tl (i, c) =
  match char_node c i with
  | Some n => TokenList.Append tl n
  | None => tl
  end.
Proof.
  unfold Tokenize_body, char_node.
  case_ifs; reflexivity.
Qed.

Lemma char_node_recognized c i :
  recognized c = false <-> char_node c i = None.
Proof.
  unfold recognized, char_node. cbn [map existsb].
  rewrite !orb_false_iff.
  case_ifs; intuition discriminate.
Qed.

Lemma char_node_type c i j n m :
  char_node c i = Some n -> char_node c j = Some m -> type_of n = type_of m.
Proof.
  unfold char_node.
  case_ifs; intros [= <-] [= <-]; reflexivity.
Qed.

Lemma NodeType_eqb_eq a b : NodeType_eqb a b = true <-> a = b.
Proof. destruct a, b; cbn; intuition discriminate. Qed.

Lemma NodeType_eqb_refl a : NodeType_eqb a a = true.
Proof. apply NodeType_eqb_eq. reflexivity. Qed.

Lemma type_of_Add n : type_of (Add n) = type_of n.
Proof. destruct n; reflexivity. Qed.

Lemma update_at_app init l k f :
  update_at (init ++ l) (List.length init + k) f = init ++ update_at l k f.
Proof.
  induction init as [| a init IH]; [reflexivity |].
  cbn [app List.length Nat.add update_at]. now rewrite IH.
Qed.

Lemma deref_shift init tl :
  TokenList.deref (shift init tl) = TokenList.deref tl.
Proof.
  unfold TokenList.deref, shift. cbn.
  destruct (TokenList.lastNode tl) as [k |]; [| reflexivity].
  cbn. rewrite nth_error_app2 by lia. f_equal. lia.
Qed.

Lemma Append_shift init tl n :
  TokenList.Append (shift init tl) n = shift init (TokenList.Append tl n).
Proof.
  unfold TokenList.Append. rewrite deref_shift.
  destruct (Summarizable n && _).
  - unfold shift. cbn. destruct (TokenList.lastNode tl) as [k |] eqn:E; cbn.
    + now rewrite update_at_app.
    + now rewrite ?E.
  - unfold shift. cbn. rewrite app_assoc, !length_app.
    reflexivity.
Qed.

Lemma Tokenize_body_shift init tl ic :
  Tokenize_body (shift init tl) ic = shift init (Tokenize_body tl ic).
Proof.
  destruct ic as [i c]. rewrite !Tokenize_body_char_node.
  destruct (char_node c i); [apply Append_shift | reflexivity].
Qed.

Lemma scan_bytes_shift init bs : forall i tl,
  scan_bytes bs i (shift init tl) = shift init (scan_bytes bs i tl).
Proof.
  unfold scan_bytes.
  induction bs as [| b bs IH]; intros i tl; [reflexivity |].
  cbn [indexed fold_left]. rewrite Tokenize_body_shift. apply IH.
Qed.

Lemma scan_bytes_cons b bs i tl :
  scan_bytes (b :: bs) i tl = scan_bytes bs (i + 1) (Tokenize_body tl (i, b)).
Proof. reflexivity. Qed.

Lemma scan_bytes_one b i tl :
  scan_bytes [b] i tl = Tokenize_body tl (i, b).
Proof. reflexivity. Qed.

Lemma scan_bytes_app a : forall b i tl,
  scan_bytes (a ++ b) i tl =
  scan_bytes b (i + Z.of_nat (List.length a)) (scan_bytes a i tl).
Proof.
  induction a as [| x a IH]; intros b i tl.
  - cbn. now rewrite Z.add_0_r.
  - cbn [app]. rewrite !scan_bytes_cons, IH. f_equal.
    cbn [List.length]. lia.
Qed.

Lemma bytes_of_string_app a b :
  bytes_of_string (a ++ b)%string = bytes_of_string a ++ bytes_of_string b.
Proof.
  unfold bytes_of_string.
  induction a as [| x a IH]; [reflexivity |].
  cbn. now rewrite IH.
Qed.

Lemma bytes_of_string_length s :
  List.length (bytes_of_string s) = String.length s.
Proof.
  unfold bytes_of_string. rewrite length_map.
  induction s as [| x s IH]; [reflexivity |]. cbn. now rewrite IH.
Qed.

Lemma Tokenize_scan s :
  Tokenize s =
  TokenList.Append (scan_bytes (bytes_of_string s) 0 (single Preamble0))
    Postamble0.
Proof.
  unfold Tokenize, range_string.
  rewrite scan_bytes_range by constructor. reflexivity.
Qed.

Lemma shift_nil tl : shift [] tl = tl.
Proof.
  destruct tl as [ns [k |]]; reflexivity.
Qed.

Lemma shift_shift a b tl : shift a (shift b tl) = shift (a ++ b) tl.
Proof.
  destruct tl as [ns [k |]]; unfold shift; cbn;
    rewrite app_assoc, ?length_app; [| reflexivity].
  do 2 f_equal. lia.
Qed.

Lemma Append_empty n : TokenList.Append TokenList.empty n = single n.
Proof.
  unfold TokenList.Append. cbn. now rewrite andb_false_r.
Qed.

Lemma Append_single x n :
  TokenList.Append (single x) n =
  if merges x n then single (Add x) else shift [x] (single n).
Proof. reflexivity. Qed.

Lemma Append_state init x n :
  TokenList.Append (shift init (single x)) n =
  if merges x n then shift init (single (Add x))
  else shift (init ++ [x]) (single n).
Proof.
  rewrite Append_shift, Append_single.
  destruct (merges x n); [reflexivity | apply shift_shift].
Qed.

Lemma Append_shaped tl n :
  shaped tl ->
  exists init x,
    TokenList.Append tl n = shift init (single x) /\ type_of x = type_of n.
Proof.
  intros [-> | (init & x & ->)].
  - exists [], n. now rewrite Append_empty, shift_nil.
  - rewrite Append_state. destruct (merges x n) eqn:E.
    + exists init, (Add x). split; [reflexivity |].
      unfold merges in E. apply andb_true_iff in E. destruct E as [_ E].
      apply NodeType_eqb_eq in E. now rewrite type_of_Add.
    + now exists (init ++ [x]), n.
Qed.

Lemma scan_bytes_unrecognized bs : forall i tl,
  unrecognized bs = true -> scan_bytes bs i tl = tl.
Proof.
  unfold unrecognized.
  induction bs as [| b bs IH]; intros i tl H; [reflexivity |].
  cbn [forallb] in H. apply andb_true_iff in H. destruct H as [Hb H].
  rewrite scan_bytes_cons, Tokenize_body_unrecognized.
  - now apply IH.
  - now destruct (recognized b).
Qed.

Lemma scan_bytes_state bs : forall i tl,
  shaped tl ->
  match last_recognized bs with
  | None => scan_bytes bs i tl = tl
  | Some c =>
      exists init x,
        scan_bytes bs i tl = shift init (single x) /\
        Some (type_of x) = char_type c
  end.
Proof.
  induction bs as [| b bs IH]; intros i tl Hs; [reflexivity |].
  rewrite scan_bytes_cons. cbn [last_recognized].
  destruct (recognized b) eqn:Hb.
  - destruct (char_node b i) as [n |] eqn:Hn;
      [| apply char_node_recognized in Hn; congruence].
    rewrite Tokenize_body_char_node, Hn.
    destruct (Append_shaped tl n Hs) as (init & x & E & Ht).
    assert (Hs' : shaped (TokenList.Append tl n)) by (right; eauto).
    specialize (IH (i + 1) _ Hs').
    destruct (last_recognized bs) as [c |]; [exact IH |].
    exists init, x. split; [congruence |].
    unfold char_type. destruct (char_node b 0) as [m |] eqn:Hm;
      [| apply char_node_recognized in Hm; congruence].
    cbn. rewrite Ht. f_equal. eapply char_node_type; eassumption.
  - rewrite Tokenize_body_unrecognized by assumption.
    specialize (IH (i + 1) tl Hs).
    destruct (last_recognized bs); exact IH.
Qed.

Lemma scan_bytes_single_nomerge bs : forall i x,
  (forall c j n, first_recognized bs = Some c -> char_node c j = Some n ->
                 merges x n = false) ->
  TokenList.Nodes (scan_bytes bs i (single x)) =
  x :: TokenList.Nodes (scan_bytes bs i TokenList.empty).
Proof.
  induction bs as [| b bs IH]; intros i x H; [reflexivity |].
  rewrite !scan_bytes_cons, !Tokenize_body_char_node.
  cbn [first_recognized] in H.
  destruct (char_node b i) as [n |] eqn:Hn.
  - assert (Hb : recognized b = true).
    { destruct (recognized b) eqn:E; [reflexivity |].
      apply (char_node_recognized b i) in E. congruence. }
    rewrite Hb in H. rewrite Append_single, (H b i n eq_refl Hn).
    rewrite Append_empty, scan_bytes_shift. reflexivity.
  - apply char_node_recognized in Hn. rewrite Hn in H.
    apply IH. exact H.
Qed.

Lemma char_node_summarizable c j n :
  char_node c j = Some n -> Summarizable n = countable_char c.
Proof.
  unfold char_node, countable_char. cbn [map existsb].
  case_ifs_eqn; intros [= <-]; reflexivity.
Qed.

Lemma char_type_inj c c' t :
  char_type c = Some t -> char_type c' = Some t -> c = c'.
Proof.
  unfold char_type, char_node.
  case_ifs_eqn; cbn; intros H1 H2; try discriminate;
  repeat match goal with
  | H : (_ =? _) = true |- _ => apply Z.eqb_eq in H
  end; congruence.
Qed.

Lemma char_node_char_type c j n :
  char_node c j = Some n -> char_type c = Some (type_of n).
Proof.
  intros H. unfold char_type.
  destruct (char_node c 0) as [m |] eqn:Hm.
  - cbn. f_equal. eapply char_node_type; eassumption.
  - apply char_node_recognized in Hm.
    apply (char_node_recognized c j) in Hm. congruence.
Qed.

Lemma nomerge_of_apart x ca b :
  Some (type_of x) = char_type ca ->
  (forall c, first_recognized b = Some c -> ca = c -> countable_char c = false) ->
  forall c j n, first_recognized b = Some c -> char_node c j = Some n ->
                merges x n = false.
Proof.
  intros Hx H c j n Hc Hn. unfold merges.
  destruct (Summarizable n) eqn:Hs; [| reflexivity].
  destruct (NodeType_eqb (type_of x) (type_of n)) eqn:Ht; [| reflexivity].
  apply NodeType_eqb_eq in Ht.
  rewrite (char_node_summarizable _ _ _ Hn) in Hs.
  apply char_node_char_type in Hn.
  assert (ca = c) by (eapply char_type_inj; [symmetry; eassumption | congruence]).
  rewrite (H c Hc) in Hs; [discriminate | assumption].
Qed.

Lemma tokens_split a b i :
  apart a b ->
  TokenList.Nodes (scan_bytes (a ++ b) i TokenList.empty) =
  TokenList.Nodes (scan_bytes a i TokenList.empty) ++
  TokenList.Nodes (scan_bytes b (i + Z.of_nat (List.length a)) TokenList.empty).
Proof.
  intros H. rewrite scan_bytes_app.
  pose proof (scan_bytes_state a i TokenList.empty (or_introl eq_refl)) as Hs.
  destruct (last_recognized a) as [ca |] eqn:Hl.
  - destruct Hs as (init & x & -> & Hx).
    rewrite scan_bytes_shift. cbn [shift TokenList.Nodes single].
    rewrite scan_bytes_single_nomerge; [now rewrite <- app_assoc |].
    apply (nomerge_of_apart x ca b Hx).
    intros c Hc <-. now apply H.
  - rewrite Hs. reflexivity.
Qed.

Lemma Append_not_summarizable tl n :
  Summarizable n = false ->
  TokenList.Nodes (TokenList.Append tl n) = TokenList.Nodes tl ++ [n].
Proof.
  intros H. unfold TokenList.Append. now rewrite H.
Qed.

Lemma merges_Preamble0 n : merges Preamble0 n = false.
Proof. destruct n; reflexivity. Qed.

Lemma scan_bytes_Preamble bs i :
  TokenList.Nodes (scan_bytes bs i (single Preamble0)) =
  Preamble0 :: TokenList.Nodes (scan_bytes bs i TokenList.empty).
Proof.
  apply scan_bytes_single_nomerge. intros. apply merges_Preamble0.
Qed.

Lemma Tokenize_Nodes s :
  TokenList.Nodes (Tokenize s) = Preamble0 :: tokens_from 0 s ++ [Postamble0].
Proof.
  rewrite Tokenize_scan, Append_not_summarizable by reflexivity.
  rewrite scan_bytes_Preamble. reflexivity.
Qed.

Lemma int_add_exact a b :
  - 2 ^ 63 <= a + b < 2 ^ 63 -> int_add a b = a + b.
Proof.
  intros H. unfold int_add, int_wrap.
  rewrite Z.mod_small; lia.
Qed.

Lemma char_node_countable c j :
  countable_char c = true ->
  char_node c j =
  Some (op_node c {| start := j; end_ := int_add j 1 |} 1).
Proof.
  unfold countable_char, char_node, op_node. cbn [map existsb].
  rewrite !orb_true_iff, !Z.eqb_eq.
  intros H. repeat (destruct H as [H | H]; [subst c; reflexivity |]).
  discriminate.
Qed.

Lemma Add_op_node c b k :
  Add (op_node c b k) = op_node c b (int_add k 1).
Proof.
  unfold op_node.
  case_ifs; reflexivity.
Qed.

Lemma merges_op_node c b k b' k' :
  merges (op_node c b k) (op_node c b' k') = true.
Proof.
  unfold op_node.
  case_ifs; reflexivity.
Qed.

Lemma scan_bytes_run c b M : forall j k,
  countable_char c = true ->
  0 <= k -> k + Z.of_nat M <= MaxInt ->
  scan_bytes (repeat c M) j (single (op_node c b k)) =
  single (op_node c b (k + Z.of_nat M)).
Proof.
  unfold MaxInt.
  induction M as [| M IH]; intros j k Hc Hk Hb.
  - cbn. now rewrite Z.add_0_r.
  - cbn [repeat]. rewrite scan_bytes_cons, Tokenize_body_char_node.
    rewrite char_node_countable by assumption.
    rewrite Append_single, merges_op_node, Add_op_node.
    rewrite int_add_exact by lia.
    rewrite IH by (try assumption; lia).
    do 2 f_equal. lia.
Qed.

Lemma tokens_run c N i :
  countable_char c = true -> (0 < N)%nat -> Z.of_nat N <= MaxInt ->
  scan_bytes (repeat c N) i TokenList.empty =
  single (op_node c {| start := i; end_ := int_add i 1 |} (Z.of_nat N)).
Proof.
  intros Hc HN Hb. destruct N as [| M]; [lia |].
  cbn [repeat]. rewrite scan_bytes_cons, Tokenize_body_char_node.
  rewrite char_node_countable, Append_empty by assumption.
  rewrite scan_bytes_run by (try assumption; lia).
  do 2 f_equal. lia.
Qed.

Lemma countable_recognized c : countable_char c = true -> recognized c = true.
Proof.
  unfold countable_char, recognized. cbn [map existsb].
  rewrite !orb_true_iff. intuition auto.
Qed.

Lemma first_recognized_repeat c N b :
  recognized c = true -> (0 < N)%nat ->
  first_recognized (repeat c N ++ b) = Some c.
Proof.
  intros Hc HN. destruct N; [lia |].
  cbn [repeat app first_recognized]. now rewrite Hc.
Qed.

Lemma last_recognized_repeat c N :
  recognized c = true -> (0 < N)%nat -> last_recognized (repeat c N) = Some c.
Proof.
  intros Hc HN. induction N as [| N IH]; [lia |].
  cbn [repeat last_recognized]. destruct N.
  - cbn [repeat last_recognized]. now rewrite Hc.
  - rewrite IH by lia. reflexivity.
Qed.

Lemma bytes_of_string_repeat c N :
  bytes_of_string (repeat_char c N) = repeat (rune c) N.
Proof.
  induction N as [| N IH]; [reflexivity |].
  cbn [repeat_char repeat]. unfold bytes_of_string in *. cbn. now rewrite IH.
Qed.

Lemma string_length_app a b :
  String.length (a ++ b)%string = (String.length a + String.length b)%nat.
Proof.
  induction a as [| x a IH]; [reflexivity |]. cbn. now rewrite IH.
Qed.

Lemma repeat_char_length c N : String.length (repeat_char c N) = N.
Proof.
  induction N as [| N IH]; [reflexivity |]. cbn. now rewrite IH.
Qed.

(** A run of [N] times the countable character [c], between texts that
    do not bring another [c] next to it, gives one node with count [N],
    at the offset of the first character of the run. *)
Lemma Tokenize_run (a b : string) (c : ascii) (N : nat) :
  countable_char (rune c) = true -> (0 < N)%nat ->
  Z.of_nat (String.length (a ++ repeat_char c N ++ b)) <= MaxInt ->
  last_recognized (bytes_of_string a) <> Some (rune c) ->
  first_recognized (bytes_of_string b) <> Some (rune c) ->
  TokenList.Nodes (Tokenize (a ++ repeat_char c N ++ b)) =
  Preamble0 :: tokens_from 0 a ++
  op_node (rune c)
    {| start := Z.of_nat (String.length a);
       end_ := Z.of_nat (String.length a) + 1 |} (Z.of_nat N)
  :: tokens_from (Z.of_nat (String.length a) + Z.of_nat N) b ++ [Postamble0].
Proof.
  intros Hc HN Hlen Ha Hb.
  rewrite !string_length_app, repeat_char_length in Hlen. unfold MaxInt in *.
  pose proof (countable_recognized _ Hc) as Hr.
  rewrite Tokenize_Nodes. unfold tokens_from.
  rewrite !bytes_of_string_app, bytes_of_string_repeat.
  rewrite tokens_split.
  2:{ intros c0 H0 H1. rewrite first_recognized_repeat in H1 by assumption.
      congruence. }
  rewrite tokens_split.
  2:{ intros c0 H0 H1. rewrite last_recognized_repeat in H0 by assumption.
      congruence. }
  rewrite tokens_run by (try assumption; unfold MaxInt; lia).
  rewrite bytes_of_string_length, repeat_length, !Z.add_0_l.
  rewrite int_add_exact by lia.
  cbn [single TokenList.Nodes app]. f_equal.
  rewrite <- app_assoc. reflexivity.
Qed.

Lemma char_node_marker c i :
  recognized c = true -> countable_char c = false ->
  0 <= i -> i < MaxInt ->
  char_node c i = Some (marker_node c {| start := i; end_ := i + 1 |}).
Proof.
  unfold MaxInt. intros Hr Hc Hi Hm.
  unfold recognized in Hr. cbn [map existsb] in Hr.
  rewrite !orb_true_iff, !Z.eqb_eq in Hr.
  assert (E : int_add i 1 = i + 1) by (apply int_add_exact; lia).
  repeat (destruct Hr as [Hr | Hr];
          [subst c; first [discriminate Hc
                          | unfold char_node, marker_node;
                            change (len_string _) with 1; rewrite E;
                            reflexivity] |]).
  discriminate Hr.
Qed.

(** The tokens of a text, lexed from the offset [i] on, in which a
    character that is not countable follows the text [s1]. *)
Lemma tokens_from_uncountable_at i s1 s2 c n :
  countable_char (rune c) = false ->
  char_node (rune c) (i + Z.of_nat (String.length s1)) = Some n ->
  tokens_from i (s1 ++ String c s2) =
  tokens_from i s1 ++ n :: tokens_from (i + Z.of_nat (String.length s1) + 1) s2.
Proof.
  intros Hc Hn. unfold tokens_from.
  assert (Hr : recognized (rune c) = true).
  { destruct (recognized (rune c)) eqn:E; [reflexivity |].
    eapply char_node_recognized in E. rewrite Hn in E. discriminate. }
  change (String c s2) with (String c "" ++ s2)%string.
  rewrite !bytes_of_string_app.
  change (bytes_of_string (String c "")) with [rune c].
  rewrite tokens_split.
  2:{ intros c0 _ H. cbn [app first_recognized] in H.
      rewrite Hr in H. congruence. }
  rewrite tokens_split.
  2:{ intros c0 H _. cbn [last_recognized] in H.
      rewrite Hr in H. congruence. }
  rewrite bytes_of_string_length.
  rewrite scan_bytes_one, Tokenize_body_char_node, Hn, Append_empty.
  reflexivity.
Qed.

(** A run of a character that is not countable gives a node for each
    of its characters. *)
Lemma tokens_marker_run c b N : forall i,
  recognized (rune c) = true -> countable_char (rune c) = false ->
  0 <= i -> i + Z.of_nat N < MaxInt ->
  tokens_from i (repeat_char c (S N) ++ b) =
  marker_run (rune c) i (S N) ++ tokens_from (i + Z.of_nat (S N)) b.
Proof.
  induction N as [| N IH]; intros i Hr Hc Hi Hm;
    assert (Hn : char_node (rune c) (i + Z.of_nat (String.length "")) =
                 Some (marker_node (rune c) {| start := i; end_ := i + 1 |}))
      by (cbn [String.length Z.of_nat]; rewrite Z.add_0_r;
          apply char_node_marker; try assumption; lia).
  - pose proof (tokens_from_uncountable_at i "" b c _ Hc Hn) as E.
    cbn [String.length Z.of_nat] in E. rewrite Z.add_0_r in E.
    exact E.
  - rewrite Nat2Z.inj_succ in Hm.
    pose proof (tokens_from_uncountable_at i ""
                  (repeat_char c (S N) ++ b) c _ Hc Hn) as E.
    cbn [String.length Z.of_nat] in E. rewrite Z.add_0_r in E.
    rewrite (IH (i + 1)) in E by (try assumption; lia).
    replace (i + 1 + Z.of_nat (S N)) with (i + Z.of_nat (S (S N))) in E
      by lia.
    exact E.
Qed.

(** A run of [N] times a recognized character that is not countable
    gives [N] nodes, whatever stands before and after it. *)
Lemma Tokenize_marker_run (a b : string) (c : ascii) (N : nat) :
  recognized (rune c) = true -> countable_char (rune c) = false ->
  (0 < N)%nat ->
  Z.of_nat (String.length (a ++ repeat_char c N ++ b)) <= MaxInt ->
  TokenList.Nodes (Tokenize (a ++ repeat_char c N ++ b)) =
  Preamble0 :: tokens_from 0 a ++
  marker_run (rune c) (Z.of_nat (String.length a)) N ++
  tokens_from (Z.of_nat (String.length a) + Z.of_nat N) b ++ [Postamble0].
Proof.
  intros Hr Hc HN Hlen.
  rewrite !string_length_app, repeat_char_length in Hlen.
  destruct N as [| N]; [lia |].
  rewrite Tokenize_Nodes. f_equal.
  change (repeat_char c (S N) ++ b)%string
    with (String c (repeat_char c N ++ b)).
  assert (Hn : char_node (rune c) (0 + Z.of_nat (String.length a)) =
               Some (marker_node (rune c)
                       {| start := Z.of_nat (String.length a);
                          end_ := Z.of_nat (String.length a) + 1 |})).
  { rewrite Z.add_0_l. apply char_node_marker; try assumption; lia. }
  rewrite (tokens_from_uncountable_at 0 a _ c _ Hc Hn).
  rewrite Z.add_0_l, <- !app_assoc. f_equal.
  cbn [marker_run app]. f_equal.
  destruct N as [| N].
  - cbn [repeat_char append marker_run app Z.of_nat]. reflexivity.
  - rewrite tokens_marker_run by (try assumption; lia).
    rewrite <- app_assoc.
    replace (Z.of_nat (String.length a) + 1 + Z.of_nat (S N))
      with (Z.of_nat (String.length a) + Z.of_nat (S (S N))) by lia.
    reflexivity.
Qed.

(** C3 (as amended).  A run of [N] identical characters among [+ - < >]
    whose nearest recognized characters on both sides differ from it
    gives exactly one countable node, with count [N]; ["+-+"] gives three
    nodes of count 1.  A character that is not countable never merges: in
    every text a run of [N] identical characters among
    [[ ] { } ! . ,] gives [N] nodes, one for each character, whatever
    stands before and after the run; so ["[[["] gives three
    [LoopOpenNode]s. *)
Theorem C3_run_length_merge :
  (forall (a b : string) (c : ascii) (N : nat),
      countable_char (rune c) = true -> (0 < N)%nat ->
      Z.of_nat (String.length (a ++ repeat_char c N ++ b)) <= MaxInt ->
      last_recognized (bytes_of_string a) <> Some (rune c) ->
      first_recognized (bytes_of_string b) <> Some (rune c) ->
      TokenList.Nodes (Tokenize (a ++ repeat_char c N ++ b)) =
      Preamble0 :: tokens_from 0 a ++
      op_node (rune c)
        {| start := Z.of_nat (String.length a);
           end_ := Z.of_nat (String.length a) + 1 |} (Z.of_nat N)
      :: tokens_from (Z.of_nat (String.length a) + Z.of_nat N) b
         ++ [Postamble0]) /\
  TokenList.Nodes (Tokenize "+-+") =
    [Preamble0;
     IncNode {| start := 0; end_ := 1 |} {| count := 1 |};
     DecNode {| start := 1; end_ := 2 |} {| count := 1 |};
     IncNode {| start := 2; end_ := 3 |} {| count := 1 |};
     Postamble0] /\
  (forall (a b : string) (c : ascii) (N : nat),
      recognized (rune c) = true -> countable_char (rune c) = false ->
      (0 < N)%nat ->
      Z.of_nat (String.length (a ++ repeat_char c N ++ b)) <= MaxInt ->
      TokenList.Nodes (Tokenize (a ++ repeat_char c N ++ b)) =
      Preamble0 :: tokens_from 0 a ++
      marker_run (rune c) (Z.of_nat (String.length a)) N ++
      tokens_from (Z.of_nat (String.length a) + Z.of_nat N) b
      ++ [Postamble0]) /\
  TokenList.Nodes (Tokenize "[[[") =
    [Preamble0;
     LoopOpenNode {| start := 0; end_ := 1 |};
     LoopOpenNode {| start := 1; end_ := 2 |};
     LoopOpenNode {| start := 2; end_ := 3 |};
     Postamble0].
Proof.
  split; [exact Tokenize_run |]. split; [reflexivity |].
  split; [exact Tokenize_marker_run | reflexivity].
Qed.

Lemma C3_run_length_merge_witness :
  TokenList.Nodes (Tokenize ("-[" ++ repeat_char "+" 3 ++ "x]")) =
  [Preamble0;
   DecNode {| start := 0; end_ := 1 |} {| count := 1 |};
   LoopOpenNode {| start := 1; end_ := 2 |};
   IncNode {| start := 2; end_ := 3 |} {| count := 3 |};
   LoopCloseNode {| start := 6; end_ := 7 |};
   Postamble0] /\
  TokenList.Nodes (Tokenize ("+]" ++ repeat_char "]" 2 ++ "x].")) =
  [Preamble0;
   IncNode {| start := 0; end_ := 1 |} {| count := 1 |};
   LoopCloseNode {| start := 1; end_ := 2 |};
   LoopCloseNode {| start := 2; end_ := 3 |};
   LoopCloseNode {| start := 3; end_ := 4 |};
   LoopCloseNode {| start := 5; end_ := 6 |};
   OutputNode {| start := 6; end_ := 7 |};
   Postamble0].
Proof.
  split.
  - apply (proj1 C3_run_length_merge "-[" "x]" "+"%char 3%nat).
    + reflexivity.
    + lia.
    + vm_compute. discriminate.
    + vm_compute. discriminate.
    + vm_compute. discriminate.
  - apply (proj1 (proj2 (proj2 C3_run_length_merge))
             "+]" "x]." "]"%char 2%nat).
    + reflexivity.
    + reflexivity.
    + lia.
    + vm_compute. discriminate.
Defined.

(** C3, as it is stated, fails on ["+a+"]: the first ["+"] is a maximal
    run of length 1 (nothing before it, ["a"] after it), and no node of
    the token list has count 1. *)
Lemma C3_counterexample :
  ~ (exists n,
        In n (TokenList.Nodes (Tokenize ("" ++ repeat_char "+" 1 ++ "a+"))) /\
        Count n = Some 1).
Proof.
  intros (n & Hin & Hc). vm_compute in Hin.
  repeat (destruct Hin as [<- | Hin]; [discriminate Hc |]).
  exact Hin.
Qed.

Lemma scan_bytes_shaped bs i tl : shaped tl -> shaped (scan_bytes bs i tl).
Proof.
  intros Hs. pose proof (scan_bytes_state bs i tl Hs) as H.
  destruct (last_recognized bs).
  - destruct H as (init & x & -> & _). right. eauto.
  - now rewrite H.
Qed.

Lemma shaped_single x : shaped (single x).
Proof. right. exists [], x. now rewrite shift_nil. Qed.

(** After a countable character, the same character is merged into the
    last node whatever unrecognized text lies between the two. *)
Lemma Tokenize_merge_across (a junk : string) (c : ascii) :
  countable_char (rune c) = true ->
  unrecognized (bytes_of_string junk) = true ->
  exists init x,
    TokenList.Nodes (Tokenize (a ++ String c "")) =
      init ++ [x; Postamble0] /\
    type_of x = type_of (op_node (rune c) {| start := 0; end_ := 0 |} 1) /\
    TokenList.Nodes (Tokenize (a ++ String c (junk ++ String c ""))) =
      init ++ [Add x; Postamble0].
Proof.
  intros Hc Hj.
  rewrite !Tokenize_scan, !Append_not_summarizable by reflexivity.
  change (String c (junk ++ String c ""))
    with (String c "" ++ (junk ++ String c ""))%string.
  rewrite !bytes_of_string_app.
  change (bytes_of_string (String c "")) with [rune c].
  rewrite !scan_bytes_app.
  set (tl := scan_bytes (bytes_of_string a) 0 (single Preamble0)).
  assert (Hs : shaped tl) by apply scan_bytes_shaped, shaped_single.
  set (j := 0 + Z.of_nat (List.length (bytes_of_string a))).
  rewrite !scan_bytes_one, !Tokenize_body_char_node.
  rewrite !char_node_countable by assumption.
  destruct (Append_shaped tl
              (op_node (rune c) {| start := j; end_ := int_add j 1 |} 1) Hs)
    as (init & x & -> & Hx).
  rewrite scan_bytes_unrecognized by assumption.
  rewrite Append_state.
  assert (Hm : forall b k, merges x (op_node (rune c) b k) = true).
  { intros b k. unfold merges.
    replace (type_of (op_node (rune c) b k)) with (type_of x).
    - rewrite NodeType_eqb_refl, andb_true_r.
      unfold op_node.
      case_ifs; reflexivity.
    - rewrite Hx. unfold op_node.
      case_ifs; reflexivity. }
  rewrite Hm. exists init, x.
  cbn [shift single TokenList.Nodes]. rewrite <- !app_assoc.
  repeat split; try reflexivity.
  rewrite Hx. unfold op_node.
  case_ifs; reflexivity.
Qed.

(** C10.  Unrecognized characters do not reset [lastNode]: a countable
    character that follows the same character, with only unrecognized
    characters between the two, is merged into the node of the first
    (its count is incremented, no node is appended); ["+a+"] gives one
    [IncNode] with count 2. *)
Theorem C10_merge_across_unrecognized :
  (forall (a junk : string) (c : ascii),
      countable_char (rune c) = true ->
      unrecognized (bytes_of_string junk) = true ->
      exists init x,
        TokenList.Nodes (Tokenize (a ++ String c "")) =
          init ++ [x; Postamble0] /\
        type_of x = type_of (op_node (rune c) {| start := 0; end_ := 0 |} 1) /\
        TokenList.Nodes (Tokenize (a ++ String c (junk ++ String c ""))) =
          init ++ [Add x; Postamble0]) /\
  TokenList.Nodes (Tokenize "+a+") =
    [Preamble0; IncNode {| start := 0; end_ := 1 |} {| count := 2 |};
     Postamble0].
Proof.
  split; [exact Tokenize_merge_across | reflexivity].
Qed.

Lemma C10_merge_across_unrecognized_witness :
  exists init x,
    TokenList.Nodes (Tokenize ("[" ++ String "-" "")) =
      init ++ [x; Postamble0] /\
    type_of x = TDec /\
    TokenList.Nodes (Tokenize ("[" ++ String "-" ("a b" ++ String "-" ""))) =
      init ++ [Add x; Postamble0].
Proof.
  apply (proj1 C10_merge_across_unrecognized "[" "a b" "-"%char);
    reflexivity.
Defined.

(** ** Properties of the parser *)

Lemma ParseTokens_loop_step x rest n i p :
  ParseTokens_loop (x :: rest) n i p =
  match classify x with
  | COpen mk =>
      match ParseTokens_loop rest (int_add n 1) 0 ParseList.empty with
      | Returned (p2, skip) =>
          match span_of p2 with
          | Returned b =>
              ParseTokens_loop (skipn (Z.to_nat skip) rest) n
                (int_add (int_add i skip) 1)
                (ParseList.Append p (mk b (ParseList.Nodes p2)))
          | Failed e => Failed e
          | Panicked k => Panicked k
          end
      | Failed err => Failed err
      | Panicked k => Panicked k
      end
  | CClose msg =>
      if n =? 0 then Failed (parseError x msg) else Returned (p, int_add i 1)
  | CInput =>
      match set_UseIO p with
      | Returned p' =>
          ParseTokens_loop rest n (int_add i 1) (ParseList.Append p' x)
      | Failed e => Failed e
      | Panicked k => Panicked k
      end
  | COutput =>
      match set_UseFmt p with
      | Returned p' =>
          ParseTokens_loop rest n (int_add i 1) (ParseList.Append p' x)
      | Failed e => Failed e
      | Panicked k => Panicked k
      end
  | CPlain => ParseTokens_loop rest n (int_add i 1) (ParseList.Append p x)
  end.
Proof.
  rewrite ParseTokens_loop_equation_2. destruct x; reflexivity.
Qed.

Lemma length_ind (P : list Node -> Prop) :
  (forall ts, (forall ts', (List.length ts' < List.length ts)%nat -> P ts') ->
              P ts) ->
  forall ts, P ts.
Proof.
  intros H ts. remember (List.length ts) as m eqn:E.
  revert ts E. induction m as [m IH] using lt_wf_ind.
  intros ts ->. apply H. intros ts' Hlt. now apply (IH _ Hlt).
Qed.

Lemma set_UseIO_head p p' :
  set_UseIO p = Returned p' -> head_preamble p = true /\ head_preamble p' = true.
Proof.
  unfold set_UseIO, index, head_preamble. cbn.
  destruct (ParseList.Nodes p) as [| [] l]; cbn; try discriminate.
  intros [= <-]. split; reflexivity.
Qed.

Lemma set_UseFmt_head p p' :
  set_UseFmt p = Returned p' -> head_preamble p = true /\ head_preamble p' = true.
Proof.
  unfold set_UseFmt, index, head_preamble. cbn.
  destruct (ParseList.Nodes p) as [| [] l]; cbn; try discriminate.
  intros [= <-]. split; reflexivity.
Qed.

Lemma set_UseIO_preamble b io fm p0 :
  set_UseIO {| ParseList.Nodes := PreambleNode b io fm :: p0 |} =
  Returned {| ParseList.Nodes := PreambleNode b true fm :: p0 |}.
Proof. reflexivity. Qed.

Lemma set_UseFmt_preamble b io fm p0 :
  set_UseFmt {| ParseList.Nodes := PreambleNode b io fm :: p0 |} =
  Returned {| ParseList.Nodes := PreambleNode b io true :: p0 |}.
Proof. reflexivity. Qed.

Lemma head_preamble_Append p x :
  head_preamble p = true -> head_preamble (ParseList.Append p x) = true.
Proof.
  unfold head_preamble, ParseList.Append. cbn.
  destruct (ParseList.Nodes p) as [| [] l]; cbn; try discriminate; reflexivity.
Qed.

(** The tokens that are no markers are taken one by one when the list
    starts with the preamble. *)
Lemma ParseTokens_loop_plain_prefix ts : forall rest n i p,
  forallb Encodable ts = true -> head_preamble p = true ->
  exists i' p',
    head_preamble p' = true /\
    ParseTokens_loop (ts ++ rest) n i p = ParseTokens_loop rest n i' p'.
Proof.
  induction ts as [| x ts IH]; intros rest n i p Ht Hp.
  - exists i, p. now split.
  - cbn [forallb] in Ht. apply andb_true_iff in Ht. destruct Ht as [Hx Ht].
    cbn [app]. rewrite ParseTokens_loop_step.
    destruct x; try discriminate Hx; cbn [classify].
    all: try (apply IH; [assumption | now apply head_preamble_Append]).
    + destruct p as [[| [] l]]; try discriminate Hp.
      rewrite set_UseFmt_preamble. now apply IH.
    + destruct p as [[| [] l]]; try discriminate Hp.
      rewrite set_UseIO_preamble. now apply IH.
Qed.

Section Forallb.

Variable Pc : Z -> bool.
Variable Q : Node -> bool.
Hypothesis Q_char :
  forall c j n, Pc c = true -> char_node c j = Some n -> Q n = true.
Hypothesis Q_Add : forall m, Q m = true -> Q (Add m) = true.

Lemma update_at_forallb l : forall k,
  forallb Q l = true -> forallb Q (update_at l k Add) = true.
Proof.
  induction l as [| x l IH]; intros k H; [reflexivity |].
  cbn [forallb] in H. apply andb_true_iff in H. destruct H as [Hx H].
  destruct k; cbn [update_at forallb]; apply andb_true_iff; split; auto.
Qed.

Lemma Append_forallb tl n :
  forallb Q (TokenList.Nodes tl) = true -> Q n = true ->
  forallb Q (TokenList.Nodes (TokenList.Append tl n)) = true.
Proof.
  intros Ht Hn. unfold TokenList.Append.
  destruct (Summarizable n && _).
  - destruct (TokenList.lastNode tl); [| assumption].
    cbn. now apply update_at_forallb.
  - cbn. rewrite forallb_app, Ht. cbn. now rewrite Hn.
Qed.

(** A property of the nodes that the characters of a text establish and
    [Add] keeps holds of all the tokens of the text. *)
Lemma scan_bytes_forallb bs : forall i tl,
  forallb Pc bs = true -> forallb Q (TokenList.Nodes tl) = true ->
  forallb Q (TokenList.Nodes (scan_bytes bs i tl)) = true.
Proof.
  induction bs as [| b bs IH]; intros i tl Hb Ht; [assumption |].
  cbn [forallb] in Hb. apply andb_true_iff in Hb. destruct Hb as [Hb0 Hb].
  rewrite scan_bytes_cons, Tokenize_body_char_node.
  destruct (char_node b i) as [n |] eqn:Hn; [| now apply IH].
  apply IH; [assumption |].
  apply Append_forallb; [assumption | eapply Q_char; eassumption].
Qed.

End Forallb.

Lemma Encodable_Add m : Encodable m = true -> Encodable (Add m) = true.
Proof. destruct m; auto. Qed.

Lemma char_node_Encodable c j n :
  negb (marker_char c) = true -> char_node c j = Some n -> Encodable n = true.
Proof.
  unfold marker_char, char_node. cbn [map existsb].
  rewrite negb_true_iff, !orb_false_iff. intros (H1 & H2 & H3 & H4 & _).
  rewrite H1, H2, H3, H4.
  case_ifs; intros [= <-]; reflexivity.
Qed.

Lemma tokens_from_Encodable i s :
  forallb (fun b => negb (marker_char b)) (bytes_of_string s) = true ->
  forallb Encodable (tokens_from i s) = true.
Proof.
  intros H. unfold tokens_from.
  apply (scan_bytes_forallb (fun b => negb (marker_char b)) Encodable).
  - intros c j n. apply char_node_Encodable.
  - exact Encodable_Add.
  - exact H.
  - reflexivity.
Qed.

(** The tokens of a text in which a character that is not countable
    follows the text [s1]. *)
Lemma tokens_from_uncountable s1 s2 c n :
  countable_char (rune c) = false ->
  char_node (rune c) (Z.of_nat (String.length s1)) = Some n ->
  tokens_from 0 (s1 ++ String c s2) =
  tokens_from 0 s1 ++ n :: tokens_from (Z.of_nat (String.length s1) + 1) s2.
Proof.
  intros Hc Hn. unfold tokens_from.
  assert (Hr : recognized (rune c) = true).
  { destruct (recognized (rune c)) eqn:E; [reflexivity |].
    eapply char_node_recognized in E. rewrite Hn in E. discriminate. }
  change (String c s2) with (String c "" ++ s2)%string.
  rewrite !bytes_of_string_app.
  change (bytes_of_string (String c "")) with [rune c].
  rewrite tokens_split.
  2:{ intros c0 _ H. cbn [app first_recognized] in H.
      rewrite Hr in H. congruence. }
  rewrite tokens_split.
  2:{ intros c0 H _. cbn [last_recognized] in H.
      rewrite Hr in H. congruence. }
  rewrite bytes_of_string_length, Z.add_0_l.
  rewrite scan_bytes_one, Tokenize_body_char_node, Hn, Append_empty.
  reflexivity.
Qed.

(** A closer that is the first marker of the text stops the parse with
    the error that names it, whatever follows. *)
Lemma Parse_first_marker_closer s1 s2 c n msg :
  forallb (fun b => negb (marker_char b)) (bytes_of_string s1) = true ->
  countable_char (rune c) = false ->
  char_node (rune c) (Z.of_nat (String.length s1)) = Some n ->
  classify n = CClose msg ->
  Parse (s1 ++ String c s2) = Failed (parseError n msg).
Proof.
  intros Hs Hc Hn Hcl. unfold Parse, ParseTokens.
  rewrite Tokenize_Nodes, (tokens_from_uncountable s1 s2 c n Hc Hn).
  rewrite ParseTokens_loop_step. cbn [classify Preamble0].
  rewrite <- app_assoc. cbn [app].
  destruct (ParseTokens_loop_plain_prefix (tokens_from 0 s1)
              (n :: tokens_from (Z.of_nat (String.length s1) + 1) s2
                 ++ [Postamble0]) 0 (int_add 0 1)
              (ParseList.Append ParseList.empty Preamble0))
    as (i' & p' & _ & ->); [now apply tokens_from_Encodable | reflexivity |].
  rewrite ParseTokens_loop_step, Hcl. reflexivity.
Qed.

(** C2.  A [LoopCloseNode] or [FuncCloseNode] met at nesting 0 ends the
    parse at once with a [ParseError] that holds the marker (hence its
    span) and the formatted message, whatever tokens follow: so for the
    loop at any index and list, and so for every text whose first marker
    is a closer; parsing ["]"] fails with the error of the marker at
    offset 0. *)
Theorem C2_unmatched_closer :
  (forall b rest i p,
      ParseTokens_loop (LoopCloseNode b :: rest) 0 i p =
      Failed (parseError (LoopCloseNode b) "Loop closed while not open")) /\
  (forall b rest i p,
      ParseTokens_loop (FuncCloseNode b :: rest) 0 i p =
      Failed (parseError (FuncCloseNode b) "Func closed while not open")) /\
  (forall n msg,
      FaultyNode (parseError n msg) = n /\
      Message (parseError n msg) =
      ("Error: " ++ msg ++ ", Position: " ++ fmt_d (Pos n) ++ " - "
         ++ fmt_d (End_ n) ++ nl)%string) /\
  (forall s1 s2 : string,
      forallb (fun b => negb (marker_char b)) (bytes_of_string s1) = true ->
      Z.of_nat (String.length s1) < MaxInt ->
      Parse (s1 ++ String "]" s2) =
      Failed (parseError
                (LoopCloseNode {| start := Z.of_nat (String.length s1);
                                  end_ := Z.of_nat (String.length s1) + 1 |})
                "Loop closed while not open") /\
      Parse (s1 ++ String "}" s2) =
      Failed (parseError
                (FuncCloseNode {| start := Z.of_nat (String.length s1);
                                  end_ := Z.of_nat (String.length s1) + 1 |})
                "Func closed while not open")) /\
  Parse "]" =
  Failed {| FaultyNode := LoopCloseNode {| start := 0; end_ := 1 |};
            Message := "Error: Loop closed while not open, Position: 0 - 1"
                         ++ nl |}.
Proof.
  split; [| split; [| split; [| split]]].
  - intros. now rewrite ParseTokens_loop_step.
  - intros. now rewrite ParseTokens_loop_step.
  - intros. split; reflexivity.
  - intros s1 s2 Hs Hlen. unfold MaxInt in Hlen.
    split; eapply Parse_first_marker_closer; try eassumption;
      try reflexivity.
    + unfold char_node. cbn. rewrite int_add_exact by lia. reflexivity.
    + unfold char_node. cbn. rewrite int_add_exact by lia. reflexivity.
  - reflexivity.
Qed.

Lemma C2_unmatched_closer_witness :
  Parse ("+,." ++ String "]" "[-]") =
  Failed (parseError (LoopCloseNode {| start := 3; end_ := 3 + 1 |})
                     "Loop closed while not open") /\
  Parse ("+,." ++ String "}" "[-]") =
  Failed (parseError (FuncCloseNode {| start := 3; end_ := 3 + 1 |})
                     "Func closed while not open").
Proof.
  apply (proj1 (proj2 (proj2 (proj2 C2_unmatched_closer))) "+,." "[-]").
  - reflexivity.
  - reflexivity.
Defined.

(** ** Properties of the encoder *)



(** ** The programs of the specification *)

(** C5 (as amended).  The example program has two loops, one inside the
    other: its parse holds exactly 2 [LoopNode]s (1 inner, 1 outer) and
    exactly one [OutputNode], and its code exactly 2 loop wrappers and
    exactly one output statement. *)
Theorem C5_example_program :
  exists p out,
    Parse example_program = Returned p /\
    ParseList.Nodes p =
      [PreambleNode {| start := 0; end_ := 0 |} false true;
       IncNode {| start := 0; end_ := 1 |} {| count := 3 |};
       LoopNode {| start := 4; end_ := 18 |}
         [NextNode {| start := 4; end_ := 5 |} {| count := 1 |};
          IncNode {| start := 5; end_ := 6 |} {| count := 3 |};
          LoopNode {| start := 9; end_ := 15 |}
            [NextNode {| start := 9; end_ := 10 |} {| count := 1 |};
             IncNode {| start := 10; end_ := 11 |} {| count := 3 |};
             PrevNode {| start := 13; end_ := 14 |} {| count := 1 |};
             DecNode {| start := 14; end_ := 15 |} {| count := 1 |}];
          PrevNode {| start := 16; end_ := 17 |} {| count := 1 |};
          DecNode {| start := 17; end_ := 18 |} {| count := 1 |}];
       NextNode {| start := 19; end_ := 20 |} {| count := 1 |};
       IncNode {| start := 20; end_ := 21 |} {| count := 1 |};
       OutputNode {| start := 21; end_ := 22 |};
       PostambleNode {| start := 0; end_ := 0 |}] /\
    count_type_list TLoop (ParseList.Nodes p) = 2%nat /\
    count_type_list TOutput (ParseList.Nodes p) = 1%nat /\
    Encode p = Returned out /\
    count_sub "for ; registers[currentIndex] > 0; {" out = 2%nat /\
    count_sub "fmt.Print(string(registers[currentIndex]))" out = 1%nat.
Proof.
  eexists. eexists.
  split; [vm_compute; reflexivity |].
  split; [reflexivity |].
  split; [reflexivity |].
  split; [reflexivity |].
  split; [vm_compute; reflexivity |].
  split; vm_compute; reflexivity.
Qed.

(** C5, as it is stated, fails: the parse of the example program does
    not hold 3 [LoopNode]s. *)
Lemma C5_counterexample :
  ~ (exists p,
        Parse example_program = Returned p /\
        count_type_list TLoop (ParseList.Nodes p) = 3%nat).
Proof.
  intros (p & Hp & Hc). vm_compute in Hp. injection Hp as <-.
  vm_compute in Hc. discriminate Hc.
Qed.

(** C8 (as amended).  Parsing ["{+!}"] gives exactly one top-level
    [FunctionNode]; its children are the [IncNode] of count 1 and the
    [FuncExecNode] of the ["!"], which lies between the braces. *)
Theorem C8_function_definition :
  Parse "{+!}" =
  Returned
    {| ParseList.Nodes :=
         [PreambleNode {| start := 0; end_ := 0 |} false false;
          FunctionNode {| start := 1; end_ := 3 |}
            [IncNode {| start := 1; end_ := 2 |} {| count := 1 |};
             FuncExecNode {| start := 2; end_ := 3 |}];
          PostambleNode {| start := 0; end_ := 0 |}] |}.
Proof. vm_compute. reflexivity. Qed.

(** C8, as it is stated, fails: the body of the definition parsed from
    ["{+!}"] holds a [FuncExecNode]. *)
Lemma C8_counterexample :
  ~ (exists p,
        Parse "{+!}" = Returned p /\
        forall b body,
          In (FunctionNode b body) (ParseList.Nodes p) ->
          has_type TFuncExec body = false).
Proof.
  intros (p & Hp & H). vm_compute in Hp. injection Hp as <-.
  specialize (H _ _ (or_intror (or_introl eq_refl))).
  discriminate H.
Qed.

(** C1, at the inputs where the code departs from it: the well-bracketed
    texts ["[]"], ["[.]"] and ["+[-.]"] make [Parse] panic. *)
Theorem C1_well_bracketed_panics :
  Parse "[]" = Panicked IndexOutOfRange /\
  Parse "[.]" = Panicked IndexOutOfRange /\
  Parse "+[-.]" = Panicked TypeAssertion.
Proof. repeat split; vm_compute; reflexivity. Qed.

(** C4, at the inputs where the code departs from it: on ["[]"] the index
    [p2.Nodes[0]] is out of range, and on ["[,]"] the index [p.Nodes[0]]
    of the list of the recursive call is. *)
Theorem C4_Parse_panics :
  Parse "[]" = Panicked IndexOutOfRange /\
  Parse "[,]" = Panicked IndexOutOfRange /\
  Parse "[+,]" = Panicked TypeAssertion.
Proof. repeat split; vm_compute; reflexivity. Qed.

(** ** The counts the parser returns *)

(** At nesting 0 the loop returns only at the end of the tokens. *)
Lemma ParseTokens_loop_nesting0 ts : forall i p q k,
  ParseTokens_loop ts 0 i p = Returned (q, k) -> k = 0.
Proof.
  induction ts as [ts IH] using length_ind. intros i p q k.
  destruct ts as [| x rest].
  - rewrite ParseTokens_loop_equation_1. now intros [= _ <-].
  - rewrite ParseTokens_loop_step. destruct (classify x).
    + destruct (ParseTokens_loop rest _ 0 _) as [[p2 skip] | |];
        try discriminate.
      destruct (span_of p2); try discriminate.
      apply IH. cbn. rewrite length_skipn. lia.
    + discriminate.
    + destruct (set_UseIO p); try discriminate. apply IH. cbn. lia.
    + destruct (set_UseFmt p); try discriminate. apply IH. cbn. lia.
    + apply IH. cbn. lia.
Qed.

(** The count a call returns is 0, at the end of the tokens, or the
    index after the closer that ended it. *)
Lemma ParseTokens_loop_count ts : forall n i p q k,
  0 <= i -> i + len ts <= MaxInt ->
  ParseTokens_loop ts n i p = Returned (q, k) ->
  k = 0 \/ i < k <= i + len ts.
Proof.
  unfold len, MaxInt.
  induction ts as [ts IH] using length_ind. intros n i p q k Hi Hb.
  destruct ts as [| x rest].
  - rewrite ParseTokens_loop_equation_1. intros [= _ <-]. now left.
  - cbn [List.length] in Hb. rewrite ParseTokens_loop_step.
    destruct (classify x).
    + destruct (ParseTokens_loop rest _ 0 _) as [[p2 skip] | |] eqn:E;
        try discriminate.
      apply IH in E; try (cbn [List.length]; lia).
      destruct (span_of p2); try discriminate.
      rewrite (int_add_exact i skip) by lia.
      rewrite int_add_exact by lia.
      intros H. apply IH in H.
      * rewrite length_skipn in H. cbn [List.length]. lia.
      * cbn. rewrite length_skipn. lia.
      * lia.
      * rewrite length_skipn. lia.
    + destruct (n =? 0); [discriminate |].
      rewrite int_add_exact by lia.
      intros [= _ <-]. right. cbn [List.length]. lia.
    + destruct (set_UseIO p); try discriminate.
      rewrite int_add_exact by lia.
      intros H. apply IH in H; cbn [List.length]; lia.
    + destruct (set_UseFmt p); try discriminate.
      rewrite int_add_exact by lia.
      intros H. apply IH in H; cbn [List.length]; lia.
    + rewrite int_add_exact by lia.
      intros H. apply IH in H; cbn [List.length]; lia.
Qed.

(** ** The tokens a call goes through *)

Lemma firstn_add (a b : nat) : forall l : list Node,
  firstn (a + b) l = firstn a l ++ firstn b (skipn a l).
Proof.
  induction a as [| a IH]; intros l; [reflexivity |].
  destruct l as [| x l]; [now destruct b |].
  cbn. now rewrite IH.
Qed.

Lemma visited_cons x rest i s k :
  0 <= i -> 0 <= s -> k = 0 \/ i + s + 1 < k ->
  visited (x :: rest) i k =
  x :: firstn (Z.to_nat s) rest
       ++ visited (skipn (Z.to_nat s) rest) (i + s + 1) k.
Proof.
  intros Hi Hs Hk. unfold visited. destruct (k =? 0) eqn:E.
  - now rewrite firstn_skipn.
  - apply Z.eqb_neq in E.
    replace (Z.to_nat (k - i))
      with (S (Z.to_nat s + Z.to_nat (k - (i + s + 1)))) by lia.
    cbn [firstn]. now rewrite firstn_add.
Qed.

Lemma visited_next x rest i k :
  0 <= i -> k = 0 \/ i + 1 < k ->
  visited (x :: rest) i k = x :: visited rest (i + 1) k.
Proof.
  intros Hi Hk. rewrite (visited_cons x rest i 0) by lia.
  cbn. now rewrite Z.add_0_r.
Qed.

Lemma visited_closer x rest i : 0 <= i -> visited (x :: rest) i (i + 1) = [x].
Proof.
  intros Hi. unfold visited.
  destruct (i + 1 =? 0) eqn:E; [apply Z.eqb_eq in E; lia |].
  replace (Z.to_nat (i + 1 - i)) with 1%nat by lia. reflexivity.
Qed.

Lemma has_type_app ty a b :
  has_type ty (a ++ b) = has_type ty a || has_type ty b.
Proof. apply existsb_app. Qed.

Lemma has_type_skipn ty l m :
  has_type ty l = false -> has_type ty (skipn m l) = false.
Proof.
  intros H. rewrite <- (firstn_skipn m l), has_type_app in H.
  now apply orb_false_iff in H.
Qed.

Lemma has_type_visited_firstn ty rest skip :
  has_type ty (visited rest 0 skip) = false ->
  has_type ty (firstn (Z.to_nat skip) rest) = false.
Proof.
  unfold visited. destruct (skip =? 0) eqn:E.
  - apply Z.eqb_eq in E. now subst.
  - now rewrite Z.sub_0_r.
Qed.

Lemma head_preamble_Append_false p x :
  head_preamble p = false -> NodeType_eqb (type_of x) TPreamble = false ->
  head_preamble (ParseList.Append p x) = false.
Proof.
  unfold head_preamble, ParseList.Append. cbn.
  destruct (ParseList.Nodes p) as [| y l]; cbn.
  - destruct x; cbn; congruence.
  - auto.
Qed.

Lemma set_UseIO_inv p p' :
  set_UseIO p = Returned p' ->
  exists b io fm p0,
    ParseList.Nodes p = PreambleNode b io fm :: p0 /\
    ParseList.Nodes p' = PreambleNode b true fm :: p0.
Proof.
  unfold set_UseIO, index. cbn.
  destruct (ParseList.Nodes p) as [| [] l]; cbn; try discriminate.
  intros [= <-]. eauto 6.
Qed.

Lemma set_UseFmt_inv p p' :
  set_UseFmt p = Returned p' ->
  exists b io fm p0,
    ParseList.Nodes p = PreambleNode b io fm :: p0 /\
    ParseList.Nodes p' = PreambleNode b io true :: p0.
Proof.
  unfold set_UseFmt, index. cbn.
  destruct (ParseList.Nodes p) as [| [] l]; cbn; try discriminate.
  intros [= <-]. eauto 6.
Qed.

Lemma io_summary_nil p : io_summary p p [].
Proof.
  split; [now split |].
  intros b io fm p0 ->. exists p0. cbn. now rewrite !orb_false_r.
Qed.

Lemma io_summary_step p q x y vs :
  io_summary (ParseList.Append p y) q vs ->
  NodeType_eqb (type_of y) TPreamble = false ->
  NodeType_eqb (type_of x) TInput = false ->
  NodeType_eqb (type_of x) TOutput = false ->
  io_summary p q (x :: vs).
Proof.
  intros [H1 H2] Hy Hi Ho. unfold io_summary, has_type in *. cbn [existsb].
  rewrite Hi, Ho. cbn [orb]. split.
  - intros Hp. apply H1. now apply head_preamble_Append_false.
  - intros b io fm p0 Hp. apply (H2 b io fm (p0 ++ [y])).
    unfold ParseList.Append. cbn. now rewrite Hp.
Qed.

Lemma io_summary_skip p q pre vs :
  io_summary p q vs ->
  has_type TInput pre = false -> has_type TOutput pre = false ->
  io_summary p q (pre ++ vs).
Proof.
  intros H Hi Ho. unfold io_summary. now rewrite !has_type_app, Hi, Ho.
Qed.

Lemma io_summary_input p p' q x vs :
  set_UseIO p = Returned p' ->
  io_summary (ParseList.Append p' x) q vs ->
  type_of x = TInput ->
  io_summary p q (x :: vs).
Proof.
  intros Hs [_ H2] Hx.
  apply set_UseIO_inv in Hs. destruct Hs as (b & io & fm & p0 & Hp & Hp').
  unfold io_summary, has_type in *. cbn [existsb]. rewrite Hx. cbn. split.
  - unfold head_preamble. rewrite Hp. discriminate.
  - intros b1 io1 fm1 p1. rewrite Hp. intros [= <- <- <- <-].
    destruct (H2 b true fm (p0 ++ [x])) as [q0 Hq].
    { unfold ParseList.Append. cbn. now rewrite Hp'. }
    exists q0. rewrite Hq. now rewrite orb_true_r.
Qed.

Lemma io_summary_output p p' q x vs :
  set_UseFmt p = Returned p' ->
  io_summary (ParseList.Append p' x) q vs ->
  type_of x = TOutput ->
  io_summary p q (x :: vs).
Proof.
  intros Hs [_ H2] Hx.
  apply set_UseFmt_inv in Hs. destruct Hs as (b & io & fm & p0 & Hp & Hp').
  unfold io_summary, has_type in *. cbn [existsb]. rewrite Hx. cbn. split.
  - unfold head_preamble. rewrite Hp. discriminate.
  - intros b1 io1 fm1 p1. rewrite Hp. intros [= <- <- <- <-].
    destruct (H2 b io true (p0 ++ [x])) as [q0 Hq].
    { unfold ParseList.Append. cbn. now rewrite Hp'. }
    exists q0. rewrite Hq. now rewrite orb_true_r.
Qed.

(** Input and output through a call of the loop, on tokens without a
    preamble: the tokens that the recursive calls go through hold no
    [InputNode] and no [OutputNode], and those of the outermost call set
    the flags of the preamble. *)
Lemma ParseTokens_loop_io ts : forall n i p q k,
  0 <= i -> i + len ts <= MaxInt ->
  has_type TPreamble ts = false ->
  ParseTokens_loop ts n i p = Returned (q, k) ->
  io_summary p q (visited ts i k).
Proof.
  induction ts as [ts IH] using length_ind. intros n i p q k Hi Hb Hnp H.
  pose proof (ParseTokens_loop_count ts n i p q k Hi Hb H) as Hk.
  unfold len, MaxInt in *.
  destruct ts as [| x rest].
  - rewrite ParseTokens_loop_equation_1 in H. injection H as <- <-.
    apply io_summary_nil.
  - cbn [List.length] in Hb, Hk. rewrite ParseTokens_loop_step in H.
    unfold has_type in Hnp. cbn [existsb] in Hnp.
    apply orb_false_iff in Hnp. destruct Hnp as [Hx Hnp].
    fold (has_type TPreamble rest) in Hnp.
    destruct (classify x) eqn:Hc.
    + destruct (ParseTokens_loop rest _ 0 _) as [[p2 skip] | |] eqn:E;
        try discriminate.
      pose proof (ParseTokens_loop_count rest _ 0 _ p2 skip (Z.le_refl 0)
                    ltac:(unfold len, MaxInt; lia) E) as Hskip.
      unfold len in Hskip.
      apply IH in E; [| cbn; lia | lia | lia | assumption].
      destruct E as [E _]. specialize (E eq_refl). destruct E as [Ei Eo].
      apply has_type_visited_firstn in Ei, Eo.
      destruct (span_of p2) as [b | |]; try discriminate.
      rewrite (int_add_exact i skip) in H by lia.
      rewrite int_add_exact in H by lia.
      pose proof H as Hk'.
      apply ParseTokens_loop_count in Hk';
        [| lia | unfold len, MaxInt; rewrite length_skipn; lia].
      apply IH in H;
        [| cbn; rewrite length_skipn; lia | lia | rewrite length_skipn; lia
         | now apply has_type_skipn].
      rewrite (visited_cons x rest i skip) by lia.
      apply (io_summary_step p q x (mk b (ParseList.Nodes p2))).
      * now apply io_summary_skip.
      * destruct x; try discriminate Hc; injection Hc as <-; reflexivity.
      * destruct x; try discriminate Hc; reflexivity.
      * destruct x; try discriminate Hc; reflexivity.
    + destruct (n =? 0); [discriminate |].
      rewrite int_add_exact in H by lia. injection H as <- <-.
      rewrite visited_closer by assumption.
      change [x] with ([x] ++ []). apply io_summary_skip.
      * apply io_summary_nil.
      * destruct x; try discriminate Hc; reflexivity.
      * destruct x; try discriminate Hc; reflexivity.
    + destruct (set_UseIO p) as [p' | |] eqn:Hs; try discriminate.
      rewrite int_add_exact in H by lia.
      pose proof H as Hk'.
      apply ParseTokens_loop_count in Hk'; [| lia | unfold len, MaxInt; lia].
      apply IH in H; [| cbn; lia | lia | lia | assumption].
      rewrite visited_next by lia.
      apply (io_summary_input p p'); try assumption.
      destruct x; try discriminate Hc; reflexivity.
    + destruct (set_UseFmt p) as [p' | |] eqn:Hs; try discriminate.
      rewrite int_add_exact in H by lia.
      pose proof H as Hk'.
      apply ParseTokens_loop_count in Hk'; [| lia | unfold len, MaxInt; lia].
      apply IH in H; [| cbn; lia | lia | lia | assumption].
      rewrite visited_next by lia.
      apply (io_summary_output p p'); try assumption.
      destruct x; try discriminate Hc; reflexivity.
    + rewrite int_add_exact in H by lia.
      pose proof H as Hk'.
      apply ParseTokens_loop_count in Hk'; [| lia | unfold len, MaxInt; lia].
      apply IH in H; [| cbn; lia | lia | lia | assumption].
      rewrite visited_next by lia.
      apply (io_summary_step p q x x); try assumption.
      * destruct x; try discriminate Hc; reflexivity.
      * destruct x; try discriminate Hc; reflexivity.
Qed.

(** ** The types of the tokens *)

Lemma Append_has_type ty tl n :
  shaped tl ->
  has_type ty (TokenList.Nodes (TokenList.Append tl n)) =
  has_type ty (TokenList.Nodes tl) || NodeType_eqb (type_of n) ty.
Proof.
  intros [-> | (init & x & ->)].
  - rewrite Append_empty. cbn. now rewrite orb_false_r.
  - rewrite Append_state. destruct (merges x n) eqn:E.
    + unfold merges in E. apply andb_true_iff in E. destruct E as [_ E].
      apply NodeType_eqb_eq in E.
      cbn [shift single TokenList.Nodes]. rewrite !has_type_app.
      cbn. rewrite type_of_Add, <- E, !orb_false_r.
      now destruct (has_type ty init), (NodeType_eqb (type_of x) ty).
    + cbn [shift single TokenList.Nodes]. rewrite !has_type_app.
      cbn. now rewrite !orb_false_r.
Qed.

Lemma scan_bytes_has_type ty bs : forall i tl,
  shaped tl ->
  has_type ty (TokenList.Nodes (scan_bytes bs i tl)) =
  has_type ty (TokenList.Nodes tl)
  || existsb (fun b => TypeOf_eqb (char_type b) (Some ty)) bs.
Proof.
  induction bs as [| b bs IH]; intros i tl Hs.
  - cbn. now rewrite orb_false_r.
  - rewrite scan_bytes_cons, Tokenize_body_char_node. cbn [existsb].
    destruct (char_node b i) as [n |] eqn:Hn.
    + destruct (Append_shaped tl n Hs) as (init & x & E & _).
      rewrite IH by (right; eauto).
      rewrite Append_has_type by assumption.
      rewrite (char_node_char_type _ _ _ Hn). cbn [TypeOf_eqb].
      now rewrite orb_assoc.
    + rewrite IH by assumption.
      apply char_node_recognized in Hn.
      apply (char_node_recognized b 0) in Hn.
      unfold char_type. rewrite Hn. reflexivity.
Qed.

Lemma char_type_Input b :
  TypeOf_eqb (char_type b) (Some TInput) = (b =? rune ",").
Proof.
  destruct (b =? rune ",") eqn:E.
  - apply Z.eqb_eq in E. now subst.
  - unfold char_type, char_node. rewrite E.
    case_ifs; reflexivity.
Qed.

Lemma char_type_Output b :
  TypeOf_eqb (char_type b) (Some TOutput) = (b =? rune ".").
Proof.
  destruct (b =? rune ".") eqn:E.
  - apply Z.eqb_eq in E. now subst.
  - unfold char_type, char_node. rewrite E.
    case_ifs; reflexivity.
Qed.

Lemma char_type_Preamble b :
  TypeOf_eqb (char_type b) (Some TPreamble) = false.
Proof.
  unfold char_type, char_node.
  case_ifs; reflexivity.
Qed.

Lemma existsb_false_fun {A} (f : A -> bool) l :
  (forall a, f a = false) -> existsb f l = false.
Proof.
  intros H. induction l as [| a l IH]; [reflexivity |].
  cbn. now rewrite H, IH.
Qed.

Lemma existsb_eq_fun {A} (f g : A -> bool) l :
  (forall a, f a = g a) -> existsb f l = existsb g l.
Proof.
  intros H. induction l as [| a l IH]; [reflexivity |].
  cbn. now rewrite H, IH.
Qed.

Lemma tokens_from_Input i s :
  has_type TInput (tokens_from i s) = contains "," s.
Proof.
  unfold tokens_from, contains.
  rewrite scan_bytes_has_type by now left.
  cbn [TokenList.empty TokenList.Nodes has_type existsb orb].
  apply existsb_eq_fun. intros b. apply char_type_Input.
Qed.

Lemma tokens_from_Output i s :
  has_type TOutput (tokens_from i s) = contains "." s.
Proof.
  unfold tokens_from, contains.
  rewrite scan_bytes_has_type by now left.
  cbn [TokenList.empty TokenList.Nodes has_type existsb orb].
  apply existsb_eq_fun. intros b. apply char_type_Output.
Qed.

Lemma tokens_from_Preamble i s : has_type TPreamble (tokens_from i s) = false.
Proof.
  unfold tokens_from.
  rewrite scan_bytes_has_type by now left.
  cbn [TokenList.empty TokenList.Nodes has_type existsb orb].
  apply existsb_false_fun. apply char_type_Preamble.
Qed.

Lemma string_app_assoc (a b c : string) :
  ((a ++ b) ++ c = a ++ (b ++ c))%string.
Proof.
  induction a as [| x a IH]; [reflexivity |]. cbn. now rewrite IH.
Qed.

Lemma Encode_loop_prefix l : forall code out,
  Encode_loop l code = Returned out ->
  exists tail, out = (code ++ tail)%string.
Proof.
  induction l as [| x l IH]; intros code out H.
  - cbn in H. injection H as <-. exists ""%string.
    induction code as [| c code IHc]; [reflexivity |]. cbn. now rewrite <- IHc.
  - cbn [Encode_loop] in H. destruct (Encodable x); [| now apply IH].
    destruct (Code x) as [c | |]; try discriminate.
    apply IH in H. destruct H as [tail ->].
    exists (tab ++ c ++ tail)%string. now rewrite !string_app_assoc.
Qed.

(** When [Parse] returns, the first node of its list is the preamble,
    with [UseIO] set exactly when the text holds a [","] and [UseFmt]
    exactly when it holds a ["."]. *)
Lemma Parse_preamble_flags s p :
  len (TokenList.Nodes (Tokenize s)) <= MaxInt ->
  Parse s = Returned p ->
  exists rest,
    ParseList.Nodes p =
    PreambleNode {| start := 0; end_ := 0 |} (contains "," s) (contains "." s)
    :: rest.
Proof.
  intros Hlen H. unfold Parse, ParseTokens in H.
  rewrite Tokenize_Nodes in H, Hlen.
  destruct (ParseTokens_loop _ 0 0 _) as [[q k] | |] eqn:E;
    try discriminate.
  injection H as ->.
  rewrite ParseTokens_loop_step in E. cbn [classify Preamble0] in E.
  pose proof (ParseTokens_loop_nesting0 _ _ _ _ _ E) as ->.
  unfold len, MaxInt in Hlen. cbn [List.length] in Hlen.
  apply ParseTokens_loop_io in E.
  - destruct E as [_ E].
    destruct (E {| start := 0; end_ := 0 |} false false [] eq_refl)
      as [q0 Hq].
    exists q0. rewrite Hq. unfold visited. cbn [Z.eqb orb].
    rewrite !has_type_app, tokens_from_Input, tokens_from_Output.
    cbn. now rewrite !orb_false_r.
  - now vm_compute.
  - unfold len, MaxInt. change (int_add 0 1) with 1. lia.
  - rewrite has_type_app, tokens_from_Preamble. reflexivity.
Qed.

(** C6.  Whenever [Parse] returns, the preamble of its list has [UseIO]
    set exactly when the text holds a [","] and [UseFmt] exactly when it
    holds a ["."]; its code, with which the output of [Encode] starts,
    holds the import of ["io"] exactly when [UseIO] is set and the import
    of ["fmt"] exactly when [UseFmt] is.  So a text with neither
    character gets neither import, and a text with ["."] but no [","]
    gets the import of ["fmt"] and not that of ["io"]. *)
Theorem C6_conditional_imports :
  forall (s : string) (p : ParseList.t),
    len (TokenList.Nodes (Tokenize s)) <= MaxInt ->
    Parse s = Returned p ->
    exists b rest header,
      ParseList.Nodes p =
        PreambleNode b (contains "," s) (contains "." s) :: rest /\
      Code (PreambleNode b (contains "," s) (contains "." s)) =
        Returned header /\
      occurs import_io header = contains "," s /\
      occurs import_fmt header = contains "." s /\
      (forall out,
          Encode p = Returned out ->
          exists tail, out = (tab ++ header ++ tail)%string).
Proof.
  intros s p Hlen H.
  destruct (Parse_preamble_flags s p Hlen H) as [rest Hp].
  exists {| start := 0; end_ := 0 |}, rest.
  exists (PreambleNode_Code (contains "," s) (contains "." s)).
  split; [exact Hp |]. split; [reflexivity |].
  split; [destruct (contains "," s), (contains "." s); vm_compute; reflexivity |].
  split; [destruct (contains "," s), (contains "." s); vm_compute; reflexivity |].
  intros out Ho. unfold Encode in Ho. rewrite Hp in Ho.
  cbn [Encode_loop Encodable Code] in Ho.
  apply Encode_loop_prefix in Ho. destruct Ho as [tail ->].
  exists tail. cbn [append]. now rewrite string_app_assoc.
Qed.

Lemma C6_conditional_imports_witness :
  exists b rest header,
    ParseList.Nodes
      {| ParseList.Nodes :=
           [PreambleNode {| start := 0; end_ := 0 |} false true;
            IncNode {| start := 0; end_ := 1 |} {| count := 2 |};
            OutputNode {| start := 2; end_ := 3 |};
            PostambleNode {| start := 0; end_ := 0 |}] |} =
      PreambleNode b (contains "," "++.") (contains "." "++.") :: rest /\
    Code (PreambleNode b (contains "," "++.") (contains "." "++.")) =
      Returned header /\
    occurs import_io header = contains "," "++." /\
    occurs import_fmt header = contains "." "++." /\
    (forall out,
        Encode
          {| ParseList.Nodes :=
               [PreambleNode {| start := 0; end_ := 0 |} false true;
                IncNode {| start := 0; end_ := 1 |} {| count := 2 |};
                OutputNode {| start := 2; end_ := 3 |};
                PostambleNode {| start := 0; end_ := 0 |}] |} =
        Returned out ->
        exists tail, out = (tab ++ header ++ tail)%string).
Proof.
  apply (C6_conditional_imports "++.").
  - vm_compute. discriminate.
  - vm_compute. reflexivity.
Defined.

(** ** Openers without a closer *)

(** What a call returns does not depend on the nesting, as long as the
    nesting is positive and stays in range in the recursive calls. *)
Lemma ParseTokens_loop_nesting ts : forall m1 m2 i p r,
  ParseTokens_loop ts m1 i p = Returned r ->
  0 < m2 -> m2 + len ts <= MaxInt ->
  ParseTokens_loop ts m2 i p = Returned r.
Proof.
  unfold len, MaxInt.
  induction ts as [ts IH] using length_ind. intros m1 m2 i p r H Hm Hb.
  destruct ts as [| x rest].
  - now rewrite ParseTokens_loop_equation_1 in *.
  - cbn [List.length] in Hb. rewrite ParseTokens_loop_step in *.
    destruct (classify x).
    + destruct (ParseTokens_loop rest (int_add m1 1) 0 _)
        as [[p2 skip] | |] eqn:E; try discriminate.
      apply (IH rest ltac:(cbn; lia) _ (int_add m2 1)) in E;
        [| rewrite int_add_exact by lia; lia
         | rewrite int_add_exact by lia; lia].
      rewrite E. destruct (span_of p2); try discriminate.
      eapply (IH (skipn (Z.to_nat skip) rest));
        [cbn; rewrite length_skipn; lia | eassumption | assumption
         | rewrite length_skipn; lia].
    + destruct (m1 =? 0); [discriminate |].
      destruct (m2 =? 0) eqn:E; [apply Z.eqb_eq in E; lia | assumption].
    + destruct (set_UseIO p); try discriminate.
      apply (IH rest ltac:(cbn; lia) m1); try assumption. lia.
    + destruct (set_UseFmt p); try discriminate.
      apply (IH rest ltac:(cbn; lia) m1); try assumption. lia.
    + apply (IH rest ltac:(cbn; lia) m1); try assumption. lia.
Qed.

Lemma ParseList_eta p : {| ParseList.Nodes := ParseList.Nodes p |} = p.
Proof. now destruct p. Qed.

(** A call that ran to the end of the tokens, from a list that does not
    start with the preamble, appended nodes [d] that any other call on
    these tokens appends as well. *)
Lemma ParseTokens_loop_replay ts : forall n1 i1 p1 q1,
  0 <= i1 -> i1 + len ts <= MaxInt ->
  has_type TPreamble ts = false ->
  head_preamble p1 = false ->
  ParseTokens_loop ts n1 i1 p1 = Returned (q1, 0) ->
  exists d,
    ParseList.Nodes q1 = ParseList.Nodes p1 ++ d /\
    forall n2 i2 p2,
      0 <= n2 -> n2 + len ts <= MaxInt ->
      ParseTokens_loop ts n2 i2 p2 =
      Returned ({| ParseList.Nodes := ParseList.Nodes p2 ++ d |}, 0).
Proof.
  unfold len, MaxInt.
  induction ts as [ts IH] using length_ind.
  intros n1 i1 p1 q1 Hi Hb Hnp Hp H.
  destruct ts as [| x rest].
  - rewrite ParseTokens_loop_equation_1 in H. injection H as <-.
    exists []. split; [now rewrite app_nil_r |].
    intros. rewrite ParseTokens_loop_equation_1, app_nil_r.
    now rewrite ParseList_eta.
  - cbn [List.length] in Hb. rewrite ParseTokens_loop_step in H.
    unfold has_type in Hnp. cbn [existsb] in Hnp.
    apply orb_false_iff in Hnp. destruct Hnp as [Hx Hnp].
    fold (has_type TPreamble rest) in Hnp.
    destruct (classify x) eqn:Hc.
    + destruct (ParseTokens_loop rest _ 0 _) as [[pi s] | |] eqn:E;
        try discriminate.
      pose proof (ParseTokens_loop_count rest _ 0 _ pi s (Z.le_refl 0)
                    ltac:(unfold len, MaxInt; lia) E) as Hs.
      unfold len in Hs.
      destruct (span_of pi) as [b | |] eqn:Hspan; try discriminate.
      rewrite (int_add_exact i1 s) in H by lia.
      rewrite int_add_exact in H by lia.
      apply IH in H;
        [| cbn; rewrite length_skipn; lia | lia | rewrite length_skipn; lia
         | now apply has_type_skipn
         | apply head_preamble_Append_false; [assumption |];
           destruct x; try discriminate Hc; injection Hc as <-; reflexivity].
      destruct H as (d & Hq & Hd).
      exists (mk b (ParseList.Nodes pi) :: d). split.
      * rewrite Hq. unfold ParseList.Append. cbn. now rewrite <- app_assoc.
      * intros n2 i2 p2 Hn2 Hb2. cbn [List.length] in Hb2.
        rewrite ParseTokens_loop_step, Hc.
        rewrite (ParseTokens_loop_nesting rest _ (int_add n2 1) _ _ _ E);
          [| rewrite int_add_exact by lia; lia
           | unfold len, MaxInt; rewrite int_add_exact by lia; lia].
        rewrite Hspan, Hd; [| assumption | rewrite length_skipn; lia].
        unfold ParseList.Append. cbn. now rewrite <- app_assoc.
    + destruct (n1 =? 0); [discriminate |].
      rewrite int_add_exact in H by lia. injection H as _ H. lia.
    + destruct (set_UseIO p1) as [p' | |] eqn:Hs; try discriminate.
      apply set_UseIO_head in Hs. destruct Hs as [Hs _]. congruence.
    + destruct (set_UseFmt p1) as [p' | |] eqn:Hs; try discriminate.
      apply set_UseFmt_head in Hs. destruct Hs as [Hs _]. congruence.
    + rewrite int_add_exact in H by lia.
      apply IH in H;
        [| cbn; lia | lia | lia | assumption
         | now apply head_preamble_Append_false].
      destruct H as (d & Hq & Hd).
      exists (x :: d). split.
      * rewrite Hq. unfold ParseList.Append. cbn. now rewrite <- app_assoc.
      * intros n2 i2 p2 Hn2 Hb2. cbn [List.length] in Hb2.
        rewrite ParseTokens_loop_step, Hc, Hd; [| assumption | lia].
        unfold ParseList.Append. cbn. now rewrite <- app_assoc.
Qed.

(** The call at an opener whose recursive call ran to the end of the
    tokens. *)
Lemma ParseTokens_loop_unmatched x mk rest n i p p2 b :
  classify x = COpen mk ->
  has_type TPreamble rest = false ->
  0 <= n -> n + len rest < MaxInt ->
  ParseTokens {| TokenList.Nodes := rest; TokenList.lastNode := None |}
              (int_add n 1) = Returned (p2, 0) ->
  span_of p2 = Returned b ->
  ParseTokens_loop (x :: rest) n i p =
  Returned
    ({| ParseList.Nodes :=
          ParseList.Nodes p ++ mk b (ParseList.Nodes p2) :: ParseList.Nodes p2 |},
     0).
Proof.
  intros Hc Hnp Hn Hb E Hspan. unfold ParseTokens in E. cbn in E.
  rewrite ParseTokens_loop_step, Hc, E, Hspan. cbn [Z.to_nat skipn].
  apply ParseTokens_loop_replay in E;
    [| lia | unfold len, MaxInt in *; lia | assumption | reflexivity].
  destruct E as (d & Hd & E). cbn in Hd. subst d.
  rewrite E; [| assumption | lia].
  unfold ParseList.Append. cbn. now rewrite <- app_assoc.
Qed.

(** C9 (as amended).  When the recursive call started at a
    [LoopOpenNode] or [FuncOpenNode] runs to the end of the tokens, it
    returns its list with the count 0 and no error; the enclosing call
    then goes on right after the opener, so that its list gets the
    container node and, after it, the children of the container once
    more.  Parsing ["[+"] gives the loop of the [IncNode] and the
    postamble, followed by the same [IncNode] and postamble; parsing
    ["]["] fails, for the closer at nesting 0. *)
Theorem C9_unmatched_opener :
  (forall x mk rest n i p p2 b,
      classify x = COpen mk ->
      has_type TPreamble rest = false ->
      0 <= n -> n + len rest < MaxInt ->
      ParseTokens {| TokenList.Nodes := rest; TokenList.lastNode := None |}
                  (int_add n 1) = Returned (p2, 0) ->
      span_of p2 = Returned b ->
      ParseTokens_loop (x :: rest) n i p =
      Returned
        ({| ParseList.Nodes :=
              ParseList.Nodes p
              ++ mk b (ParseList.Nodes p2) :: ParseList.Nodes p2 |},
         0)) /\
  Parse "[+" =
    Returned
      {| ParseList.Nodes :=
           [Preamble0;
            LoopNode {| start := 1; end_ := 0 |}
              [IncNode {| start := 1; end_ := 2 |} {| count := 1 |};
               Postamble0];
            IncNode {| start := 1; end_ := 2 |} {| count := 1 |};
            Postamble0] |} /\
  Parse "{+" =
    Returned
      {| ParseList.Nodes :=
           [Preamble0;
            FunctionNode {| start := 1; end_ := 0 |}
              [IncNode {| start := 1; end_ := 2 |} {| count := 1 |};
               Postamble0];
            IncNode {| start := 1; end_ := 2 |} {| count := 1 |};
            Postamble0] |} /\
  Parse "][" =
    Failed (parseError (LoopCloseNode {| start := 0; end_ := 1 |})
                       "Loop closed while not open").
Proof.
  split; [exact ParseTokens_loop_unmatched |].
  repeat split; vm_compute; reflexivity.
Qed.

Lemma C9_unmatched_opener_witness :
  ParseTokens_loop
    (LoopOpenNode {| start := 0; end_ := 1 |}
     :: [DecNode {| start := 1; end_ := 2 |} {| count := 2 |}; Postamble0])
    0 1 {| ParseList.Nodes := [Preamble0] |} =
  Returned
    ({| ParseList.Nodes :=
          ParseList.Nodes {| ParseList.Nodes := [Preamble0] |}
          ++ LoopNode {| start := 1; end_ := 0 |}
               (ParseList.Nodes
                  {| ParseList.Nodes :=
                       [DecNode {| start := 1; end_ := 2 |} {| count := 2 |};
                        Postamble0] |})
             :: ParseList.Nodes
                  {| ParseList.Nodes :=
                       [DecNode {| start := 1; end_ := 2 |} {| count := 2 |};
                        Postamble0] |} |},
     0).
Proof.
  apply (proj1 C9_unmatched_opener).
  - reflexivity.
  - reflexivity.
  - lia.
  - vm_compute. reflexivity.
  - vm_compute. reflexivity.
  - vm_compute. reflexivity.
Defined.

(** C9, as it is stated, fails on ["]["]: the ["["] has no closer after
    it, and [Parse] does not return a list. *)
Lemma C9_counterexample : ~ (exists p, Parse "][" = Returned p).
Proof.
  intros [p H]. vm_compute in H. discriminate H.
Qed.

(** ** Well-bracketed texts *)

Lemma skipn_past (a : list Node) x l :
  skipn (List.length a + 1) (a ++ x :: l) = l.
Proof.
  induction a as [| y a IH]; [reflexivity |]. exact IH.
Qed.

Lemma len_app a b : len (a ++ b) = len a + len b.
Proof. unfold len. rewrite length_app. lia. Qed.

Lemma len_cons x l : len (x :: l) = len l + 1.
Proof. unfold len. cbn [List.length]. lia. Qed.

(** Below an opener, well-bracketed tokens followed by a closer give
    their nodes and the count of the tokens up to and with the closer. *)
Lemma ParseTokens_loop_nest ts ns :
  nest ts ns ->
  forall n i p closer msg rest,
    classify closer = CClose msg ->
    0 < n -> n + len ts < MaxInt ->
    0 <= i -> i + len ts < MaxInt ->
    ParseTokens_loop (ts ++ closer :: rest) n i p =
    Returned ({| ParseList.Nodes := ParseList.Nodes p ++ ns |},
              i + len ts + 1).
Proof.
  unfold MaxInt.
  induction 1 as [| x ts ns Hx _ IH
                  | bo bc body ch b ts ns _ IHb Hs _ IH
                  | bo bc body ch b ts ns _ IHb Hs _ IH];
    intros n i p closer msg rest Hc Hn Hnb Hi Hb.
  - cbn [app]. rewrite ParseTokens_loop_step, Hc.
    destruct (n =? 0) eqn:E; [apply Z.eqb_eq in E; lia |].
    rewrite int_add_exact by (unfold len in *; cbn in *; lia).
    rewrite app_nil_r, ParseList_eta. unfold len. cbn [List.length Z.of_nat].
    now rewrite Z.add_0_r.
  - rewrite len_cons in *. cbn [app]. rewrite ParseTokens_loop_step, Hx.
    rewrite int_add_exact by (pose proof (Nat2Z.is_nonneg (List.length ts));
                              unfold len in *; lia).
    rewrite (IH n (i + 1) _ closer msg rest) by (try eassumption; lia).
    unfold ParseList.Append. cbn. rewrite <- app_assoc. cbn.
    do 2 f_equal. lia.
  - rewrite len_cons, len_app, len_cons in *.
    pose proof (Nat2Z.is_nonneg (List.length ts)).
    pose proof (Nat2Z.is_nonneg (List.length body)). unfold len in *.
    cbn [app]. rewrite <- app_assoc. cbn [app].
    rewrite ParseTokens_loop_step. cbn [classify].
    rewrite (IHb (int_add n 1) 0 ParseList.empty (LoopCloseNode bc)
               "Loop closed while not open")
      by (try reflexivity; rewrite ?int_add_exact by lia; lia).
    cbn [ParseList.empty ParseList.Nodes app]. rewrite Hs.
    replace (Z.to_nat (0 + Z.of_nat (List.length body) + 1))
      with (List.length body + 1)%nat by lia.
    rewrite skipn_past.
    rewrite (int_add_exact i) by lia. rewrite int_add_exact by lia.
    rewrite (IH n _ _ closer msg rest) by (try eassumption; lia).
    unfold ParseList.Append. cbn. rewrite <- app_assoc. cbn.
    do 2 f_equal. lia.
  - rewrite len_cons, len_app, len_cons in *.
    pose proof (Nat2Z.is_nonneg (List.length ts)).
    pose proof (Nat2Z.is_nonneg (List.length body)). unfold len in *.
    cbn [app]. rewrite <- app_assoc. cbn [app].
    rewrite ParseTokens_loop_step. cbn [classify].
    rewrite (IHb (int_add n 1) 0 ParseList.empty (FuncCloseNode bc)
               "Func closed while not open")
      by (try reflexivity; rewrite ?int_add_exact by lia; lia).
    cbn [ParseList.empty ParseList.Nodes app]. rewrite Hs.
    replace (Z.to_nat (0 + Z.of_nat (List.length body) + 1))
      with (List.length body + 1)%nat by lia.
    rewrite skipn_past.
    rewrite (int_add_exact i) by lia. rewrite int_add_exact by lia.
    rewrite (IH n _ _ closer msg rest) by (try eassumption; lia).
    unfold ParseList.Append. cbn. rewrite <- app_assoc. cbn.
    do 2 f_equal. lia.
Qed.

Lemma nest_no_io ts ns :
  nest ts ns -> has_type TInput ts = false /\ has_type TOutput ts = false.
Proof.
  induction 1 as [| x ts ns Hx _ IH
                  | bo bc body ch b ts ns _ IHb _ _ IH
                  | bo bc body ch b ts ns _ IHb _ _ IH].
  - now split.
  - unfold has_type in *. cbn [existsb].
    destruct x; try discriminate Hx; exact IH.
  - unfold has_type in *. cbn [existsb type_of NodeType_eqb orb].
    rewrite !existsb_app. cbn [existsb type_of NodeType_eqb orb].
    destruct IHb as [-> ->]. exact IH.
  - unfold has_type in *. cbn [existsb type_of NodeType_eqb orb].
    rewrite !existsb_app. cbn [existsb type_of NodeType_eqb orb].
    destruct IHb as [-> ->]. exact IH.
Qed.

(** At the top level, from a list that starts with the preamble,
    well-bracketed tokens give their nodes, and the input and output
    tokens among them set the flags of the preamble. *)
Lemma ParseTokens_loop_nest_top ts ns :
  nest_top ts ns ->
  forall i b io fm p0,
    0 <= i -> i + len ts < MaxInt ->
    ParseTokens_loop ts 0 i {| ParseList.Nodes := PreambleNode b io fm :: p0 |} =
    Returned
      ({| ParseList.Nodes :=
            PreambleNode b (io || has_type TInput ts) (fm || has_type TOutput ts)
            :: p0 ++ ns |}, 0).
Proof.
  unfold MaxInt.
  induction 1 as [| x ts ns Hx _ IH
                  | bo bc body ch b' ts ns Hbody Hs _ IH
                  | bo bc body ch b' ts ns Hbody Hs _ IH];
    intros i b io fm p0 Hi Hb.
  - rewrite ParseTokens_loop_equation_1. cbn.
    now rewrite !orb_false_r, app_nil_r.
  - rewrite len_cons in Hb. pose proof (Nat2Z.is_nonneg (List.length ts)).
    unfold len in *. rewrite ParseTokens_loop_step.
    unfold has_type. cbn [existsb]. fold (has_type TInput ts).
    fold (has_type TOutput ts).
    destruct Hx as [Hx | [Hx | Hx]]; rewrite Hx.
    + rewrite int_add_exact by lia. unfold ParseList.Append. cbn.
      rewrite IH by lia. rewrite <- app_assoc. cbn.
      destruct x; try discriminate Hx; reflexivity.
    + rewrite set_UseIO_preamble, int_add_exact by lia.
      unfold ParseList.Append. cbn.
      rewrite IH by lia. rewrite <- app_assoc. cbn.
      destruct x; try discriminate Hx. cbn. now rewrite orb_true_r.
    + rewrite set_UseFmt_preamble, int_add_exact by lia.
      unfold ParseList.Append. cbn.
      rewrite IH by lia. rewrite <- app_assoc. cbn.
      destruct x; try discriminate Hx. cbn. now rewrite orb_true_r.
  - rewrite len_cons, len_app, len_cons in Hb.
    pose proof (Nat2Z.is_nonneg (List.length ts)).
    pose proof (Nat2Z.is_nonneg (List.length body)). unfold len in *.
    rewrite ParseTokens_loop_step. cbn [classify].
    change (int_add 0 1) with 1.
    rewrite (ParseTokens_loop_nest body ch Hbody 1 0
               ParseList.empty (LoopCloseNode bc)
               "Loop closed while not open")
      by (try reflexivity; unfold MaxInt, len; lia).
    cbn [ParseList.empty ParseList.Nodes app]. rewrite Hs. unfold len.
    replace (Z.to_nat (0 + Z.of_nat (List.length body) + 1))
      with (List.length body + 1)%nat by lia.
    rewrite skipn_past.
    rewrite (int_add_exact i) by lia. rewrite int_add_exact by lia.
    unfold ParseList.Append. cbn. rewrite IH by lia.
    rewrite <- app_assoc. cbn.
    destruct (nest_no_io body ch Hbody) as [Hin Hout].
    unfold has_type in *. cbn [existsb type_of NodeType_eqb orb].
    rewrite !existsb_app. cbn [existsb type_of NodeType_eqb orb].
    now rewrite Hin, Hout.
  - rewrite len_cons, len_app, len_cons in Hb.
    pose proof (Nat2Z.is_nonneg (List.length ts)).
    pose proof (Nat2Z.is_nonneg (List.length body)). unfold len in *.
    rewrite ParseTokens_loop_step. cbn [classify].
    change (int_add 0 1) with 1.
    rewrite (ParseTokens_loop_nest body ch Hbody 1 0
               ParseList.empty (FuncCloseNode bc)
               "Func closed while not open")
      by (try reflexivity; unfold MaxInt, len; lia).
    cbn [ParseList.empty ParseList.Nodes app]. rewrite Hs. unfold len.
    replace (Z.to_nat (0 + Z.of_nat (List.length body) + 1))
      with (List.length body + 1)%nat by lia.
    rewrite skipn_past.
    rewrite (int_add_exact i) by lia. rewrite int_add_exact by lia.
    unfold ParseList.Append. cbn. rewrite IH by lia.
    rewrite <- app_assoc. cbn.
    destruct (nest_no_io body ch Hbody) as [Hin Hout].
    unfold has_type in *. cbn [existsb type_of NodeType_eqb orb].
    rewrite !existsb_app. cbn [existsb type_of NodeType_eqb orb].
    now rewrite Hin, Hout.
Qed.

Lemma nest_top_snoc ts ns x :
  nest_top ts ns -> classify x = CPlain -> nest_top (ts ++ [x]) (ns ++ [x]).
Proof.
  intros H Hx.
  induction H as [| y ts ns Hy _ IH
                  | bo bc body ch b ts ns Hbody Hs _ IH
                  | bo bc body ch b ts ns Hbody Hs _ IH].
  - apply nest_top_leaf; [now left | constructor].
  - cbn [app]. now apply nest_top_leaf.
  - cbn [app]. rewrite <- app_assoc. cbn [app]. now apply nest_top_loop.
  - cbn [app]. rewrite <- app_assoc. cbn [app]. now apply nest_top_func.
Qed.

Lemma Parse_nest_top s ns :
  nest_top (tokens_from 0 s) ns ->
  len (TokenList.Nodes (Tokenize s)) < MaxInt ->
  Parse s =
  Returned
    {| ParseList.Nodes :=
         PreambleNode {| start := 0; end_ := 0 |}
           (contains "," s) (contains "." s)
         :: ns ++ [Postamble0] |}.
Proof.
  intros H Hlen. unfold Parse, ParseTokens.
  rewrite Tokenize_Nodes in *. rewrite len_cons in Hlen.
  rewrite ParseTokens_loop_step. cbn [classify Preamble0].
  unfold ParseList.Append, Preamble0.
  cbn [ParseList.empty ParseList.Nodes app].
  rewrite (ParseTokens_loop_nest_top _ (ns ++ [Postamble0])).
  - rewrite !has_type_app, tokens_from_Input, tokens_from_Output.
    cbn. now rewrite !orb_false_r.
  - now apply nest_top_snoc.
  - now vm_compute.
  - change (int_add 0 1) with 1. lia.
Qed.

(** A text whose tokens are well bracketed, with no empty body and no
    input or output inside a body, is parsed into the preamble, the
    nodes its tokens stand for, and the postamble: every container has as
    children the nodes of the tokens strictly between its two markers. *)
Theorem Parse_well_bracketed s ns :
  nest_top (tokens_from 0 s) ns ->
  len (TokenList.Nodes (Tokenize s)) < MaxInt ->
  Parse s =
  Returned
    {| ParseList.Nodes :=
         PreambleNode {| start := 0; end_ := 0 |}
           (contains "," s) (contains "." s)
         :: ns ++ [Postamble0] |}.
Proof.
  exact (Parse_nest_top s ns).
Qed.

Example Parse_well_bracketed_example :
  Parse ",+[-{<}]." =
  Returned
    {| ParseList.Nodes :=
         [PreambleNode {| start := 0; end_ := 0 |} true true;
          InputNode {| start := 0; end_ := 1 |};
          IncNode {| start := 1; end_ := 2 |} {| count := 1 |};
          LoopNode {| start := 3; end_ := 6 |}
            [DecNode {| start := 3; end_ := 4 |} {| count := 1 |};
             FunctionNode {| start := 5; end_ := 6 |}
               [PrevNode {| start := 5; end_ := 6 |} {| count := 1 |}]];
          OutputNode {| start := 8; end_ := 9 |};
          Postamble0] |}.
Proof.
  apply (Parse_nest_top ",+[-{<}]."
           [InputNode {| start := 0; end_ := 1 |};
            IncNode {| start := 1; end_ := 2 |} {| count := 1 |};
            LoopNode {| start := 3; end_ := 6 |}
              [DecNode {| start := 3; end_ := 4 |} {| count := 1 |};
               FunctionNode {| start := 5; end_ := 6 |}
                 [PrevNode {| start := 5; end_ := 6 |} {| count := 1 |}]];
            OutputNode {| start := 8; end_ := 9 |}]).
  - change (tokens_from 0 ",+[-{<}].")
      with ([InputNode {| start := 0; end_ := 1 |};
             IncNode {| start := 1; end_ := 2 |} {| count := 1 |}]
            ++ LoopOpenNode {| start := 2; end_ := 3 |}
               :: ([DecNode {| start := 3; end_ := 4 |} {| count := 1 |}]
                   ++ FuncOpenNode {| start := 4; end_ := 5 |}
                      :: ([PrevNode {| start := 5; end_ := 6 |}
                             {| count := 1 |}]
                          ++ FuncCloseNode {| start := 6; end_ := 7 |} :: []))
                  ++ LoopCloseNode {| start := 7; end_ := 8 |}
                     :: [OutputNode {| start := 8; end_ := 9 |}]).
    cbn [app].
    apply nest_top_leaf; [auto |]. apply nest_top_leaf; [auto |].
    apply (nest_top_loop _ _
             (DecNode {| start := 3; end_ := 4 |} {| count := 1 |}
              :: FuncOpenNode {| start := 4; end_ := 5 |}
                 :: ([PrevNode {| start := 5; end_ := 6 |} {| count := 1 |}]
                     ++ FuncCloseNode {| start := 6; end_ := 7 |} :: []))).
    + apply nest_leaf; [reflexivity |].
      apply nest_func; [| reflexivity | constructor].
      apply nest_leaf; [reflexivity | constructor].
    + reflexivity.
    + apply nest_top_leaf; [auto | constructor].
  - vm_compute. reflexivity.
Qed.

(** ** More on the lexer *)

Lemma update_at_length f l : forall k,
  List.length (update_at l k f) = List.length l.
Proof.
  induction l as [| x l IH]; intros k; [reflexivity |].
  destruct k; cbn; [reflexivity | now rewrite IH].
Qed.

Lemma Append_length tl n :
  (List.length (TokenList.Nodes tl)
   <= List.length (TokenList.Nodes (TokenList.Append tl n))
   <= S (List.length (TokenList.Nodes tl)))%nat.
Proof.
  unfold TokenList.Append. destruct (Summarizable n && _).
  - destruct (TokenList.lastNode tl); cbn; rewrite ?update_at_length; lia.
  - cbn. rewrite length_app. cbn. lia.
Qed.

Lemma scan_bytes_length bs : forall i tl,
  (List.length (TokenList.Nodes tl)
   <= List.length (TokenList.Nodes (scan_bytes bs i tl))
   <= List.length (TokenList.Nodes tl) + List.length bs)%nat.
Proof.
  induction bs as [| b bs IH]; intros i tl; [cbn; lia |].
  rewrite scan_bytes_cons, Tokenize_body_char_node.
  destruct (char_node b i) as [n |].
  - pose proof (Append_length tl n).
    pose proof (IH (i + 1) (TokenList.Append tl n)). cbn [List.length]. lia.
  - pose proof (IH (i + 1) tl). cbn [List.length]. lia.
Qed.

(** The token list holds the preamble, the postamble and at most one
    node for each byte of the text. *)
Theorem Tokenize_length s :
  (2 <= List.length (TokenList.Nodes (Tokenize s)) <= String.length s + 2)%nat.
Proof.
  rewrite Tokenize_Nodes. cbn [List.length]. rewrite length_app.
  unfold tokens_from.
  pose proof (scan_bytes_length (bytes_of_string s) 0 TokenList.empty) as H.
  rewrite bytes_of_string_length in H. cbn in *. lia.
Qed.

Lemma merges_Add_r y x : merges y (Add x) = merges y x.
Proof. unfold merges. rewrite type_of_Add. now destruct x. Qed.

Lemma adjacent_ok_last l : forall x x',
  (forall y, merges y x' = merges y x) ->
  adjacent_ok (l ++ [x]) = true -> adjacent_ok (l ++ [x']) = true.
Proof.
  induction l as [| y l IH]; intros x x' Hm H; [reflexivity |].
  destruct l as [| z l].
  - cbn in *. now rewrite Hm.
  - cbn [app adjacent_ok] in *. apply andb_true_iff in H.
    destruct H as [H1 H2]. rewrite H1. cbn. now apply (IH x).
Qed.

Lemma adjacent_ok_snoc l : forall x n,
  merges x n = false ->
  adjacent_ok (l ++ [x]) = true -> adjacent_ok (l ++ [x; n]) = true.
Proof.
  induction l as [| y l IH]; intros x n Hm H.
  - cbn. now rewrite Hm.
  - destruct l as [| z l].
    + cbn in *. rewrite Hm. cbn. now rewrite andb_true_r in *.
    + cbn [app adjacent_ok] in *. apply andb_true_iff in H.
      destruct H as [H1 H2]. rewrite H1. cbn. now apply IH.
Qed.

Lemma Append_adjacent tl n :
  shaped tl ->
  adjacent_ok (TokenList.Nodes tl) = true ->
  adjacent_ok (TokenList.Nodes (TokenList.Append tl n)) = true.
Proof.
  intros [-> | (init & x & ->)] H.
  - now rewrite Append_empty.
  - rewrite Append_state. cbn [shift single TokenList.Nodes] in H.
    destruct (merges x n) eqn:E; cbn [shift single TokenList.Nodes].
    + apply (adjacent_ok_last init x); [| assumption].
      intros y. apply merges_Add_r.
    + rewrite <- app_assoc. cbn [app]. now apply adjacent_ok_snoc.
Qed.

Lemma scan_bytes_adjacent bs : forall i tl,
  shaped tl ->
  adjacent_ok (TokenList.Nodes tl) = true ->
  adjacent_ok (TokenList.Nodes (scan_bytes bs i tl)) = true.
Proof.
  induction bs as [| b bs IH]; intros i tl Hs H; [assumption |].
  rewrite scan_bytes_cons, Tokenize_body_char_node.
  destruct (char_node b i) as [n |]; [| now apply IH].
  destruct (Append_shaped tl n Hs) as (init & x & E & _).
  apply IH; [right; eauto | now apply Append_adjacent].
Qed.

(** The token list of a text never holds a countable node right after a
    node of the same type: [Append] has merged them. *)
Theorem Tokenize_adjacent s :
  adjacent_ok (TokenList.Nodes (Tokenize s)) = true.
Proof.
  rewrite Tokenize_scan. apply Append_adjacent.
  - apply scan_bytes_shaped, shaped_single.
  - apply scan_bytes_adjacent; [apply shaped_single | reflexivity].
Qed.

Lemma update_at_Forall (P : Node -> Prop) f l : forall k,
  (forall m, P m -> P (f m)) -> Forall P l -> Forall P (update_at l k f).
Proof.
  induction l as [| x l IH]; intros k Hf H; [constructor |].
  inversion H; subst. destruct k; cbn; constructor; auto.
Qed.

Lemma Append_Forall (P : Node -> Prop) tl n :
  (forall m, P m -> P (Add m)) ->
  Forall P (TokenList.Nodes tl) -> P n ->
  Forall P (TokenList.Nodes (TokenList.Append tl n)).
Proof.
  intros HA Ht Hn. unfold TokenList.Append.
  destruct (Summarizable n && _).
  - destruct (TokenList.lastNode tl); [| assumption].
    cbn. now apply update_at_Forall.
  - cbn. apply Forall_app. split; [assumption | now constructor].
Qed.

Lemma char_node_span c i n :
  char_node c i = Some n -> base n = {| start := i; end_ := int_add i 1 |}.
Proof.
  unfold char_node. case_ifs_eqn; intros [= <-];
  repeat match goal with
  | H : (_ =? _) = true |- _ => apply Z.eqb_eq in H; subst
  end; reflexivity.
Qed.

Lemma base_Add m : base (Add m) = base m.
Proof. now destruct m. Qed.

Lemma token_at_Add bs m : token_at bs m -> token_at bs (Add m).
Proof.
  unfold token_at, Pos, End_. now rewrite base_Add, type_of_Add.
Qed.

Lemma scan_bytes_token_at bs : forall pre tl,
  Forall (token_at (pre ++ bs)) (TokenList.Nodes tl) ->
  Forall (token_at (pre ++ bs))
    (TokenList.Nodes (scan_bytes bs (Z.of_nat (List.length pre)) tl)).
Proof.
  induction bs as [| b bs IH]; intros pre tl H; [assumption |].
  rewrite scan_bytes_cons, Tokenize_body_char_node.
  replace (pre ++ b :: bs) with ((pre ++ [b]) ++ bs) in *
    by now rewrite <- app_assoc.
  replace (Z.of_nat (List.length pre) + 1)
    with (Z.of_nat (List.length (pre ++ [b])))
    by (rewrite length_app; cbn; lia).
  apply IH.
  destruct (char_node b (Z.of_nat (List.length pre))) as [n |] eqn:Hn;
    [| assumption].
  apply Append_Forall; [apply token_at_Add | assumption |].
  pose proof (char_node_span _ _ _ Hn) as Hb.
  unfold token_at, Pos, End_. rewrite Hb. cbn [start end_].
  split; [rewrite !length_app; cbn; lia |]. split; [reflexivity |].
  exists b. rewrite Nat2Z.id. split.
  - rewrite <- app_assoc. cbn. rewrite nth_error_app2 by lia.
    now rewrite Nat.sub_diag.
  - eapply char_node_char_type. eassumption.
Qed.

Lemma Tokenize_token_at s n :
  In n (TokenList.Nodes (Tokenize s)) ->
  n = Preamble0 \/ n = Postamble0 \/ token_at (bytes_of_string s) n.
Proof.
  rewrite Tokenize_Nodes. cbn [In]. rewrite in_app_iff. cbn [In].
  intros [<- | [H | [<- | []]]]; auto.
  right. right. unfold tokens_from in H.
  pose proof (scan_bytes_token_at (bytes_of_string s) [] TokenList.empty
                (Forall_nil _)) as HF.
  cbn [app List.length Z.of_nat] in HF.
  rewrite Forall_forall in HF. now apply HF.
Qed.


Lemma count_of_app ty a b :
  count_of ty (a ++ b) = count_of ty a + count_of ty b.
Proof.
  induction a as [| x a IH]; [reflexivity |]. cbn. rewrite IH. lia.
Qed.

Lemma Summarizable_type x y :
  type_of x = type_of y -> Summarizable x = Summarizable y.
Proof. destruct x, y; cbn; congruence. Qed.

Lemma count_or0_Add x :
  Summarizable x = true -> count_or0 (Add x) = int_add (count_or0 x) 1.
Proof. destruct x; cbn; try discriminate; reflexivity. Qed.

Lemma char_node_weight c ty b i n :
  countable_char c = true -> char_type c = Some ty ->
  char_node b i = Some n ->
  (if NodeType_eqb (type_of n) ty then count_or0 n else 0) =
  (if b =? c then 1 else 0).
Proof.
  intros Hc Hty Hn. pose proof (char_node_char_type _ _ _ Hn) as Hb.
  destruct (b =? c) eqn:E.
  - apply Z.eqb_eq in E. subst b.
    assert (ty = type_of n) as -> by congruence.
    rewrite NodeType_eqb_refl.
    rewrite char_node_countable in Hn by assumption. injection Hn as <-.
    unfold op_node. case_ifs; reflexivity.
  - destruct (NodeType_eqb (type_of n) ty) eqn:Et; [| reflexivity].
    apply NodeType_eqb_eq in Et. subst ty.
    rewrite (char_type_inj _ _ _ Hb Hty), Z.eqb_refl in E. discriminate.
Qed.

Lemma char_node_count b i n : char_node b i = Some n -> 0 <= count_or0 n <= 1.
Proof.
  unfold char_node. case_ifs; intros [= <-]; cbn; lia.
Qed.

(** One step of the lexer, while the counts stay below [MaxInt]: the
    sum of the counts of a type grows by the count of the new node when
    it is of that type. *)
Lemma Append_count_of ty tl b i n k :
  shaped tl -> 0 <= k < MaxInt ->
  Forall (fun m => 0 <= count_or0 m <= k) (TokenList.Nodes tl) ->
  char_node b i = Some n ->
  count_of ty (TokenList.Nodes (TokenList.Append tl n)) =
    count_of ty (TokenList.Nodes tl)
    + (if NodeType_eqb (type_of n) ty then count_or0 n else 0) /\
  Forall (fun m => 0 <= count_or0 m <= k + 1)
    (TokenList.Nodes (TokenList.Append tl n)).
Proof.
  unfold MaxInt. intros Hs Hk HF Hn.
  pose proof (char_node_count _ _ _ Hn) as Hc.
  assert (Hw : forall l, Forall (fun m => 0 <= count_or0 m <= k) l ->
                         Forall (fun m => 0 <= count_or0 m <= k + 1) l).
  { intros l. apply Forall_impl. intros m. lia. }
  destruct Hs as [-> | (init & x & ->)].
  - rewrite Append_empty. cbn. split; [lia |].
    constructor; [lia | constructor].
  - rewrite Append_state. cbn [shift single TokenList.Nodes] in HF.
    apply Forall_app in HF. destruct HF as [Hi Hx].
    inversion Hx as [| ? ? Hx0 _]; subst.
    destruct (merges x n) eqn:E; cbn [shift single TokenList.Nodes].
    + unfold merges in E. apply andb_true_iff in E. destruct E as [Es Et].
      apply NodeType_eqb_eq in Et.
      rewrite (Summarizable_type _ _ (eq_sym Et)) in Es.
      assert (Hn1 : count_or0 n = 1).
      { rewrite (Summarizable_type _ _ Et) in Es. revert Hn Es.
        unfold char_node. case_ifs; intros [= <-]; cbn; congruence. }
      rewrite !count_of_app. cbn [count_of].
      rewrite type_of_Add, count_or0_Add, int_add_exact, <- Et, Hn1
        by (try assumption; lia).
      split; [destruct (NodeType_eqb (type_of x) ty); lia |].
      apply Forall_app. split; [now apply Hw |].
      constructor; [| constructor].
      rewrite count_or0_Add, int_add_exact by (try assumption; lia). lia.
    + rewrite <- app_assoc. cbn [app]. rewrite !count_of_app. cbn [count_of].
      split; [lia |].
      apply Forall_app. split; [now apply Hw |].
      constructor; [lia |]. constructor; [lia | constructor].
Qed.

Lemma scan_bytes_count_of c ty bs : forall i tl k,
  countable_char c = true -> char_type c = Some ty ->
  shaped tl -> 0 <= k -> k + Z.of_nat (List.length bs) <= MaxInt ->
  Forall (fun m => 0 <= count_or0 m <= k) (TokenList.Nodes tl) ->
  count_of ty (TokenList.Nodes (scan_bytes bs i tl)) =
  count_of ty (TokenList.Nodes tl) + occ c bs.
Proof.
  unfold MaxInt.
  induction bs as [| b bs IH]; intros i tl k Hc Hty Hs Hk Hb HF.
  - cbn. lia.
  - cbn [List.length] in Hb.
    rewrite scan_bytes_cons, Tokenize_body_char_node. cbn [occ].
    destruct (char_node b i) as [n |] eqn:Hn.
    + destruct (Append_count_of ty tl b i n k Hs ltac:(unfold MaxInt; lia)
                  HF Hn) as [E HF'].
      destruct (Append_shaped tl n Hs) as (init & x & Ex & _).
      rewrite (IH (i + 1) _ (k + 1)); try assumption; try lia.
      * rewrite E, (char_node_weight c ty b i n) by assumption. lia.
      * right. eauto.
    + rewrite (IH (i + 1) tl k); try assumption; try lia.
      apply char_node_recognized in Hn.
      destruct (b =? c) eqn:E; [| lia].
      apply Z.eqb_eq in E. subst b.
      rewrite (countable_recognized c Hc) in Hn. discriminate.
Qed.

(** The lexer loses no operation: in the token list of a text, the
    counts of the nodes of a countable type add up to the number of
    times the character of that type occurs in the text. *)
Theorem Tokenize_counts s c ty :
  countable_char (rune c) = true -> char_type (rune c) = Some ty ->
  Z.of_nat (String.length s) <= MaxInt ->
  count_of ty (TokenList.Nodes (Tokenize s)) = occurrences c s.
Proof.
  intros Hc Hty Hlen.
  rewrite Tokenize_scan, Append_not_summarizable, count_of_app by reflexivity.
  rewrite (scan_bytes_count_of (rune c) ty _ 0 _ 0); try assumption.
  - cbn. unfold occurrences. destruct ty; lia.
  - apply shaped_single.
  - lia.
  - rewrite bytes_of_string_length. lia.
  - constructor; [cbn; lia | constructor].
Qed.

Lemma Tokenize_counts_witness :
  count_of TInc (TokenList.Nodes (Tokenize "++a+[-]+")) =
  occurrences "+" "++a+[-]+".
Proof.
  apply (Tokenize_counts "++a+[-]+" "+"%char TInc).
  - reflexivity.
  - reflexivity.
  - vm_compute. discriminate.
Defined.

Lemma kind_Add x x' : kind x = kind x' -> kind (Add x) = kind (Add x').
Proof.
  unfold kind. destruct x, x'; cbn; intros H; try discriminate H;
    try reflexivity; injection H; intros; congruence.
Qed.

Lemma merges_kind x n x' n' :
  kind x = kind x' -> kind n = kind n' -> merges x n = merges x' n'.
Proof.
  unfold kind, merges. intros [= Hx _] [= Hn _].
  now rewrite (Summarizable_type _ _ Hn), Hx, Hn.
Qed.

Lemma alike_Nodes tl tl' :
  alike tl tl' ->
  map kind (TokenList.Nodes tl) = map kind (TokenList.Nodes tl').
Proof.
  intros [[-> ->] | (init & x & init' & x' & -> & -> & Hi & Hx)];
    [reflexivity |].
  cbn. rewrite !map_app, Hi. cbn. now rewrite Hx.
Qed.

Lemma alike_Append tl tl' n n' :
  alike tl tl' -> kind n = kind n' ->
  alike (TokenList.Append tl n) (TokenList.Append tl' n').
Proof.
  intros [[-> ->] | (init & x & init' & x' & -> & -> & Hi & Hx)] Hn.
  - rewrite !Append_empty. right. exists [], n, [], n'.
    now rewrite !shift_nil.
  - rewrite !Append_state, (merges_kind x n x' n' Hx Hn).
    destruct (merges x' n'); right.
    + exists init, (Add x), init', (Add x'). auto using kind_Add.
    + exists (init ++ [x]), n, (init' ++ [x']), n'.
      repeat split; try assumption.
      rewrite !map_app, Hi. cbn. now rewrite Hx.
Qed.

Lemma char_node_kind b i j n n' :
  char_node b i = Some n -> char_node b j = Some n' -> kind n = kind n'.
Proof.
  unfold char_node. case_ifs; intros [= <-] [= <-]; reflexivity.
Qed.

(** The kinds of the tokens of a text are those of the text with the
    unrecognized characters taken out. *)
Lemma scan_bytes_filter bs : forall i j tl tl',
  alike tl tl' ->
  alike (scan_bytes bs i tl) (scan_bytes (filter recognized bs) j tl').
Proof.
  induction bs as [| b bs IH]; intros i j tl tl' H; [assumption |].
  rewrite scan_bytes_cons. cbn [filter].
  destruct (recognized b) eqn:Hb.
  - rewrite scan_bytes_cons, !Tokenize_body_char_node.
    destruct (char_node b i) as [n |] eqn:Hn;
      [| apply char_node_recognized in Hn; congruence].
    destruct (char_node b j) as [n' |] eqn:Hn';
      [| apply char_node_recognized in Hn'; congruence].
    apply IH, alike_Append; [assumption |].
    eapply char_node_kind; eassumption.
  - rewrite Tokenize_body_unrecognized by assumption. now apply IH.
Qed.

(** Unrecognized characters are comments: two texts with the same
    recognized characters, in the same order, give token lists whose
    nodes have the same types and counts. *)
Theorem Tokenize_comments s s' :
  filter recognized (bytes_of_string s) =
  filter recognized (bytes_of_string s') ->
  map kind (TokenList.Nodes (Tokenize s)) =
  map kind (TokenList.Nodes (Tokenize s')).
Proof.
  intros H. rewrite !Tokenize_scan.
  assert (Ha : alike (single Preamble0) (single Preamble0)).
  { right. exists [], Preamble0, [], Preamble0. now rewrite shift_nil. }
  pose proof (scan_bytes_filter (bytes_of_string s) 0 0 _ _ Ha) as H1.
  pose proof (scan_bytes_filter (bytes_of_string s') 0 0 _ _ Ha) as H2.
  rewrite <- H in H2.
  apply (alike_Append _ _ Postamble0 Postamble0) in H1, H2;
    try reflexivity.
  apply alike_Nodes in H1, H2. congruence.
Qed.

Lemma Tokenize_comments_witness :
  map kind (TokenList.Nodes (Tokenize "+ a+[ x ]")) =
  map kind (TokenList.Nodes (Tokenize "++[]")).
Proof.
  apply (Tokenize_comments "+ a+[ x ]" "++[]"). reflexivity.
Defined.

(** ** More on the parser *)

Lemma In_skipn (m : nat) (l : list Node) x : In x (skipn m l) -> In x l.
Proof.
  intros H. rewrite <- (firstn_skipn m l). apply in_or_app. now right.
Qed.

(** The only error of the loop is that of a closer among its tokens. *)
Lemma ParseTokens_loop_Failed ts : forall n i p e,
  ParseTokens_loop ts n i p = Failed e ->
  exists c msg, In c ts /\ classify c = CClose msg /\ e = parseError c msg.
Proof.
  induction ts as [ts IH] using length_ind. intros n i p e.
  destruct ts as [| x rest].
  - rewrite ParseTokens_loop_equation_1. discriminate.
  - rewrite ParseTokens_loop_step. destruct (classify x) eqn:Hc.
    + destruct (ParseTokens_loop rest _ 0 _) as [[p2 skip] | e' |] eqn:E;
        try discriminate.
      * destruct (span_of p2) eqn:Hs; try discriminate.
        -- intros H. apply IH in H; [| cbn; rewrite length_skipn; lia].
           destruct H as (c & msg & Hin & H). exists c, msg.
           split; [right; eapply In_skipn; eassumption | assumption].
        -- unfold span_of, index in Hs.
           repeat match type of Hs with
           | context [if ?b then _ else _] => destruct b
           | context [match ?o with Some _ => _ | None => _ end] => destruct o
           end; discriminate.
      * intros [= <-]. apply IH in E; [| cbn; lia].
        destruct E as (c & msg & Hin & H). exists c, msg.
        split; [now right | assumption].
    + destruct (n =? 0); [| discriminate].
      intros [= <-]. exists x, msg. split; [now left | now split].
    + destruct (set_UseIO p) as [p' | e' |] eqn:Hs; try discriminate.
      * intros H. apply IH in H; [| cbn; lia].
        destruct H as (c & msg & Hin & H). exists c, msg.
        split; [now right | assumption].
      * unfold set_UseIO, index in Hs. cbn in Hs.
        destruct (ParseList.Nodes p) as [| [] l]; discriminate.
    + destruct (set_UseFmt p) as [p' | e' |] eqn:Hs; try discriminate.
      * intros H. apply IH in H; [| cbn; lia].
        destruct H as (c & msg & Hin & H). exists c, msg.
        split; [now right | assumption].
      * unfold set_UseFmt, index in Hs. cbn in Hs.
        destruct (ParseList.Nodes p) as [| [] l]; discriminate.
    + intros H. apply IH in H; [| cbn; lia].
      destruct H as (c & msg & Hin & H). exists c, msg.
      split; [now right | assumption].
Qed.

Lemma Parse_Failed_closer s e :
  Parse s = Failed e ->
  exists c msg,
    In c (TokenList.Nodes (Tokenize s)) /\
    classify c = CClose msg /\
    e = parseError c msg /\
    token_at (bytes_of_string s) c.
Proof.
  unfold Parse, ParseTokens.
  destruct (ParseTokens_loop _ 0 0 _) as [[q k] | e' |] eqn:E;
    try discriminate.
  intros [= <-]. apply ParseTokens_loop_Failed in E.
  destruct E as (c & msg & Hin & Hc & He). exists c, msg.
  split; [assumption |]. split; [assumption |]. split; [assumption |].
  destruct (Tokenize_token_at s c Hin) as [-> | [-> | H]];
    try discriminate Hc. exact H.
Qed.

(** Whenever [Parse] returns an error, it is the error of a closer of
    the token list of the text: the faulty node is that closer, whose
    span is the byte of a ["]"] or ["}"] of the text, and the message is
    the one [parseError] formats for it. *)
Theorem Parse_Failed s e :
  Parse s = Failed e ->
  exists c msg,
    In c (TokenList.Nodes (Tokenize s)) /\
    classify c = CClose msg /\
    e = parseError c msg /\
    token_at (bytes_of_string s) c.
Proof.
  exact (Parse_Failed_closer s e).
Qed.

Lemma Parse_Failed_witness :
  exists c msg,
    In c (TokenList.Nodes (Tokenize "+]")) /\
    classify c = CClose msg /\
    parseError (LoopCloseNode {| start := 1; end_ := 2 |})
               "Loop closed while not open" = parseError c msg /\
    token_at (bytes_of_string "+]") c.
Proof.
  apply (Parse_Failed "+]"). vm_compute. reflexivity.
Defined.

(** A call at a positive nesting, in range, returns no error: errors
    come from the outermost call only. *)
Theorem ParseTokens_loop_nested_no_error ts : forall n i p e,
  0 < n -> n + len ts <= MaxInt ->
  ParseTokens_loop ts n i p <> Failed e.
Proof.
  unfold len, MaxInt.
  induction ts as [ts IH] using length_ind. intros n i p e Hn Hb.
  destruct ts as [| x rest].
  - rewrite ParseTokens_loop_equation_1. discriminate.
  - cbn [List.length] in Hb. rewrite ParseTokens_loop_step.
    destruct (classify x).
    + destruct (ParseTokens_loop rest _ 0 _) as [[p2 skip] | e' |] eqn:E;
        try discriminate.
      * destruct (span_of p2) eqn:Hs; try discriminate.
        -- apply IH; [cbn; rewrite length_skipn; lia | lia
                      | rewrite length_skipn; lia].
        -- unfold span_of, index in Hs.
           repeat match type of Hs with
           | context [if ?b then _ else _] => destruct b
           | context [match ?o with Some _ => _ | None => _ end] => destruct o
           end; discriminate.
      * exfalso. revert E. apply IH; [cbn; lia | |];
          rewrite int_add_exact by lia; lia.
    + destruct (n =? 0) eqn:E; [apply Z.eqb_eq in E; lia | discriminate].
    + destruct (set_UseIO p) as [p' | e' |] eqn:Hs; try discriminate.
      * apply IH; [cbn; lia | lia | lia].
      * unfold set_UseIO, index in Hs. cbn in Hs.
        destruct (ParseList.Nodes p) as [| [] l]; discriminate.
    + destruct (set_UseFmt p) as [p' | e' |] eqn:Hs; try discriminate.
      * apply IH; [cbn; lia | lia | lia].
      * unfold set_UseFmt, index in Hs. cbn in Hs.
        destruct (ParseList.Nodes p) as [| [] l]; discriminate.
    + apply IH; [cbn; lia | lia | lia].
Qed.

Lemma ParseTokens_loop_nested_no_error_witness :
  ParseTokens_loop
    [IncNode {| start := 1; end_ := 2 |} {| count := 1 |};
     LoopCloseNode {| start := 2; end_ := 3 |}; Postamble0]
    1 0 ParseList.empty
  <> Failed (parseError (LoopCloseNode {| start := 2; end_ := 3 |})
                        "Loop closed while not open").
Proof.
  apply ParseTokens_loop_nested_no_error.
  - lia.
  - vm_compute. discriminate.
Defined.

(** ** The encoder on the lists of the parser *)

Lemma Node_nested_ind (P : Node -> Prop) :
  (forall n, is_token n = true -> P n) ->
  (forall b l, Forall P l -> P (LoopNode b l)) ->
  (forall b l, Forall P l -> P (FunctionNode b l)) ->
  forall n, P n.
Proof.
  intros Ht HL HF. fix IH 1. intros n.
  destruct n; try (apply Ht; reflexivity).
  - apply HL. induction Nodes as [| x l IHl]; constructor;
      [apply IH | exact IHl].
  - apply HF. induction Nodes as [| x l IHl]; constructor;
      [apply IH | exact IHl].
Qed.

Lemma Code_LoopNode b l :
  Code (LoopNode b l) = Code_children l LoopNode_header LoopNode_footer.
Proof.
  reflexivity.
Qed.

Lemma Code_FunctionNode b l :
  Code (FunctionNode b l) =
  Code_children l FunctionNode_header FunctionNode_footer.
Proof.
  reflexivity.
Qed.

Lemma deep_encodable_LoopNode b l :
  deep_encodable (LoopNode b l) = forallb deep_encodable l.
Proof.
  cbn [deep_encodable Encodable andb].
  induction l as [| x l IH]; [reflexivity |].
  cbn [forallb]. now rewrite <- IH.
Qed.

Lemma deep_encodable_FunctionNode b l :
  deep_encodable (FunctionNode b l) = forallb deep_encodable l.
Proof.
  cbn [deep_encodable Encodable andb].
  induction l as [| x l IH]; [reflexivity |].
  cbn [forallb]. now rewrite <- IH.
Qed.

Lemma deep_encodable_Encodable n : deep_encodable n = true -> Encodable n = true.
Proof.
  destruct n; cbn [deep_encodable]; intros H;
    apply andb_true_iff in H; tauto.
Qed.

Lemma Code_children_total l :
  Forall (fun n => deep_encodable n = true -> exists c, Code n = Returned c) l ->
  forallb deep_encodable l = true ->
  forall code footer, exists out, Code_children l code footer = Returned out.
Proof.
  induction 1 as [| x l Hx _ IH]; intros Hd code footer.
  - eexists. reflexivity.
  - cbn [forallb] in Hd. apply andb_true_iff in Hd. destruct Hd as [Hdx Hd].
    cbn [Code_children]. rewrite (deep_encodable_Encodable x Hdx).
    destruct (Hx Hdx) as [c ->]. now apply IH.
Qed.

(** [Code] returns on every node that, with all the nodes below it, is
    no marker. *)
Lemma Code_total n : deep_encodable n = true -> exists c, Code n = Returned c.
Proof.
  induction n as [n Hn | b l IH | b l IH] using Node_nested_ind.
  - destruct n; try discriminate Hn; try discriminate;
      intros _; eexists; reflexivity.
  - rewrite deep_encodable_LoopNode, Code_LoopNode. intros Hd.
    now apply Code_children_total.
  - rewrite deep_encodable_FunctionNode, Code_FunctionNode. intros Hd.
    now apply Code_children_total.
Qed.

Lemma Encode_loop_total l : forall code,
  forallb deep_encodable l = true ->
  exists out, Encode_loop l code = Returned out.
Proof.
  induction l as [| x l IH]; intros code Hd.
  - eexists. reflexivity.
  - cbn [forallb] in Hd. apply andb_true_iff in Hd. destruct Hd as [Hx Hd].
    cbn [Encode_loop]. rewrite (deep_encodable_Encodable x Hx).
    destruct (Code_total x Hx) as [c ->]. now apply IH.
Qed.

Lemma is_token_deep x :
  is_token x = true -> deep_encodable x = Encodable x.
Proof. destruct x; try discriminate; reflexivity. Qed.

Lemma forallb_skipn (f : Node -> bool) m l :
  forallb f l = true -> forallb f (skipn m l) = true.
Proof.
  intros H. rewrite <- (firstn_skipn m l), forallb_app in H.
  now apply andb_true_iff in H.
Qed.

(** The loop of the parser appends no marker, at any depth. *)
Lemma ParseTokens_loop_deep ts : forall n i p q k,
  forallb is_token ts = true ->
  forallb deep_encodable (ParseList.Nodes p) = true ->
  ParseTokens_loop ts n i p = Returned (q, k) ->
  forallb deep_encodable (ParseList.Nodes q) = true.
Proof.
  induction ts as [ts IH] using length_ind. intros n i p q k Ht Hp.
  destruct ts as [| x rest].
  - rewrite ParseTokens_loop_equation_1. now intros [= <- _].
  - cbn [forallb] in Ht. apply andb_true_iff in Ht. destruct Ht as [Hx Ht].
    rewrite ParseTokens_loop_step. destruct (classify x) eqn:Hc.
    + destruct (ParseTokens_loop rest _ 0 _) as [[p2 skip] | |] eqn:E;
        try discriminate.
      apply IH in E; [| cbn; lia | assumption | reflexivity].
      destruct (span_of p2); try discriminate.
      apply IH; [cbn; rewrite length_skipn; lia | now apply forallb_skipn |].
      unfold ParseList.Append. cbn. rewrite forallb_app, Hp. cbn.
      rewrite andb_true_r.
      destruct x; try discriminate Hc; injection Hc as <-;
        [now rewrite deep_encodable_LoopNode
        | now rewrite deep_encodable_FunctionNode].
    + destruct (n =? 0); [discriminate |]. now intros [= <- _].
    + destruct (set_UseIO p) as [p' | |] eqn:Hs; try discriminate.
      apply set_UseIO_inv in Hs.
      destruct Hs as (b & io & fm & p0 & Hp0 & Hp').
      apply IH; [cbn; lia | assumption |].
      unfold ParseList.Append. cbn. rewrite Hp0 in Hp. rewrite Hp'.
      cbn in *. rewrite forallb_app, Hp. cbn.
      now destruct x; try discriminate Hc.
    + destruct (set_UseFmt p) as [p' | |] eqn:Hs; try discriminate.
      apply set_UseFmt_inv in Hs.
      destruct Hs as (b & io & fm & p0 & Hp0 & Hp').
      apply IH; [cbn; lia | assumption |].
      unfold ParseList.Append. cbn. rewrite Hp0 in Hp. rewrite Hp'.
      cbn in *. rewrite forallb_app, Hp. cbn.
      now destruct x; try discriminate Hc.
    + apply IH; [cbn; lia | assumption |].
      unfold ParseList.Append. cbn. rewrite forallb_app, Hp. cbn.
      rewrite andb_true_r, is_token_deep by assumption.
      now destruct x; try discriminate Hc.
Qed.

Lemma Tokenize_is_token s :
  forallb is_token (TokenList.Nodes (Tokenize s)) = true.
Proof.
  rewrite Tokenize_Nodes. cbn [forallb is_token Preamble0 andb].
  rewrite forallb_app. cbn. rewrite andb_true_r. unfold tokens_from.
  apply (scan_bytes_forallb (fun _ => true) is_token).
  - intros c j n _. unfold char_node. case_ifs; intros [= <-]; reflexivity.
  - intros m. now destruct m.
  - apply forallb_forall. reflexivity.
  - reflexivity.
Qed.

Lemma Parse_Encode_total s p :
  Parse s = Returned p -> exists out, Encode p = Returned out.
Proof.
  unfold Parse, ParseTokens.
  destruct (ParseTokens_loop _ 0 0 _) as [[q k] | |] eqn:E; try discriminate.
  intros [= <-]. apply Encode_loop_total.
  eapply ParseTokens_loop_deep; [apply Tokenize_is_token | | exact E].
  reflexivity.
Qed.

(** The encoder returns on every list the parser returns: the lists of
    [Parse] hold no marker at any depth, so that no assertion to
    [Encodable] fails. *)
Theorem Parse_Encode s p :
  Parse s = Returned p -> exists out, Encode p = Returned out.
Proof.
  exact (Parse_Encode_total s p).
Qed.

Lemma Parse_Encode_witness :
  exists out,
    Encode
      {| ParseList.Nodes :=
           [Preamble0;
            LoopNode {| start := 1; end_ := 2 |}
              [DecNode {| start := 1; end_ := 2 |} {| count := 1 |}];
            Postamble0] |} = Returned out.
Proof.
  apply (Parse_Encode "[-]"). vm_compute. reflexivity.
Defined.

(** ** The kind of a closer *)

Lemma Forall2_skipn {A} (R : A -> A -> Prop) m : forall l l',
  Forall2 R l l' -> Forall2 R (skipn m l) (skipn m l').
Proof.
  induction m as [| m IH]; intros l l' H; [assumption |].
  destruct H; [constructor | now apply IH].
Qed.

Lemma Forall2_same (l : list Node) : Forall2 same_but_closers l l.
Proof.
  induction l; constructor; [now left | assumption].
Qed.

(** What the loop returns does not depend on the kinds of the closers. *)
Lemma ParseTokens_loop_closers ts : forall ts' n i p r,
  Forall2 same_but_closers ts ts' ->
  ParseTokens_loop ts n i p = Returned r ->
  ParseTokens_loop ts' n i p = Returned r.
Proof.
  induction ts as [ts IH] using length_ind. intros ts' n i p r HF.
  destruct HF as [| x y rest rest' Hxy HF].
  - trivial.
  - rewrite !ParseTokens_loop_step.
    destruct Hxy as [<- | (m1 & m2 & -> & ->)].
    + destruct (classify x).
      * destruct (ParseTokens_loop rest _ 0 _) as [[p2 skip] | |] eqn:E;
          try discriminate.
        apply (IH rest ltac:(cbn; lia) rest') in E; [| assumption].
        rewrite E. destruct (span_of p2); try discriminate.
        apply IH; [cbn; rewrite length_skipn; lia | now apply Forall2_skipn].
      * trivial.
      * destruct (set_UseIO p); try discriminate.
        apply IH; [cbn; lia | assumption].
      * destruct (set_UseFmt p); try discriminate.
        apply IH; [cbn; lia | assumption].
      * apply IH; [cbn; lia | assumption].
    + destruct (n =? 0); [discriminate | trivial].
Qed.

(** The parser does not check that a closer is of the kind of its
    opener: a ["]"] of a text can be replaced by a ["}"], and a ["}"] by
    a ["]"], without any change to the list that [Parse] returns. *)
Theorem Parse_closer_kind a b p :
  Parse (a ++ String "]" b) = Returned p <->
  Parse (a ++ String "}" b) = Returned p.
Proof.
  unfold Parse, ParseTokens. rewrite !Tokenize_Nodes.
  rewrite (tokens_from_uncountable a b "]"%char _ eq_refl eq_refl).
  rewrite (tokens_from_uncountable a b "}"%char _ eq_refl eq_refl).
  set (lc := LoopCloseNode _). set (fc := FuncCloseNode _).
  assert (H1 : Forall2 same_but_closers
                 (Preamble0 :: (tokens_from 0 a ++ lc :: tokens_from
                    (Z.of_nat (String.length a) + 1) b) ++ [Postamble0])
                 (Preamble0 :: (tokens_from 0 a ++ fc :: tokens_from
                    (Z.of_nat (String.length a) + 1) b) ++ [Postamble0])).
  { constructor; [now left |].
    apply Forall2_app; [| apply Forall2_same].
    apply Forall2_app; [apply Forall2_same |].
    constructor; [| apply Forall2_same].
    right. do 2 eexists. split; reflexivity. }
  assert (H2 : Forall2 same_but_closers
                 (Preamble0 :: (tokens_from 0 a ++ fc :: tokens_from
                    (Z.of_nat (String.length a) + 1) b) ++ [Postamble0])
                 (Preamble0 :: (tokens_from 0 a ++ lc :: tokens_from
                    (Z.of_nat (String.length a) + 1) b) ++ [Postamble0])).
  { constructor; [now left |].
    apply Forall2_app; [| apply Forall2_same].
    apply Forall2_app; [apply Forall2_same |].
    constructor; [| apply Forall2_same].
    right. do 2 eexists. split; reflexivity. }
  split; intros H.
  - destruct (ParseTokens_loop (Preamble0 :: (_ ++ lc :: _) ++ _) 0 0 _)
      as [[q k] | |] eqn:E; try discriminate.
    now rewrite (ParseTokens_loop_closers _ _ _ _ _ _ H1 E).
  - destruct (ParseTokens_loop (Preamble0 :: (_ ++ fc :: _) ++ _) 0 0 _)
      as [[q k] | |] eqn:E; try discriminate.
    now rewrite (ParseTokens_loop_closers _ _ _ _ _ _ H2 E).
Qed.

(** ** The code of a list put together *)

Lemma string_app_nil_r (a : string) : (a ++ "")%string = a.
Proof. induction a as [| x a IH]; [reflexivity |]. cbn. now rewrite IH. Qed.

Lemma Encode_loop_shift l : forall code out,
  Encode_loop l code = Returned out ->
  exists t, out = (code ++ t)%string /\
            forall code', Encode_loop l code' = Returned (code' ++ t)%string.
Proof.
  induction l as [| x l IH]; intros code out H.
  - cbn in H. injection H as <-. exists ""%string.
    split; [now rewrite string_app_nil_r |].
    intros code'. cbn. now rewrite string_app_nil_r.
  - cbn [Encode_loop] in *. destruct (Encodable x).
    + destruct (Code x) as [c | |]; try discriminate.
      apply IH in H. destruct H as (t & -> & Ht).
      exists (tab ++ c ++ t)%string. split.
      * now rewrite !string_app_assoc.
      * intros code'. rewrite Ht. now rewrite !string_app_assoc.
    + apply IH in H. exact H.
Qed.

Lemma Encode_loop_app l1 : forall l2 code,
  Encode_loop (l1 ++ l2) code =
  match Encode_loop l1 code with
  | Returned c => Encode_loop l2 c
  | Failed e => Failed e
  | Panicked k => Panicked k
  end.
Proof.
  induction l1 as [| x l1 IH]; intros l2 code; [reflexivity |].
  cbn [app Encode_loop]. destruct (Encodable x); [| apply IH].
  destruct (Code x); try reflexivity. apply IH.
Qed.

(** The code of two lists put end to end is the code of the first
    followed by the code of the second. *)
Theorem Encode_app l1 l2 c1 c2 :
  Encode {| ParseList.Nodes := l1 |} = Returned c1 ->
  Encode {| ParseList.Nodes := l2 |} = Returned c2 ->
  Encode {| ParseList.Nodes := l1 ++ l2 |} = Returned (c1 ++ c2)%string.
Proof.
  unfold Encode. cbn [ParseList.Nodes]. intros H1 H2.
  rewrite Encode_loop_app, H1.
  apply Encode_loop_shift in H2. destruct H2 as (t & -> & Ht).
  now rewrite Ht.
Qed.

Lemma Encode_app_witness :
  Encode
    {| ParseList.Nodes :=
         [IncNode {| start := 0; end_ := 1 |} {| count := 2 |}]
         ++ [OutputNode {| start := 2; end_ := 3 |}] |} =
  Returned (cat [tab; IncNode_Code 2] ++ cat [tab; OutputNode_Code])%string.
Proof.
  apply Encode_app; reflexivity.
Defined.

(** ** The ends of the list of the parser *)

(** A count other than 0 is the index after a closer. *)
Lemma ParseTokens_loop_count_closer ts : forall n i p q k,
  0 <= i -> i + len ts <= MaxInt ->
  ParseTokens_loop ts n i p = Returned (q, k) -> k <> 0 ->
  exists c msg,
    nth_error ts (Z.to_nat (k - i - 1)) = Some c /\ classify c = CClose msg.
Proof.
  induction ts as [ts IH] using length_ind. intros n i p q k Hi Hb H Hk.
  pose proof (ParseTokens_loop_count ts n i p q k Hi Hb H) as Hr.
  unfold len, MaxInt in *.
  destruct ts as [| x rest].
  - rewrite ParseTokens_loop_equation_1 in H. injection H as _ H. congruence.
  - cbn [List.length] in Hb, Hr. rewrite ParseTokens_loop_step in H.
    destruct (classify x) eqn:Hc.
    + destruct (ParseTokens_loop rest _ 0 _) as [[p2 s] | |] eqn:E;
        try discriminate.
      pose proof (ParseTokens_loop_count rest _ 0 _ p2 s (Z.le_refl 0)
                    ltac:(unfold len, MaxInt; lia) E) as Hs.
      unfold len in Hs.
      destruct (span_of p2); try discriminate.
      rewrite (int_add_exact i s) in H by lia.
      rewrite int_add_exact in H by lia.
      pose proof H as Hk'.
      apply ParseTokens_loop_count in Hk';
        [| lia | unfold len, MaxInt; rewrite length_skipn; lia].
      apply IH in H;
        [| cbn; rewrite length_skipn; lia | lia | rewrite length_skipn; lia
         | assumption].
      destruct H as (c & msg & Hn & Hcl). exists c, msg. split; [| assumption].
      rewrite nth_error_skipn in Hn.
      replace (Z.to_nat (k - i - 1))
        with (S (Z.to_nat s + Z.to_nat (k - (i + s + 1) - 1))) by lia.
      exact Hn.
    + destruct (n =? 0); [discriminate |].
      rewrite int_add_exact in H by lia. injection H as _ <-.
      exists x, msg. replace (Z.to_nat (i + 1 - i - 1)) with 0%nat by lia.
      now split.
    + destruct (set_UseIO p); try discriminate.
      rewrite int_add_exact in H by lia.
      pose proof H as Hk'.
      apply ParseTokens_loop_count in Hk'; [| lia | unfold len, MaxInt; lia].
      apply IH in H; [| cbn; lia | lia | lia | assumption].
      destruct H as (c & msg & Hn & Hcl). exists c, msg. split; [| assumption].
      replace (Z.to_nat (k - i - 1)) with (S (Z.to_nat (k - (i + 1) - 1)))
        by lia.
      exact Hn.
    + destruct (set_UseFmt p); try discriminate.
      rewrite int_add_exact in H by lia.
      pose proof H as Hk'.
      apply ParseTokens_loop_count in Hk'; [| lia | unfold len, MaxInt; lia].
      apply IH in H; [| cbn; lia | lia | lia | assumption].
      destruct H as (c & msg & Hn & Hcl). exists c, msg. split; [| assumption].
      replace (Z.to_nat (k - i - 1)) with (S (Z.to_nat (k - (i + 1) - 1)))
        by lia.
      exact Hn.
    + rewrite int_add_exact in H by lia.
      pose proof H as Hk'.
      apply ParseTokens_loop_count in Hk'; [| lia | unfold len, MaxInt; lia].
      apply IH in H; [| cbn; lia | lia | lia | assumption].
      destruct H as (c & msg & Hn & Hcl). exists c, msg. split; [| assumption].
      replace (Z.to_nat (k - i - 1)) with (S (Z.to_nat (k - (i + 1) - 1)))
        by lia.
      exact Hn.
Qed.

(** A call that ran to the end of tokens whose last is no marker, input
    or output has that token as the last node of its list. *)
Lemma ParseTokens_loop_last ts : forall n i p q x ts0,
  0 <= i -> i + len ts <= MaxInt ->
  ts = ts0 ++ [x] -> classify x = CPlain ->
  ParseTokens_loop ts n i p = Returned (q, 0) ->
  exists q0, ParseList.Nodes q = q0 ++ [x].
Proof.
  induction ts as [ts IH] using length_ind.
  intros n i p q x ts0 Hi Hb Hts Hx H.
  unfold len, MaxInt in *.
  destruct ts as [| y rest]; [now destruct ts0 |].
  cbn [List.length] in Hb. rewrite ParseTokens_loop_step in H.
  destruct ts0 as [| y' ts0]; cbn [app] in Hts; injection Hts as -> ->.
  - rewrite Hx, ParseTokens_loop_equation_1 in H. injection H as <-.
    now exists (ParseList.Nodes p).
  - destruct (classify y') eqn:Hc.
    + destruct (ParseTokens_loop (ts0 ++ [x]) _ 0 _) as [[p2 s] | |] eqn:E;
        try discriminate.
      pose proof (ParseTokens_loop_count (ts0 ++ [x]) _ 0 _ p2 s (Z.le_refl 0)
                    ltac:(unfold len, MaxInt; lia) E) as Hs.
      unfold len in Hs. rewrite length_app in Hs, Hb. cbn [List.length] in Hs, Hb.
      destruct (span_of p2); try discriminate.
      rewrite (int_add_exact i s) in H by lia.
      rewrite int_add_exact in H by lia.
      destruct (Z.eq_dec s (Z.of_nat (List.length ts0) + 1)) as [Es | Es].
      * exfalso.
        apply ParseTokens_loop_count_closer in E;
          [| lia | unfold len, MaxInt; rewrite length_app; cbn; lia | lia].
        destruct E as (c & msg & Hn & Hcl).
        replace (Z.to_nat (s - 0 - 1)) with (List.length ts0) in Hn by lia.
        rewrite nth_error_app2, Nat.sub_diag in Hn by lia.
        injection Hn as <-. congruence.
      * rewrite skipn_app in H.
        replace (Z.to_nat s - List.length ts0)%nat with 0%nat in H by lia.
        cbn [skipn] in H.
        eapply (IH (skipn (Z.to_nat s) ts0 ++ [x])); try exact H;
          try reflexivity; try assumption.
        -- cbn. rewrite !length_app, length_skipn. cbn. lia.
        -- lia.
        -- rewrite length_app, length_skipn. cbn. lia.
    + destruct (n =? 0); [discriminate |].
      rewrite int_add_exact in H by lia. injection H as _ H. lia.
    + destruct (set_UseIO p); try discriminate.
      rewrite int_add_exact in H by lia.
      eapply (IH (ts0 ++ [x])); try exact H; try reflexivity;
        try assumption; cbn; lia.
    + destruct (set_UseFmt p); try discriminate.
      rewrite int_add_exact in H by lia.
      eapply (IH (ts0 ++ [x])); try exact H; try reflexivity;
        try assumption; cbn; lia.
    + rewrite int_add_exact in H by lia.
      eapply (IH (ts0 ++ [x])); try exact H; try reflexivity;
        try assumption; cbn; lia.
Qed.

(** Whenever [Parse] returns, its list starts with the preamble and
    ends with the postamble, also when an opener of the text has no
    closer. *)
Theorem Parse_frame s p :
  len (TokenList.Nodes (Tokenize s)) <= MaxInt ->
  Parse s = Returned p ->
  exists mid,
    ParseList.Nodes p =
    PreambleNode {| start := 0; end_ := 0 |} (contains "," s) (contains "." s)
    :: mid ++ [Postamble0].
Proof.
  intros Hlen H.
  destruct (Parse_preamble_flags s p Hlen H) as [rest Hp].
  unfold Parse, ParseTokens in H. rewrite Tokenize_Nodes in H, Hlen.
  destruct (ParseTokens_loop _ 0 0 _) as [[q k] | |] eqn:E; try discriminate.
  injection H as ->.
  pose proof (ParseTokens_loop_nesting0 _ _ _ _ _ E) as ->.
  apply (ParseTokens_loop_last _ _ _ _ _ Postamble0
           (Preamble0 :: tokens_from 0 s)) in E;
    try reflexivity; try lia; try assumption.
  destruct E as [q0 Hq]. rewrite Hp in Hq.
  destruct q0 as [| h q0]; [discriminate Hq |].
  injection Hq as _ ->. now exists q0.
Qed.

Lemma Parse_frame_witness :
  exists mid,
    ParseList.Nodes
      {| ParseList.Nodes :=
           [Preamble0;
            LoopNode {| start := 1; end_ := 0 |}
              [IncNode {| start := 1; end_ := 2 |} {| count := 1 |};
               Postamble0];
            IncNode {| start := 1; end_ := 2 |} {| count := 1 |};
            Postamble0] |} =
    PreambleNode {| start := 0; end_ := 0 |}
      (contains "," "[+") (contains "." "[+")
    :: mid ++ [Postamble0].
Proof.
  apply (Parse_frame "[+").
  - vm_compute. discriminate.
  - vm_compute. reflexivity.
Defined.

(** ** Texts without markers *)

Lemma nest_top_plain ts : forallb Encodable ts = true -> nest_top ts ts.
Proof.
  induction ts as [| x ts IH]; intros H; [constructor |].
  cbn [forallb] in H. apply andb_true_iff in H. destruct H as [Hx H].
  apply nest_top_leaf; [| now apply IH].
  destruct x; try discriminate Hx; cbn; auto.
Qed.

(** A text without brackets and braces is always parsed, into the list
    of its tokens, with the flags of the preamble set for the input and
    output characters of the text. *)
Theorem Parse_no_markers s :
  forallb (fun b => negb (marker_char b)) (bytes_of_string s) = true ->
  len (TokenList.Nodes (Tokenize s)) < MaxInt ->
  Parse s =
  Returned
    {| ParseList.Nodes :=
         PreambleNode {| start := 0; end_ := 0 |}
           (contains "," s) (contains "." s)
         :: tokens_from 0 s ++ [Postamble0] |}.
Proof.
  intros Hs Hlen. apply Parse_nest_top; [| assumption].
  now apply nest_top_plain, tokens_from_Encodable.
Qed.

Lemma Parse_no_markers_witness :
  Parse "+,>." =
  Returned
    {| ParseList.Nodes :=
         PreambleNode {| start := 0; end_ := 0 |}
           (contains "," "+,>.") (contains "." "+,>.")
         :: tokens_from 0 "+,>." ++ [Postamble0] |}.
Proof.
  apply (Parse_no_markers "+,>.").
  - reflexivity.
  - vm_compute. reflexivity.
Defined.

Lemma Parse_well_bracketed_witness :
  Parse "+[-]" =
  Returned
    {| ParseList.Nodes :=
         PreambleNode {| start := 0; end_ := 0 |}
           (contains "," "+[-]") (contains "." "+[-]")
         :: [IncNode {| start := 0; end_ := 1 |} {| count := 1 |};
             LoopNode {| start := 2; end_ := 3 |}
               [DecNode {| start := 2; end_ := 3 |} {| count := 1 |}]]
            ++ [Postamble0] |}.
Proof.
  apply (Parse_well_bracketed "+[-]").
  - change (tokens_from 0 "+[-]")
      with (IncNode {| start := 0; end_ := 1 |} {| count := 1 |}
            :: LoopOpenNode {| start := 1; end_ := 2 |}
               :: [DecNode {| start := 2; end_ := 3 |} {| count := 1 |}]
                  ++ LoopCloseNode {| start := 3; end_ := 4 |} :: []).
    apply nest_top_leaf; [auto |].
    apply nest_top_loop; [| reflexivity | constructor].
    apply nest_leaf; [reflexivity | constructor].
  - vm_compute. reflexivity.
Defined.

(** ** Input and output below the top level *)

Lemma count_type_LoopNode ty b l :
  count_type ty (LoopNode b l) =
  ((if NodeType_eqb TLoop ty then 1 else 0) + count_type_list ty l)%nat.
Proof.
  reflexivity.
Qed.

Lemma count_type_FunctionNode ty b l :
  count_type ty (FunctionNode b l) =
  ((if NodeType_eqb TFunction ty then 1 else 0) + count_type_list ty l)%nat.
Proof.
  reflexivity.
Qed.

Lemma count_type_list_io_free ty l :
  ty = TInput \/ ty = TOutput ->
  Forall io_free l -> count_type_list ty l = 0%nat.
Proof.
  intros Hty. induction 1 as [| x l [Hi Ho] _ IH]; [reflexivity |].
  change (count_type_list ty (x :: l))
    with (count_type ty x + count_type_list ty l)%nat.
  rewrite IH. destruct Hty as [-> | ->]; lia.
Qed.

(** A call that starts from a list without the preamble appends nodes
    without input and output, at any depth. *)
Lemma ParseTokens_loop_inner_io ts : forall n i p q k,
  forallb is_token ts = true ->
  has_type TPreamble ts = false ->
  head_preamble p = false ->
  ParseTokens_loop ts n i p = Returned (q, k) ->
  exists d, ParseList.Nodes q = ParseList.Nodes p ++ d /\ Forall io_free d.
Proof.
  induction ts as [ts IH] using length_ind. intros n i p q k Ht Hnp Hp.
  destruct ts as [| x rest].
  - rewrite ParseTokens_loop_equation_1. intros [= <- _].
    exists []. now rewrite app_nil_r.
  - cbn [forallb] in Ht. apply andb_true_iff in Ht. destruct Ht as [Hx Ht].
    unfold has_type in Hnp. cbn [existsb] in Hnp.
    apply orb_false_iff in Hnp. destruct Hnp as [Hxp Hnp].
    fold (has_type TPreamble rest) in Hnp.
    rewrite ParseTokens_loop_step. destruct (classify x) eqn:Hc.
    + destruct (ParseTokens_loop rest _ 0 _) as [[p2 s] | |] eqn:E;
        try discriminate.
      apply IH in E; [| cbn; lia | assumption | assumption | reflexivity].
      destruct E as (d2 & Hd2 & HF2). cbn in Hd2.
      destruct (span_of p2) as [b | |]; try discriminate.
      intros H. apply IH in H;
        [| cbn; rewrite length_skipn; lia | now apply forallb_skipn
         | now apply has_type_skipn
         | apply head_preamble_Append_false; [assumption |];
           destruct x; try discriminate Hc; injection Hc as <-; reflexivity].
      destruct H as (d & Hd & HF).
      exists (mk b (ParseList.Nodes p2) :: d). split.
      * rewrite Hd. unfold ParseList.Append. cbn. now rewrite <- app_assoc.
      * constructor; [| assumption]. rewrite Hd2.
        destruct x; try discriminate Hc; injection Hc as <-; split;
          rewrite ?count_type_LoopNode, ?count_type_FunctionNode;
          rewrite count_type_list_io_free; auto.
    + destruct (n =? 0); [discriminate |]. intros [= <- _].
      exists []. now rewrite app_nil_r.
    + destruct (set_UseIO p) as [p' | |] eqn:Hs; try discriminate.
      apply set_UseIO_head in Hs. destruct Hs as [Hs _]. congruence.
    + destruct (set_UseFmt p) as [p' | |] eqn:Hs; try discriminate.
      apply set_UseFmt_head in Hs. destruct Hs as [Hs _]. congruence.
    + intros H. apply IH in H;
        [| cbn; lia | assumption | assumption
         | now apply head_preamble_Append_false].
      destruct H as (d & Hd & HF). exists (x :: d). split.
      * rewrite Hd. unfold ParseList.Append. cbn. now rewrite <- app_assoc.
      * constructor; [| assumption].
        destruct x; try discriminate Hc; try discriminate Hx;
          split; reflexivity.
Qed.

(** Through any call, the containers of the list hold no input and no
    output. *)
Lemma ParseTokens_loop_outer_io ts : forall n i p q k,
  forallb is_token ts = true ->
  has_type TPreamble ts = false ->
  Forall (fun m => is_token m = false -> io_free m) (ParseList.Nodes p) ->
  ParseTokens_loop ts n i p = Returned (q, k) ->
  Forall (fun m => is_token m = false -> io_free m) (ParseList.Nodes q).
Proof.
  induction ts as [ts IH] using length_ind. intros n i p q k Ht Hnp Hp.
  destruct ts as [| x rest].
  - rewrite ParseTokens_loop_equation_1. now intros [= <- _].
  - cbn [forallb] in Ht. apply andb_true_iff in Ht. destruct Ht as [Hx Ht].
    unfold has_type in Hnp. cbn [existsb] in Hnp.
    apply orb_false_iff in Hnp. destruct Hnp as [Hxp Hnp].
    fold (has_type TPreamble rest) in Hnp.
    rewrite ParseTokens_loop_step. destruct (classify x) eqn:Hc.
    + destruct (ParseTokens_loop rest _ 0 _) as [[p2 s] | |] eqn:E;
        try discriminate.
      apply ParseTokens_loop_inner_io in E; try assumption; [| reflexivity].
      destruct E as (d2 & Hd2 & HF2). cbn in Hd2.
      destruct (span_of p2) as [b | |]; try discriminate.
      apply IH; [cbn; rewrite length_skipn; lia | now apply forallb_skipn
                 | now apply has_type_skipn |].
      unfold ParseList.Append. cbn. apply Forall_app. split; [assumption |].
      constructor; [| constructor]. intros _. rewrite Hd2.
      destruct x; try discriminate Hc; injection Hc as <-; split;
        rewrite ?count_type_LoopNode, ?count_type_FunctionNode;
        rewrite count_type_list_io_free; auto.
    + destruct (n =? 0); [discriminate |]. now intros [= <- _].
    + destruct (set_UseIO p) as [p' | |] eqn:Hs; try discriminate.
      apply set_UseIO_inv in Hs.
      destruct Hs as (b & io & fm & p0 & Hp0 & Hp').
      apply IH; [cbn; lia | assumption | assumption |].
      unfold ParseList.Append. cbn. rewrite Hp'. rewrite Hp0 in Hp.
      inversion Hp; subst. constructor; [discriminate |].
      apply Forall_app. split; [assumption |].
      constructor; [congruence | constructor].
    + destruct (set_UseFmt p) as [p' | |] eqn:Hs; try discriminate.
      apply set_UseFmt_inv in Hs.
      destruct Hs as (b & io & fm & p0 & Hp0 & Hp').
      apply IH; [cbn; lia | assumption | assumption |].
      unfold ParseList.Append. cbn. rewrite Hp'. rewrite Hp0 in Hp.
      inversion Hp; subst. constructor; [discriminate |].
      apply Forall_app. split; [assumption |].
      constructor; [congruence | constructor].
    + apply IH; [cbn; lia | assumption | assumption |].
      unfold ParseList.Append. cbn. apply Forall_app. split; [assumption |].
      constructor; [congruence | constructor].
Qed.

(** No list that [Parse] returns has an [InputNode] or an [OutputNode]
    inside a [LoopNode] or a [FunctionNode], at any depth: input and
    output come through the parser at the top level only. *)
Theorem Parse_io_top_level s p m :
  Parse s = Returned p ->
  In m (ParseList.Nodes p) -> is_token m = false ->
  count_type TInput m = 0%nat /\ count_type TOutput m = 0%nat.
Proof.
  unfold Parse, ParseTokens.
  destruct (ParseTokens_loop _ 0 0 _) as [[q k] | |] eqn:E; try discriminate.
  intros [= <-] Hin Hm.
  pose proof (Tokenize_is_token s) as Ht.
  rewrite Tokenize_Nodes in E, Ht.
  rewrite ParseTokens_loop_step in E. cbn [classify Preamble0] in E.
  cbn [forallb] in Ht. apply andb_true_iff in Ht. destruct Ht as [_ Ht].
  apply ParseTokens_loop_outer_io in E.
  - rewrite Forall_forall in E. now apply E.
  - assumption.
  - rewrite has_type_app, tokens_from_Preamble. reflexivity.
  - constructor; [discriminate | constructor].
Qed.

Lemma Parse_io_top_level_witness :
  count_type TInput
    (LoopNode {| start := 2; end_ := 3 |}
       [DecNode {| start := 2; end_ := 3 |} {| count := 1 |}]) = 0%nat /\
  count_type TOutput
    (LoopNode {| start := 2; end_ := 3 |}
       [DecNode {| start := 2; end_ := 3 |} {| count := 1 |}]) = 0%nat.
Proof.
  apply (Parse_io_top_level ",[-]."
           {| ParseList.Nodes :=
                [PreambleNode {| start := 0; end_ := 0 |} true true;
                 InputNode {| start := 0; end_ := 1 |};
                 LoopNode {| start := 2; end_ := 3 |}
                   [DecNode {| start := 2; end_ := 3 |} {| count := 1 |}];
                 OutputNode {| start := 4; end_ := 5 |};
                 Postamble0] |}).
  - vm_compute. reflexivity.
  - cbn. auto.
  - reflexivity.
Defined.

(** ** The driver on the outcomes of the parser *)

(** On an error of the parser the driver does not panic: the slice of
    the text it prints is within the text, holds the byte of the faulty
    closer and at most ten bytes on either side of it; the driver
    prints the message and that slice and exits with status 1. *)
Theorem main_Failed data pe :
  Z.of_nat (String.length data) <= MaxInt - 10 ->
  Parse data = Failed pe ->
  exists lo hi,
    Main.window data pe = (lo, hi) /\
    0 <= lo <= Pos (FaultyNode pe) /\
    Pos (FaultyNode pe) < hi <= Z.of_nat (String.length data) /\
    Pos (FaultyNode pe) - 10 <= lo /\ hi <= Pos (FaultyNode pe) + 11 /\
    Main.main (Main.Read data) =
    Returned
      {| Main.stdout :=
           cat [Error pe; nl; "Details: ";
                substring (Z.to_nat lo) (Z.to_nat (hi - lo)) data; nl];
         Main.status := 1 |}.
Proof.
  unfold MaxInt. intros Hlen H.
  destruct (Parse_Failed_closer data pe H) as (c & msg & _ & _ & -> & Hc).
  destruct Hc as ((Hp1 & Hp2) & He & _).
  rewrite bytes_of_string_length in Hp2.
  rewrite int_add_exact in He by lia.
  cbn [Main.main]. rewrite H. unfold Main.window.
  cbn [FaultyNode parseError]. rewrite He.
  rewrite !int_add_exact by lia.
  set (lo := Main.max _ 0).
  set (hi := Main.min _ (Z.of_nat (String.length data))).
  assert (Hlo : 0 <= lo <= Pos c /\ Pos c - 10 <= lo).
  { unfold lo, Main.max. destruct (_ >? 0) eqn:E; lia. }
  assert (Hhi : Pos c < hi <= Z.of_nat (String.length data)
                /\ hi <= Pos c + 11).
  { unfold hi, Main.min.
    destruct (_ <? Z.of_nat (String.length data)) eqn:E; lia. }
  exists lo, hi. repeat (split; [reflexivity || lia |]).
  unfold Main.slice.
  destruct (lo <? 0) eqn:E1; [lia |].
  destruct (hi <? lo) eqn:E2; [lia |].
  destruct (Z.of_nat (String.length data) <? hi) eqn:E3; [lia |].
  reflexivity.
Qed.

Lemma main_Failed_witness :
  exists lo hi,
    Main.window "+++]"
      (parseError (LoopCloseNode {| start := 3; end_ := 4 |})
                  "Loop closed while not open") = (lo, hi) /\
    0 <= lo <= 3 /\ 3 < hi <= Z.of_nat (String.length "+++]") /\
    3 - 10 <= lo /\ hi <= 3 + 11 /\
    Main.main (Main.Read "+++]") =
    Returned
      {| Main.stdout :=
           cat [Error (parseError (LoopCloseNode {| start := 3; end_ := 4 |})
                                  "Loop closed while not open");
                nl; "Details: ";
                substring (Z.to_nat lo) (Z.to_nat (hi - lo)) "+++]"; nl];
         Main.status := 1 |}.
Proof.
  apply (main_Failed "+++]").
  - vm_compute. discriminate.
  - vm_compute. reflexivity.
Defined.

(** The driver panics only where the parser does: when [Parse] returns
    a list, the driver prints its code and exits with status 0. *)
Theorem main_Returned data p :
  Parse data = Returned p ->
  exists code,
    Encode p = Returned code /\
    Main.main (Main.Read data) =
    Returned {| Main.stdout := cat [code; nl]; Main.status := 0 |}.
Proof.
  intros H. destruct (Parse_Encode_total data p H) as [code Hc].
  exists code. split; [assumption |].
  cbn [Main.main]. now rewrite H, Hc.
Qed.

Lemma main_Returned_witness :
  exists code,
    Encode
      {| ParseList.Nodes :=
           [Preamble0; IncNode {| start := 0; end_ := 1 |} {| count := 1 |};
            Postamble0] |} = Returned code /\
    Main.main (Main.Read "+") =
    Returned {| Main.stdout := cat [code; nl]; Main.status := 0 |}.
Proof.
  apply (main_Returned "+"). vm_compute. reflexivity.
Defined.

(** ** Witnesses *)


Lemma Parse_closer_kind_witness :
  Parse ("[+" ++ String "}" "") =
  Returned
    {| ParseList.Nodes :=
         [Preamble0;
          LoopNode {| start := 1; end_ := 2 |}
            [IncNode {| start := 1; end_ := 2 |} {| count := 1 |}];
          Postamble0] |}.
Proof.
  apply (proj1 (Parse_closer_kind "[+" "" _)). vm_compute. reflexivity.
Defined.

(** The count that [ParseTokens] returns with a list: 0 when it ran to
    the end of the tokens, which is the only way at nesting 0, and
    otherwise the number of tokens up to and with the closer that ended
    the call. *)
Theorem ParseTokens_count t n q k :
  len (TokenList.Nodes t) <= MaxInt ->
  ParseTokens t n = Returned (q, k) ->
  (n = 0 -> k = 0) /\
  (k = 0 \/
   0 < k <= len (TokenList.Nodes t) /\
   exists c msg,
     nth_error (TokenList.Nodes t) (Z.to_nat (k - 1)) = Some c /\
     classify c = CClose msg).
Proof.
  unfold ParseTokens. intros Hlen H. split.
  - intros ->. eapply ParseTokens_loop_nesting0. eassumption.
  - destruct (Z.eq_dec k 0) as [-> | Hk]; [now left | right].
    pose proof (ParseTokens_loop_count _ _ 0 _ _ _ (Z.le_refl 0) Hlen H)
      as [-> | Hr]; [congruence |].
    split; [lia |].
    destruct (ParseTokens_loop_count_closer _ _ 0 _ _ _ (Z.le_refl 0)
                Hlen H Hk) as (c & msg & Hn & Hc).
    exists c, msg. replace (k - 1) with (k - 0 - 1) by lia. now split.
Qed.

Lemma ParseTokens_count_witness :
  (1 = 0 -> 2 = 0) /\
  (2 = 0 \/
   0 < 2 <= len [IncNode {| start := 1; end_ := 2 |} {| count := 1 |};
                 LoopCloseNode {| start := 2; end_ := 3 |}; Postamble0] /\
   exists c msg,
     nth_error [IncNode {| start := 1; end_ := 2 |} {| count := 1 |};
                LoopCloseNode {| start := 2; end_ := 3 |}; Postamble0]
               (Z.to_nat (2 - 1)) = Some c /\
     classify c = CClose msg).
Proof.
  apply (ParseTokens_count
           {| TokenList.Nodes :=
                [IncNode {| start := 1; end_ := 2 |} {| count := 1 |};
                 LoopCloseNode {| start := 2; end_ := 3 |}; Postamble0];
              TokenList.lastNode := None |}
           1
           {| ParseList.Nodes :=
                [IncNode {| start := 1; end_ := 2 |} {| count := 1 |}] |}).
  - vm_compute. discriminate.
  - vm_compute. reflexivity.
Defined.

(** ** Properties of the first variant *)

Lemma V1_length_ind (P : list V1.Node -> Prop) :
  (forall ts, (forall ts', (List.length ts' < List.length ts)%nat -> P ts') ->
              P ts) ->
  forall ts, P ts.
Proof.
  intros H ts. remember (List.length ts) as m eqn:E.
  revert ts E. induction m as [m IH] using lt_wf_ind.
  intros ts ->. apply H. intros ts' Hlt. now apply (IH _ Hlt).
Qed.

Lemma V1_parseLoop_loop_step t x rest i nodes :
  V1.parseLoop_loop t (x :: rest) i nodes =
  if V1.is_open x then
    match V1.parseLoop_loop rest rest 0 [] with
    | V1.Returned (lnode, skip) =>
        if V1.is_close lnode
        then V1.Returned (V1.loopNode_of nodes, int_add i skip)
        else V1.parseLoop_loop t (skipn (Z.to_nat skip) rest)
               (int_add (int_add i skip) 1) (nodes ++ [lnode])
    | V1.Failed err => V1.Failed err
    | V1.Panicked k => V1.Panicked k
    end
  else if V1.is_close x then V1.Returned (V1.loopNode_of nodes, i)
  else V1.parseLoop_loop t rest (int_add i 1) (nodes ++ [x]).
Proof.
  rewrite V1.parseLoop_loop_equation_2.
  destruct x; cbn [V1.is_open V1.is_close]; try reflexivity.
  destruct (V1.parseLoop_loop rest rest 0 []) as [[lnode skip] | |];
    try reflexivity.
  destruct lnode; reflexivity.
Qed.

Lemma V1_ParseTokens_loop_step x rest p :
  V1.ParseTokens_loop (x :: rest) p =
  if V1.is_open x then
    match V1.parseLoop rest with
    | V1.Returned (loopNode, skip) =>
        V1.ParseTokens_loop (skipn (Z.to_nat skip) rest)
          (V1.ParseList.Append p loopNode)
    | V1.Failed err => V1.Failed err
    | V1.Panicked k => V1.Panicked k
    end
  else if V1.is_close x then V1.ParseTokens_loop rest p
  else V1.ParseTokens_loop rest (V1.ParseList.Append p x).
Proof.
  rewrite V1.ParseTokens_loop_equation_2.
  destruct x; reflexivity.
Qed.

Lemma V1_skipn_app_exact (a r : list V1.Node) :
  skipn (Z.to_nat (Z.of_nat (List.length a))) (a ++ r) = r.
Proof.
  rewrite Nat2Z.id. rewrite skipn_app, skipn_all, Nat.sub_diag. reflexivity.
Qed.

(** [parseLoop] returns at the first closer. *)
Lemma V1_parseLoop_loop_closer : forall a t i nodes c r,
  forallb (fun n => negb (V1.is_close n)) a = true ->
  V1.is_close c = true ->
  0 <= i -> i + Z.of_nat (List.length a) < MaxInt ->
  V1.parseLoop_loop t (a ++ c :: r) i nodes =
  V1.Returned (V1.loopNode_of (nodes ++ V1.nest_right a),
               i + Z.of_nat (List.length a)).
Proof.
  induction a as [a IH] using V1_length_ind.
  intros t i nodes c r Ha Hc Hi Hlen. unfold MaxInt in Hlen.
  destruct a as [| x a'].
  - cbn [app]. rewrite V1_parseLoop_loop_step.
    rewrite Hc. destruct (V1.is_open c) eqn:Ho.
    + destruct c; discriminate.
    + cbn [List.length V1.nest_right]. rewrite app_nil_r, Z.add_0_r.
      reflexivity.
  - cbn [forallb] in Ha. apply andb_true_iff in Ha. destruct Ha as [Hx Ha].
    apply negb_true_iff in Hx.
    cbn [app]. rewrite V1_parseLoop_loop_step.
    cbn [List.length] in Hlen. rewrite Nat2Z.inj_succ in Hlen.
    destruct (V1.is_open x) eqn:Ho.
    + rewrite (IH a') by (cbn [List.length]; unfold MaxInt; try assumption; lia).
      cbn [V1.is_close V1.loopNode_of app].
      rewrite Z.add_0_l, V1_skipn_app_exact.
      rewrite V1_parseLoop_loop_step, Hc.
      destruct (V1.is_open c) eqn:Hoc; [destruct c; discriminate |].
      rewrite (int_add_exact i) by lia. rewrite int_add_exact by lia.
      destruct x; try discriminate. cbn [V1.nest_right List.length].
      rewrite Nat2Z.inj_succ. f_equal. f_equal. lia.
    + rewrite Hx.
      rewrite (IH a') by (cbn [List.length]; unfold MaxInt; try assumption;
                          rewrite ?int_add_exact; lia).
      rewrite int_add_exact by lia.
      cbn [List.length]. rewrite Nat2Z.inj_succ.
      rewrite <- app_assoc. cbn [app].
      destruct x; try discriminate; cbn [V1.nest_right]; f_equal; f_equal; lia.
Qed.

Lemma V1_parseLoop_end_last pre x :
  Z.of_nat (List.length (pre ++ [x])) <= MaxInt ->
  V1.parseLoop_end (pre ++ [x]) = V1.Failed (V1.no_loop_close (V1.End_ x)).
Proof.
  unfold MaxInt. intros H. unfold V1.parseLoop_end, V1.len, V1.index.
  rewrite length_app in *. cbn [List.length] in *.
  rewrite int_add_exact by lia.
  replace (Z.of_nat (List.length pre + 1) + -1)
    with (Z.of_nat (List.length pre)) by lia.
  destruct (Z.of_nat (List.length pre) <? 0) eqn:E;
    [apply Z.ltb_lt in E; lia |].
  rewrite Nat2Z.id, nth_error_app2 by lia.
  rewrite Nat.sub_diag. reflexivity.
Qed.

(** Without a closer [parseLoop] runs off its tokens. *)
Lemma V1_parseLoop_loop_run_off : forall ts t i nodes pre x,
  t = pre ++ ts ++ [x] ->
  V1.is_open x = false -> V1.is_close x = false ->
  forallb (fun n => negb (V1.is_close n)) ts = true ->
  Z.of_nat (List.length t) <= MaxInt ->
  V1.parseLoop_loop t (ts ++ [x]) i nodes =
  V1.Failed (V1.no_loop_close (V1.End_ x)).
Proof.
  induction ts as [ts IH] using V1_length_ind.
  intros t i nodes pre x Ht Hox Hcx Hts Hlen.
  destruct ts as [| y ts'].
  - cbn [app] in *. rewrite V1_parseLoop_loop_step, Hox, Hcx.
    rewrite V1.parseLoop_loop_equation_1. subst t.
    apply V1_parseLoop_end_last. exact Hlen.
  - cbn [forallb] in Hts. apply andb_true_iff in Hts.
    destruct Hts as [Hy Hts]. apply negb_true_iff in Hy.
    cbn [app]. rewrite V1_parseLoop_loop_step.
    destruct (V1.is_open y) eqn:Hoy.
    + rewrite (IH ts' ltac:(cbn [List.length]; lia) (ts' ++ [x]) 0 [] [] x);
        try assumption; try reflexivity.
      subst t. rewrite ?length_app in *. cbn [List.length] in *.
      rewrite ?length_app in *. cbn [List.length] in *. lia.
    + rewrite Hy.
      apply (IH ts' ltac:(cbn [List.length]; lia) t _ _ (pre ++ [y]) x);
        try assumption.
      subst t. rewrite <- app_assoc. reflexivity.
Qed.

Lemma V1_first_close_split (l : list V1.Node) :
  existsb V1.is_close l = true ->
  exists a c r, l = a ++ c :: r /\
    forallb (fun n => negb (V1.is_close n)) a = true /\ V1.is_close c = true.
Proof.
  induction l as [| x l IH]; [discriminate |].
  cbn [existsb]. destruct (V1.is_close x) eqn:E.
  - intros _. exists [], x, l. repeat split; assumption.
  - cbn [orb]. intros H. destruct (IH H) as (a & c & r & -> & Ha & Hc).
    exists (x :: a), c, r. cbn [forallb]. rewrite E, Ha.
    repeat split; assumption.
Qed.

Lemma V1_no_close_forallb (l : list V1.Node) :
  existsb V1.is_close l = false ->
  forallb (fun n => negb (V1.is_close n)) l = true.
Proof.
  induction l as [| x l IH]; [reflexivity |].
  cbn [existsb forallb]. intros H. apply orb_false_iff in H.
  destruct H as [-> H]. rewrite IH by assumption. reflexivity.
Qed.

Lemma V1_existsb_close_app (a : list V1.Node) c r :
  V1.is_close c = true -> existsb V1.is_close (a ++ c :: r) = true.
Proof.
  intros Hc. rewrite existsb_app. cbn [existsb]. rewrite Hc.
  apply orb_true_iff. right. reflexivity.
Qed.

Lemma V1_unclosed_tokens_closer a c r :
  V1.is_close c = true ->
  V1.unclosed_tokens (a ++ c :: r) = V1.unclosed_tokens r.
Proof.
  intros Hc. induction a as [| x a IH].
  - cbn [app V1.unclosed_tokens]. destruct c; try discriminate. reflexivity.
  - cbn [app V1.unclosed_tokens]. rewrite V1_existsb_close_app by assumption.
    rewrite IH. cbn [negb]. rewrite andb_false_r. reflexivity.
Qed.

Lemma V1_last_split (a : list V1.Node) c r body x :
  a ++ c :: r = body ++ [x] -> V1.is_close c = true -> V1.is_close x = false ->
  exists r', r = r' ++ [x] /\ (List.length r' < List.length body)%nat.
Proof.
  intros E Hc Hx.
  destruct (exists_last (l := c :: r) ltac:(discriminate)) as (l' & y & El).
  rewrite El, app_assoc in E. apply app_inj_tail in E. destruct E as [E ->].
  destruct r as [| z r].
  - destruct l'; [| destruct l'; discriminate].
    injection El as ->. congruence.
  - destruct (exists_last (l := z :: r) ltac:(discriminate)) as (r' & y & Er).
    exists r'. rewrite Er in El.
    change (c :: r' ++ [y]) with ((c :: r') ++ [y]) in El.
    apply app_inj_tail in El. destruct El as [<- ->].
    split; [exact Er |]. subst body. rewrite length_app. cbn [List.length]. lia.
Qed.

Lemma V1_unclosed_tokens_app a b :
  V1.unclosed_tokens (a ++ b) = false -> V1.unclosed_tokens b = false.
Proof.
  induction a as [| x a IH]; [trivial |].
  cbn [app V1.unclosed_tokens]. intros H. apply orb_false_iff in H.
  apply IH, H.
Qed.

Lemma V1_parseLoop_closer a c r :
  forallb (fun n => negb (V1.is_close n)) a = true ->
  V1.is_close c = true ->
  Z.of_nat (List.length a) < MaxInt ->
  V1.parseLoop (a ++ c :: r) =
  V1.Returned (V1.loopNode_of (V1.nest_right a), Z.of_nat (List.length a)).
Proof.
  intros Ha Hc Hlen. unfold V1.parseLoop.
  rewrite V1_parseLoop_loop_closer by (try assumption; lia).
  reflexivity.
Qed.

(** The loop of [ParseTokens] on tokens whose openers all have a closer
    after them. *)
Lemma V1_ParseTokens_loop_parsed : forall ts p,
  Z.of_nat (List.length ts) <= MaxInt ->
  V1.unclosed_tokens ts = false ->
  exists q q', V1.ParseTokens_loop ts p = V1.Returned q /\
    V1.ParseList.Nodes q = V1.ParseList.Nodes p ++ q' /\ V1.parsed ts q'.
Proof.
  induction ts as [ts IH] using V1_length_ind.
  intros p Hlen Hu. destruct ts as [| y rest].
  - exists p, []. rewrite V1.ParseTokens_loop_equation_1, app_nil_r.
    repeat split. constructor.
  - cbn [V1.unclosed_tokens] in Hu. apply orb_false_iff in Hu.
    destruct Hu as [Hy Hu]. cbn [List.length] in Hlen.
    rewrite Nat2Z.inj_succ in Hlen.
    rewrite V1_ParseTokens_loop_step.
    destruct (V1.is_open y) eqn:Hoy.
    + cbn [andb] in Hy. apply negb_false_iff in Hy.
      destruct (V1_first_close_split _ Hy) as (a & c & r & -> & Ha & Hc).
      rewrite length_app in Hlen. cbn [List.length] in Hlen.
      rewrite V1_parseLoop_closer by (try assumption; lia).
      rewrite V1_skipn_app_exact, V1_ParseTokens_loop_step, Hc.
      assert (Hoc : V1.is_open c = false) by (destruct c; try discriminate; reflexivity).
      rewrite Hoc.
      rewrite V1_unclosed_tokens_closer in Hu by assumption.
      destruct (IH r ltac:(cbn [List.length]; rewrite length_app;
                           cbn [List.length]; lia)
                  (V1.ParseList.Append p (V1.loopNode_of (V1.nest_right a)))
                  ltac:(lia) Hu)
        as (q & q' & E & Hq & Hp).
      exists q, (V1.loopNode_of (V1.nest_right a) :: q').
      split; [exact E |]. split.
      * rewrite Hq. cbn [V1.ParseList.Append V1.ParseList.Nodes].
        rewrite <- app_assoc. reflexivity.
      * apply V1.parsed_open; assumption.
    + destruct (V1.is_close y) eqn:Hcy.
      * destruct (IH rest ltac:(cbn [List.length]; lia) p ltac:(lia) Hu)
          as (q & q' & E & Hq & Hp).
        exists q, q'. repeat split; try assumption.
        apply V1.parsed_close; assumption.
      * destruct (IH rest ltac:(cbn [List.length]; lia)
                    (V1.ParseList.Append p y) ltac:(lia) Hu)
          as (q & q' & E & Hq & Hp).
        exists q, (y :: q'). split; [exact E |]. split.
        -- rewrite Hq. cbn [V1.ParseList.Append V1.ParseList.Nodes].
           rewrite <- app_assoc. reflexivity.
        -- apply V1.parsed_keep; assumption.
Qed.

(** The loop of [ParseTokens] on tokens that end with a node that is no
    marker, when some opener has no closer after it. *)
Lemma V1_ParseTokens_loop_unclosed : forall body p x,
  V1.is_open x = false -> V1.is_close x = false ->
  Z.of_nat (List.length (body ++ [x])) <= MaxInt ->
  V1.unclosed_tokens (body ++ [x]) = true ->
  V1.ParseTokens_loop (body ++ [x]) p =
  V1.Failed (V1.no_loop_close (V1.End_ x)).
Proof.
  induction body as [body IH] using V1_length_ind.
  intros p x Hox Hcx Hlen Hu. destruct body as [| y body'].
  - cbn [app V1.unclosed_tokens] in Hu. rewrite Hox in Hu. discriminate.
  - cbn [app V1.unclosed_tokens] in Hu. cbn [app List.length] in Hlen.
    rewrite Nat2Z.inj_succ in Hlen.
    cbn [app]. rewrite V1_ParseTokens_loop_step.
    destruct (V1.is_open y) eqn:Hoy.
    + destruct (existsb V1.is_close (body' ++ [x])) eqn:Hex.
      * cbn [andb negb orb] in Hu.
        destruct (V1_first_close_split _ Hex) as (a & c & r & E & Ha & Hc).
        destruct (V1_last_split _ _ _ _ _ (eq_sym E) Hc Hcx) as (r' & -> & Hr').
        rewrite E in *.
        rewrite length_app in Hlen. cbn [List.length] in Hlen.
        rewrite V1_parseLoop_closer by (try assumption; lia).
        rewrite V1_skipn_app_exact, V1_ParseTokens_loop_step, Hc.
        assert (Hoc : V1.is_open c = false)
          by (destruct c; try discriminate; reflexivity).
        rewrite Hoc.
        rewrite V1_unclosed_tokens_closer in Hu by assumption.
        apply IH; try assumption.
        -- cbn [List.length]. lia.
        -- lia.
      * unfold V1.parseLoop.
        rewrite existsb_app in Hex. apply orb_false_iff in Hex.
        destruct Hex as [Hex _].
        rewrite (V1_parseLoop_loop_run_off body' (body' ++ [x]) 0 [] [] x);
          try assumption; try reflexivity.
        -- apply V1_no_close_forallb. exact Hex.
        -- lia.
    + cbn [andb orb] in Hu.
      destruct (V1.is_close y) eqn:Hcy;
        (apply IH; [cbn [List.length]; lia | assumption | assumption | lia
                   | assumption]).
Qed.

Section FoldRange.

Variable T : Type.
Variable f : T -> Z * Z -> T.
Hypothesis f_unrecognized :
  forall tl i c, recognized c = false -> f tl (i, c) = tl.

(** A loop over the runes of a text that passes over the unrecognized
    ones is a loop over its bytes. *)
Lemma fold_range_bytes bs : forall i skip tl,
  Forall (fun b => is_cont b = true) (firstn skip bs) ->
  fold_left f (range_from bs i skip) tl = fold_left f (indexed bs i) tl.
Proof.
  induction bs as [| b0 rest IH]; intros i skip tl Hs; [reflexivity |].
  cbn [range_from indexed]. destruct skip as [| k].
  - destruct (b0 <? 0x80) eqn:Hb.
    + cbn [fold_left]. apply IH. constructor.
    + destruct (decoderune b0 rest) as [r size] eqn:Hd.
      apply decoderune_spec in Hd. destruct Hd as [Hr Hc].
      cbn [fold_left].
      rewrite !f_unrecognized; [apply IH; exact Hc | |].
      * apply high_not_recognized. apply Z.ltb_ge in Hb. lia.
      * apply high_not_recognized. exact Hr.
  - cbn [firstn] in Hs. inversion Hs; subst.
    cbn [fold_left].
    rewrite f_unrecognized by (apply is_cont_not_recognized; assumption).
    apply IH. assumption.
Qed.

End FoldRange.

Lemma V1_Tokenize_body_unrecognized tl i c :
  recognized c = false -> V1.Tokenize_body tl (i, c) = tl.
Proof.
  unfold recognized. cbn [map existsb].
  rewrite !orb_false_iff. intros H.
  unfold V1.Tokenize_body.
  repeat match goal with
  | H : _ /\ _ |- _ => let E := fresh in destruct H as [E H]; rewrite ?E
  end.
  reflexivity.
Qed.

Lemma V1_Tokenize_scan s :
  V1.Tokenize s =
  V1.TokenList.Append
    (fold_left V1.Tokenize_body (indexed (bytes_of_string s) 0)
       (V1.TokenList.Append V1.TokenList.empty
          (V1.PreambleNode {| start := 0; end_ := 0 |})))
    (V1.PostambleNode {| start := 0; end_ := 0 |}).
Proof.
  unfold V1.Tokenize, range_string.
  rewrite (fold_range_bytes _ _ V1_Tokenize_body_unrecognized)
    by constructor.
  reflexivity.
Qed.

Lemma V1_update_at_length f l : forall k,
  List.length (V1.update_at l k f) = List.length l.
Proof.
  induction l as [| x l IH]; intros k; [destruct k; reflexivity |].
  destruct k; cbn [V1.update_at List.length]; [| rewrite IH]; reflexivity.
Qed.

Lemma V1_update_at_Forall (P : V1.Node -> Prop) f l :
  (forall x, P x -> P (f x)) ->
  Forall P l -> forall k, Forall P (V1.update_at l k f).
Proof.
  intros Hf H. induction H as [| x l Hx Hl IH]; intros k.
  - destruct k; constructor.
  - destruct k; cbn [V1.update_at]; constructor; auto.
Qed.

(** What [Append] does to the list: it adds to one of its nodes, or it
    puts the new node at its end. *)
Lemma V1_Append_cases tl n :
  (V1.Summarizable n = true /\
   exists k, V1.TokenList.Nodes (V1.TokenList.Append tl n) =
             V1.update_at (V1.TokenList.Nodes tl) k V1.Add) \/
  V1.TokenList.Nodes (V1.TokenList.Append tl n) = V1.TokenList.Nodes tl ++ [n].
Proof.
  unfold V1.TokenList.Append.
  destruct (V1.Summarizable n) eqn:Hs; cbn [andb]; [| right; reflexivity].
  destruct (TypeOf_eqb _ _); [| right; reflexivity].
  left. split; [reflexivity |].
  destruct (V1.TokenList.lastNode tl) as [k |].
  - exists k. reflexivity.
  - exists (List.length (V1.TokenList.Nodes tl)).
    clear. induction (V1.TokenList.Nodes tl) as [| x l IH]; [reflexivity |].
    cbn [List.length V1.update_at]. rewrite <- IH. reflexivity.
Qed.

Lemma V1_Append_marker tl n :
  V1.Summarizable n = false ->
  V1.TokenList.Nodes (V1.TokenList.Append tl n) = V1.TokenList.Nodes tl ++ [n].
Proof.
  intros H. unfold V1.TokenList.Append. rewrite H. reflexivity.
Qed.

Lemma V1_Append_Forall (P : V1.Node -> Prop) tl n :
  (forall x, P x -> P (V1.Add x)) ->
  Forall P (V1.TokenList.Nodes tl) -> P n ->
  Forall P (V1.TokenList.Nodes (V1.TokenList.Append tl n)).
Proof.
  intros Hadd Htl Hn.
  destruct (V1_Append_cases tl n) as [[_ [k ->]] | ->].
  - apply V1_update_at_Forall; assumption.
  - apply Forall_app. split; [assumption | constructor; [assumption | constructor]].
Qed.

Lemma V1_Append_length tl n :
  (List.length (V1.TokenList.Nodes (V1.TokenList.Append tl n))
   <= S (List.length (V1.TokenList.Nodes tl)))%nat.
Proof.
  destruct (V1_Append_cases tl n) as [[_ [k ->]] | ->].
  - rewrite V1_update_at_length. lia.
  - rewrite length_app. cbn [List.length]. lia.
Qed.

(** The node the first variant's lexer creates for a character. *)
Lemma V1_Tokenize_body_cases tl i c :
  (V1.Tokenize_body tl (i, c) = tl /\
   (c =? rune "[") = false /\ (c =? rune "]") = false) \/
  exists n, V1.Tokenize_body tl (i, c) = V1.TokenList.Append tl n /\
    V1.is_token n = true /\ V1.End_ n = 1 /\ V1.Pos n = i /\
    (V1.is_open n = (c =? rune "[")) /\ (V1.is_close n = (c =? rune "]")) /\
    V1.type_of n <> TPreamble /\ V1.type_of n <> TPostamble.
Proof.
  unfold V1.Tokenize_body.
  repeat match goal with
  | |- context [if ?c =? ?r then _ else _] =>
      destruct (c =? r) eqn:?
  end; try (left; repeat split; reflexivity); right;
  repeat match goal with
  | H : (_ =? _) = true |- _ => apply Z.eqb_eq in H; subst
  end;
  eexists; (split; [reflexivity |]);
  repeat (split; [reflexivity |]); split; discriminate.
Qed.

Lemma V1_unclosed_tokens_snoc l n :
  V1.unclosed_tokens (l ++ [n]) =
  V1.is_open n || (V1.unclosed_tokens l && negb (V1.is_close n)).
Proof.
  induction l as [| x l IH].
  - cbn [app V1.unclosed_tokens existsb].
    destruct (V1.is_open n); reflexivity.
  - cbn [app V1.unclosed_tokens]. rewrite IH, existsb_app.
    cbn [existsb].
    destruct (V1.is_open x), (existsb V1.is_close l), (V1.is_open n),
             (V1.is_close n), (V1.unclosed_tokens l); reflexivity.
Qed.

Lemma V1_update_at_Add_unclosed l : forall k,
  existsb V1.is_close (V1.update_at l k V1.Add) = existsb V1.is_close l /\
  V1.unclosed_tokens (V1.update_at l k V1.Add) = V1.unclosed_tokens l.
Proof.
  induction l as [| x l IH]; intros k; [destruct k; split; reflexivity |].
  destruct k as [| k]; cbn [V1.update_at V1.unclosed_tokens existsb].
  - split; destruct x; reflexivity.
  - destruct (IH k) as [-> ->]. split; reflexivity.
Qed.

Lemma V1_Append_unclosed tl n :
  V1.unclosed_tokens (V1.TokenList.Nodes (V1.TokenList.Append tl n)) =
  V1.is_open n ||
  (V1.unclosed_tokens (V1.TokenList.Nodes tl) && negb (V1.is_close n)).
Proof.
  destruct (V1_Append_cases tl n) as [[Hs [k ->]] | ->].
  - destruct (V1_update_at_Add_unclosed (V1.TokenList.Nodes tl) k) as [_ ->].
    destruct n; try discriminate; cbn [V1.is_open V1.is_close negb orb];
      rewrite andb_true_r; reflexivity.
  - apply V1_unclosed_tokens_snoc.
Qed.

Lemma V1_Tokenize_body_unclosed tl i c :
  V1.unclosed_tokens (V1.TokenList.Nodes (V1.Tokenize_body tl (i, c))) =
  (c =? rune "[") ||
  (V1.unclosed_tokens (V1.TokenList.Nodes tl) && negb (c =? rune "]")).
Proof.
  unfold V1.Tokenize_body.
  repeat match goal with
  | |- context [if ?c =? ?r then _ else _] =>
      destruct (c =? r) eqn:?
  end;
  repeat match goal with
  | H : (_ =? _) = true |- _ => apply Z.eqb_eq in H; subst
  end;
  rewrite ?V1_Append_unclosed; cbn [V1.is_open V1.is_close negb orb];
  try match goal with
  | |- context [(?a =? ?b)] => change (a =? b) with false
  end;
  try match goal with
  | |- context [(?a =? ?b)] => change (a =? b) with true
  end;
  cbn [negb orb]; rewrite ?andb_true_r, ?andb_false_r; try reflexivity.
Qed.

Lemma V1_scan_unclosed bs : forall i tl,
  V1.unclosed_tokens
    (V1.TokenList.Nodes (fold_left V1.Tokenize_body (indexed bs i) tl)) =
  V1.unclosed bs ||
  (V1.unclosed_tokens (V1.TokenList.Nodes tl)
   && negb (existsb (Z.eqb (rune "]")) bs)).
Proof.
  induction bs as [| b bs IH]; intros i tl.
  - cbn [indexed fold_left V1.unclosed existsb negb].
    rewrite andb_true_r. reflexivity.
  - cbn [indexed fold_left V1.unclosed existsb].
    rewrite IH, V1_Tokenize_body_unclosed.
    rewrite (Z.eqb_sym (rune "]") b).
    destruct (b =? rune "["), (b =? rune "]"), (V1.unclosed bs),
             (existsb (Z.eqb (rune "]")) bs),
             (V1.unclosed_tokens (V1.TokenList.Nodes tl)); reflexivity.
Qed.

Lemma V1_scan_length bs : forall i tl,
  (List.length
     (V1.TokenList.Nodes (fold_left V1.Tokenize_body (indexed bs i) tl))
   <= List.length (V1.TokenList.Nodes tl) + List.length bs)%nat.
Proof.
  induction bs as [| b bs IH]; intros i tl; cbn [indexed fold_left List.length].
  - lia.
  - etransitivity; [apply IH |].
    destruct (V1_Tokenize_body_cases tl i b) as [[-> _] | (n & -> & _)];
      [lia |].
    pose proof (V1_Append_length tl n). lia.
Qed.

(** The token list of the first variant: its nodes end with the
    postamble, are at most two more than the bytes of the text, and have
    an opener without a closer after it exactly when the text has. *)
Lemma V1_Tokenize_shape s :
  exists body,
    V1.TokenList.Nodes (V1.Tokenize s) =
      body ++ [V1.PostambleNode {| start := 0; end_ := 0 |}] /\
    (List.length (V1.TokenList.Nodes (V1.Tokenize s))
     <= String.length s + 2)%nat /\
    V1.unclosed_tokens (V1.TokenList.Nodes (V1.Tokenize s)) =
      V1.unclosed (bytes_of_string s).
Proof.
  rewrite V1_Tokenize_scan.
  set (tl := fold_left _ _ _).
  exists (V1.TokenList.Nodes tl).
  rewrite V1_Append_marker by reflexivity.
  split; [reflexivity |]. split.
  - rewrite length_app. cbn [List.length]. subst tl.
    pose proof (V1_scan_length (bytes_of_string s) 0
                  (V1.TokenList.Append V1.TokenList.empty
                     (V1.PreambleNode {| start := 0; end_ := 0 |}))) as H.
    rewrite bytes_of_string_length in H.
    change (List.length (V1.TokenList.Nodes (V1.TokenList.Append _ _)))
      with 1%nat in H.
    lia.
  - rewrite V1_unclosed_tokens_snoc. cbn [V1.is_open V1.is_close negb orb].
    rewrite andb_true_r. subst tl. rewrite V1_scan_unclosed.
    cbn. rewrite orb_false_r. reflexivity.
Qed.

(** The first variant's [Parse] never panics on a text: it returns
    a list, unless some ['['] of the text has no [']'] after it, and then
    it returns the error of [parseLoop], which names the position [0]
    whatever the text is. *)
Theorem V1_Parse_outcome (s : string) :
  Z.of_nat (String.length s) + 2 <= MaxInt ->
  if V1.unclosed (bytes_of_string s)
  then V1.Parse s = V1.Failed (V1.no_loop_close 0)
  else exists p, V1.Parse s = V1.Returned p.
Proof.
  intros Hlen. unfold V1.Parse, V1.ParseTokens.
  destruct (V1_Tokenize_shape s) as (body & E & Hl & Hu).
  rewrite <- Hu.
  destruct (V1.unclosed_tokens _) eqn:Hun.
  - rewrite E in *.
    rewrite V1_ParseTokens_loop_unclosed;
      [reflexivity | reflexivity | reflexivity | lia | assumption].
  - assert (Hm : Z.of_nat (List.length (V1.TokenList.Nodes (V1.Tokenize s)))
                 <= MaxInt) by lia.
    destruct (V1_ParseTokens_loop_parsed _ V1.ParseList.empty Hm Hun)
      as (q & q' & Eq & _).
    exists q. exact Eq.
Qed.

Lemma V1_Parse_outcome_witness :
  V1.Parse "+[-" = V1.Failed (V1.no_loop_close 0) /\
  exists p, V1.Parse "[-]+]" = V1.Returned p.
Proof.
  split.
  - apply (V1_Parse_outcome "+[-"). vm_compute. discriminate.
  - apply (V1_Parse_outcome "[-]+]"). vm_compute. discriminate.
Defined.

(** A property of nodes that [Add] keeps and that holds of the preamble,
    of the postamble and of every node the lexer creates for a character
    holds of all the nodes of a token list. *)
Lemma V1_Tokenize_Forall (P : V1.Node -> Prop) s :
  (forall x, P x -> P (V1.Add x)) ->
  P (V1.PreambleNode {| start := 0; end_ := 0 |}) ->
  P (V1.PostambleNode {| start := 0; end_ := 0 |}) ->
  (forall n, V1.is_token n = true -> V1.End_ n = 1 ->
             V1.type_of n <> TPreamble -> V1.type_of n <> TPostamble -> P n) ->
  Forall P (V1.TokenList.Nodes (V1.Tokenize s)).
Proof.
  intros Hadd Hpre Hpost Hn. unfold V1.Tokenize.
  apply V1_Append_Forall; [assumption | | assumption].
  assert (H0 : Forall P (V1.TokenList.Nodes
                 (V1.TokenList.Append V1.TokenList.empty
                    (V1.PreambleNode {| start := 0; end_ := 0 |}))))
    by (constructor; [assumption | constructor]).
  revert H0. generalize (V1.TokenList.Append V1.TokenList.empty
                           (V1.PreambleNode {| start := 0; end_ := 0 |})).
  induction (range_string s) as [| [i c] l IH]; intros tl Htl; [exact Htl |].
  cbn [fold_left]. apply IH.
  destruct (V1_Tokenize_body_cases tl i c)
    as [[-> _] | (n & -> & Ht & He & _ & _ & _ & Hp1 & Hp2)]; [assumption |].
  apply V1_Append_Forall; auto.
Qed.

(** In the first variant the [End] of a node is not the position
    after it: it is 1 for every node made from a character of the text
    (also after a merge), and 0 for the preamble and the postamble. *)
Theorem V1_Tokenize_End (s : string) (n : V1.Node) :
  In n (V1.TokenList.Nodes (V1.Tokenize s)) ->
  V1.End_ n =
  match V1.type_of n with TPreamble | TPostamble => 0 | _ => 1 end.
Proof.
  revert n. apply Forall_forall. apply V1_Tokenize_Forall.
  - intros x H. destruct x; exact H.
  - reflexivity.
  - reflexivity.
  - intros n _ He H1 H2. rewrite He.
    destruct n; try reflexivity; exfalso; [apply H1 | apply H2]; reflexivity.
Qed.

Lemma V1_Tokenize_End_witness :
  V1.End_ (V1.IncNode {| start := 3; end_ := 1 |} {| count := 2 |}) = 1.
Proof.
  apply (V1_Tokenize_End "[.]++").
  vm_compute. right. right. right. right. left. reflexivity.
Defined.

Lemma V1_Tokenize_tokens s :
  Forall (fun n => V1.is_token n = true) (V1.TokenList.Nodes (V1.Tokenize s)).
Proof.
  apply V1_Tokenize_Forall; try reflexivity.
  - intros x H. destruct x; exact H.
  - intros n H _ _ _. exact H.
Qed.

Lemma V1_Node_nested_ind (P : V1.Node -> Prop) :
  (forall n, V1.is_token n = true -> P n) ->
  (forall b l, Forall P l -> P (V1.LoopNode b l)) ->
  forall n, P n.
Proof.
  intros Ht HL. fix IH 1. intros n.
  destruct n; try (apply Ht; reflexivity).
  apply HL. induction Nodes as [| x l IHl]; constructor;
    [apply IH | exact IHl].
Qed.

Lemma V1_Code_LoopNode b l :
  V1.Code (V1.LoopNode b l) = V1.Code_children l V1.LoopNode_header.
Proof.
  reflexivity.
Qed.

Lemma V1_deep_encodable_Encodable n :
  V1.deep_encodable n = true -> V1.Encodable n = true.
Proof.
  destruct n; intros H; try reflexivity; exact H.
Qed.

Lemma V1_Code_children_total l :
  Forall (fun n => V1.deep_encodable n = true ->
                   exists c, V1.Code n = V1.Returned c) l ->
  forallb V1.deep_encodable l = true ->
  forall code, exists out, V1.Code_children l code = V1.Returned out.
Proof.
  induction 1 as [| x l Hx _ IH]; intros Hd code.
  - eexists. reflexivity.
  - cbn [forallb] in Hd. apply andb_true_iff in Hd. destruct Hd as [Hdx Hd].
    cbn [V1.Code_children]. rewrite (V1_deep_encodable_Encodable x Hdx).
    destruct (Hx Hdx) as [c ->]. now apply IH.
Qed.

Lemma V1_Code_total n :
  V1.deep_encodable n = true -> exists c, V1.Code n = V1.Returned c.
Proof.
  induction n as [n Hn | b l IH] using V1_Node_nested_ind.
  - destruct n; try discriminate Hn; try discriminate;
      intros _; eexists; reflexivity.
  - rewrite V1_Code_LoopNode. intros Hd.
    apply V1_Code_children_total; assumption.
Qed.

Lemma V1_Encode_loop_total l : forall code,
  forallb V1.deep_encodable l = true ->
  exists out, V1.Encode_loop l code = V1.Returned out.
Proof.
  induction l as [| x l IH]; intros code Hd.
  - eexists. reflexivity.
  - cbn [forallb] in Hd. apply andb_true_iff in Hd. destruct Hd as [Hx Hd].
    cbn [V1.Encode_loop]. rewrite (V1_deep_encodable_Encodable x Hx).
    destruct (V1_Code_total x Hx) as [c ->]. now apply IH.
Qed.

Lemma V1_right_nested_cons b x y l :
  V1.right_nested (V1.LoopNode b (x :: y :: l)) =
  negb (V1.is_loop x) && V1.right_nested (V1.LoopNode b (y :: l)).
Proof. reflexivity. Qed.

Lemma V1_right_nested_one b x :
  V1.right_nested (V1.LoopNode b [x]) = V1.right_nested x.
Proof. reflexivity. Qed.

Lemma V1_leaves_LoopNode b l :
  V1.leaves (V1.LoopNode b l) = flat_map V1.leaves l.
Proof. reflexivity. Qed.

Lemma V1_deep_encodable_LoopNode b l :
  V1.deep_encodable (V1.LoopNode b l) = forallb V1.deep_encodable l.
Proof. reflexivity. Qed.

(** The loop that [nest_right] builds from tokens without a closer. *)
Lemma V1_nest_right_props a :
  Forall (fun n => V1.is_token n = true) a ->
  forallb (fun n => negb (V1.is_close n)) a = true ->
  V1.right_nested (V1.loopNode_of (V1.nest_right a)) = true /\
  flat_map V1.leaves (V1.nest_right a) = filter V1.Encodable a /\
  forallb V1.deep_encodable (V1.nest_right a) = true.
Proof.
  unfold V1.loopNode_of.
  induction 1 as [| x a Hx Ha IH]; intros Hc; [repeat split |].
  cbn [forallb] in Hc. apply andb_true_iff in Hc. destruct Hc as [Hcx Hc].
  destruct (IH Hc) as (IH1 & IH2 & IH3).
  destruct x; try discriminate Hx; try discriminate Hcx;
    cbn [V1.nest_right filter V1.Encodable flat_map forallb];
    unfold V1.loopNode_of;
    rewrite ?V1_right_nested_one, ?V1_leaves_LoopNode,
            ?V1_deep_encodable_LoopNode, ?IH2, ?IH3, ?app_nil_r;
    try (split; [exact IH1 | split; reflexivity]);
    (split; [| split; reflexivity]);
    (destruct (V1.nest_right a) as [| y l];
     [reflexivity | rewrite V1_right_nested_cons; exact IH1]).
Qed.

Lemma V1_parsed_props ts q :
  V1.parsed ts q ->
  Forall (fun n => V1.is_token n = true) ts ->
  forallb V1.right_nested q = true /\
  flat_map V1.leaves q = filter V1.Encodable ts /\
  forallb V1.deep_encodable q = true.
Proof.
  induction 1 as [| c ts q Hc Hp IH | o a c r q Ho Ha Hc Hp IH
                  | n ts q Hon Hcn Hp IH]; intros Ht.
  - repeat split.
  - inversion Ht as [| ? ? _ Ht']; subst.
    destruct (IH Ht') as (H1 & H2 & H3).
    destruct c; try discriminate Hc. cbn [filter V1.Encodable].
    repeat split; assumption.
  - inversion Ht as [| ? ? _ Ht']; subst.
    apply Forall_app in Ht'. destruct Ht' as [Hta Htr].
    inversion Htr as [| ? ? _ Htr']; subst.
    destruct (IH Htr') as (H1 & H2 & H3).
    destruct (V1_nest_right_props a Hta Ha) as (N1 & N2 & N3).
    destruct o; try discriminate Ho. destruct c; try discriminate Hc.
    cbn [forallb flat_map filter V1.Encodable].
    rewrite filter_app. cbn [filter V1.Encodable].
    unfold V1.loopNode_of in *.
    rewrite N1, H1, V1_leaves_LoopNode, N2, H2,
            V1_deep_encodable_LoopNode, N3, H3.
    repeat split.
  - inversion Ht as [| ? ? Hn Ht']; subst.
    destruct (IH Ht') as (H1 & H2 & H3).
    cbn [forallb flat_map filter].
    rewrite H1, H2, H3.
    destruct n; try discriminate; repeat split.
Qed.

Lemma V1_Parse_Returned_parsed s p :
  Z.of_nat (String.length s) + 2 <= MaxInt ->
  V1.Parse s = V1.Returned p ->
  V1.parsed (V1.TokenList.Nodes (V1.Tokenize s)) (V1.ParseList.Nodes p).
Proof.
  intros Hlen. unfold V1.Parse, V1.ParseTokens.
  destruct (V1_Tokenize_shape s) as (body & E & Hl & Hu).
  assert (Hm : Z.of_nat (List.length (V1.TokenList.Nodes (V1.Tokenize s)))
               <= MaxInt) by lia.
  destruct (V1.unclosed_tokens (V1.TokenList.Nodes (V1.Tokenize s))) eqn:Hun.
  - rewrite E in *.
    rewrite V1_ParseTokens_loop_unclosed;
      [discriminate | reflexivity | reflexivity | lia | assumption].
  - destruct (V1_ParseTokens_loop_parsed _ V1.ParseList.empty Hm Hun)
      as (q & q' & Eq & Hq & Hp).
    rewrite Eq. intros [= <-]. rewrite Hq. exact Hp.
Qed.

(** In the first variant [parseLoop] returns at the first closer of its
    tokens, whatever openers stand before it, with the index of that
    closer: every opener before it starts a loop that takes the tokens
    up to this same closer, so that a loop inside a loop ends the outer
    loop too. *)
Theorem V1_parseLoop_first_closer (a : list V1.Node) (c : V1.Node)
    (r : list V1.Node) :
  forallb (fun n => negb (V1.is_close n)) a = true ->
  V1.is_close c = true ->
  Z.of_nat (List.length a) < MaxInt ->
  V1.parseLoop (a ++ c :: r) =
  V1.Returned (V1.loopNode_of (V1.nest_right a), Z.of_nat (List.length a)).
Proof.
  intros Ha Hc Hlen. unfold V1.parseLoop.
  rewrite V1_parseLoop_loop_closer by (try assumption; lia).
  reflexivity.
Qed.

Lemma V1_parseLoop_first_closer_witness :
  V1.parseLoop
    ([V1.LoopOpenNode {| start := 1; end_ := 1 |};
      V1.IncNode {| start := 2; end_ := 1 |} {| count := 1 |}]
     ++ V1.LoopCloseNode {| start := 3; end_ := 1 |}
        :: [V1.DecNode {| start := 4; end_ := 1 |} {| count := 1 |};
            V1.LoopCloseNode {| start := 5; end_ := 1 |};
            V1.PostambleNode {| start := 0; end_ := 0 |}]) =
  V1.Returned
    (V1.LoopNode {| start := 0; end_ := 0 |}
       [V1.LoopNode {| start := 0; end_ := 0 |}
          [V1.IncNode {| start := 2; end_ := 1 |} {| count := 1 |}]],
     2).
Proof.
  apply (V1_parseLoop_first_closer
           [V1.LoopOpenNode {| start := 1; end_ := 1 |};
            V1.IncNode {| start := 2; end_ := 1 |} {| count := 1 |}]
           (V1.LoopCloseNode {| start := 3; end_ := 1 |})).
  - reflexivity.
  - reflexivity.
  - vm_compute. reflexivity.
Defined.

(** In every list the first variant's [Parse] returns, a loop holds
    another loop only as its last child: what follows an inner loop in
    the text is never in the outer loop. *)
Theorem V1_Parse_right_nested (s : string) (p : V1.ParseList.t) :
  Z.of_nat (String.length s) + 2 <= MaxInt ->
  V1.Parse s = V1.Returned p ->
  forallb V1.right_nested (V1.ParseList.Nodes p) = true.
Proof.
  intros Hlen H.
  apply (V1_parsed_props (V1.TokenList.Nodes (V1.Tokenize s))).
  - apply V1_Parse_Returned_parsed; assumption.
  - apply V1_Tokenize_tokens.
Qed.

Lemma V1_Parse_right_nested_witness :
  forallb V1.right_nested
    [V1.PreambleNode {| start := 0; end_ := 0 |};
     V1.LoopNode {| start := 0; end_ := 0 |}
       [V1.LoopNode {| start := 0; end_ := 0 |}
          [V1.IncNode {| start := 2; end_ := 1 |} {| count := 1 |}]];
     V1.DecNode {| start := 4; end_ := 1 |} {| count := 1 |};
     V1.PostambleNode {| start := 0; end_ := 0 |}] = true.
Proof.
  apply (V1_Parse_right_nested "[[+]-]"
           {| V1.ParseList.Nodes :=
                [V1.PreambleNode {| start := 0; end_ := 0 |};
                 V1.LoopNode {| start := 0; end_ := 0 |}
                   [V1.LoopNode {| start := 0; end_ := 0 |}
                      [V1.IncNode {| start := 2; end_ := 1 |}
                         {| count := 1 |}]];
                 V1.DecNode {| start := 4; end_ := 1 |} {| count := 1 |};
                 V1.PostambleNode {| start := 0; end_ := 0 |}] |}).
  - vm_compute. discriminate.
  - vm_compute. reflexivity.
Defined.

(** The first variant's [Parse] loses and reorders nothing: the nodes of
    the returned list that are no loops, read from left to right through
    the loops, are the tokens of the text without the openers and the
    closers. *)
Theorem V1_Parse_leaves (s : string) (p : V1.ParseList.t) :
  Z.of_nat (String.length s) + 2 <= MaxInt ->
  V1.Parse s = V1.Returned p ->
  flat_map V1.leaves (V1.ParseList.Nodes p) =
  filter V1.Encodable (V1.TokenList.Nodes (V1.Tokenize s)).
Proof.
  intros Hlen H.
  apply (V1_parsed_props (V1.TokenList.Nodes (V1.Tokenize s))).
  - apply V1_Parse_Returned_parsed; assumption.
  - apply V1_Tokenize_tokens.
Qed.

Lemma V1_Parse_leaves_witness :
  flat_map V1.leaves
    [V1.PreambleNode {| start := 0; end_ := 0 |};
     V1.LoopNode {| start := 0; end_ := 0 |}
       [V1.LoopNode {| start := 0; end_ := 0 |}
          [V1.IncNode {| start := 2; end_ := 1 |} {| count := 1 |}]];
     V1.DecNode {| start := 4; end_ := 1 |} {| count := 1 |};
     V1.PostambleNode {| start := 0; end_ := 0 |}] =
  filter V1.Encodable (V1.TokenList.Nodes (V1.Tokenize "[[+]-]")).
Proof.
  apply (V1_Parse_leaves "[[+]-]"
           {| V1.ParseList.Nodes :=
                [V1.PreambleNode {| start := 0; end_ := 0 |};
                 V1.LoopNode {| start := 0; end_ := 0 |}
                   [V1.LoopNode {| start := 0; end_ := 0 |}
                      [V1.IncNode {| start := 2; end_ := 1 |}
                         {| count := 1 |}]];
                 V1.DecNode {| start := 4; end_ := 1 |} {| count := 1 |};
                 V1.PostambleNode {| start := 0; end_ := 0 |}] |}).
  - vm_compute. discriminate.
  - vm_compute. reflexivity.
Defined.

(** The first variant's [Encode] returns on every list its [Parse]
    returns: no marker is left in a loop, so that the assertion to
    [Encodable] in [LoopNode.Code] never fails. *)
Theorem V1_Parse_Encode (s : string) (p : V1.ParseList.t) :
  Z.of_nat (String.length s) + 2 <= MaxInt ->
  V1.Parse s = V1.Returned p ->
  exists out, V1.Encode p = V1.Returned out.
Proof.
  intros Hlen H. unfold V1.Encode. apply V1_Encode_loop_total.
  apply (V1_parsed_props (V1.TokenList.Nodes (V1.Tokenize s))).
  - apply V1_Parse_Returned_parsed; assumption.
  - apply V1_Tokenize_tokens.
Qed.

Lemma V1_Parse_Encode_witness :
  exists out,
    V1.Encode
      {| V1.ParseList.Nodes :=
           [V1.PreambleNode {| start := 0; end_ := 0 |};
            V1.LoopNode {| start := 0; end_ := 0 |}
              [V1.DecNode {| start := 1; end_ := 1 |} {| count := 1 |}];
            V1.PostambleNode {| start := 0; end_ := 0 |}] |} =
    V1.Returned out.
Proof.
  apply (V1_Parse_Encode "[-]").
  - vm_compute. discriminate.
  - vm_compute. reflexivity.
Defined.

Lemma V1_update_at_Add_has_open l : forall k,
  existsb V1.is_open (V1.update_at l k V1.Add) = existsb V1.is_open l.
Proof.
  induction l as [| x l IH]; intros k; [destruct k; reflexivity |].
  destruct k as [| k]; cbn [V1.update_at existsb].
  - destruct x; reflexivity.
  - rewrite IH. reflexivity.
Qed.

Lemma V1_Append_has_open tl n :
  existsb V1.is_open (V1.TokenList.Nodes (V1.TokenList.Append tl n)) =
  existsb V1.is_open (V1.TokenList.Nodes tl) || V1.is_open n.
Proof.
  destruct (V1_Append_cases tl n) as [[Hs [k ->]] | ->].
  - rewrite V1_update_at_Add_has_open.
    destruct n; try discriminate; cbn [V1.is_open];
      rewrite orb_false_r; reflexivity.
  - rewrite existsb_app. cbn [existsb]. rewrite orb_false_r. reflexivity.
Qed.

Lemma V1_scan_has_open bs : forall i tl,
  existsb V1.is_open
    (V1.TokenList.Nodes (fold_left V1.Tokenize_body (indexed bs i) tl)) =
  existsb V1.is_open (V1.TokenList.Nodes tl)
  || existsb (Z.eqb (rune "[")) bs.
Proof.
  induction bs as [| b bs IH]; intros i tl.
  - cbn [indexed fold_left existsb]. rewrite orb_false_r. reflexivity.
  - cbn [indexed fold_left existsb]. rewrite IH.
    rewrite orb_assoc. f_equal. rewrite (Z.eqb_sym (rune "[") b).
    destruct (V1_Tokenize_body_cases tl i b)
      as [(-> & -> & _) | (n & -> & _ & _ & _ & Ho & _)].
    + rewrite orb_false_r. reflexivity.
    + rewrite V1_Append_has_open, Ho. reflexivity.
Qed.

Lemma V1_ParseTokens_loop_no_open ts : forall p,
  existsb V1.is_open ts = false ->
  V1.ParseTokens_loop ts p =
  V1.Returned {| V1.ParseList.Nodes :=
                   V1.ParseList.Nodes p ++ filter V1.Encodable ts |}.
Proof.
  induction ts as [| x ts IH]; intros p H.
  - rewrite V1.ParseTokens_loop_equation_1. cbn [filter].
    rewrite app_nil_r. destruct p. reflexivity.
  - cbn [existsb] in H. apply orb_false_iff in H. destruct H as [Hx H].
    rewrite V1_ParseTokens_loop_step, Hx.
    destruct (V1.is_close x) eqn:Hc.
    + rewrite IH by assumption. destruct x; try discriminate Hc. reflexivity.
    + rewrite IH by assumption.
      cbn [V1.ParseList.Append V1.ParseList.Nodes].
      rewrite <- app_assoc.
      destruct x; try discriminate Hx; try discriminate Hc; reflexivity.
Qed.

(** The first variant takes a [']'] that closes nothing for a comment: a
    text without ['['] is always parsed, into its tokens without the
    closers. *)
Theorem V1_Parse_closers_ignored (s : string) :
  existsb (Z.eqb (rune "[")) (bytes_of_string s) = false ->
  V1.Parse s =
  V1.Returned
    {| V1.ParseList.Nodes :=
         filter V1.Encodable (V1.TokenList.Nodes (V1.Tokenize s)) |}.
Proof.
  intros H. unfold V1.Parse, V1.ParseTokens.
  apply V1_ParseTokens_loop_no_open.
  rewrite V1_Tokenize_scan, V1_Append_has_open, V1_scan_has_open, H.
  reflexivity.
Qed.

Lemma V1_Parse_closers_ignored_witness :
  V1.Parse "+]+" =
  V1.Returned
    {| V1.ParseList.Nodes :=
         filter V1.Encodable (V1.TokenList.Nodes (V1.Tokenize "+]+")) |}.
Proof.
  apply (V1_Parse_closers_ignored "+]+"). reflexivity.
Defined.

(** ** Properties of the variant of [unnamed/part_000] *)

Lemma Part000_ParseTokens_loop_step x rest n i p :
  Part000.ParseTokens_loop (x :: rest) n i p =
  if V1.is_open x then
    match Part000.ParseTokens_loop rest (int_add n 1) 0
            V1.ParseList.empty with
    | Part000.Returned (p2, skip) =>
        match Part000.span_of p2 with
        | Part000.Returned b =>
            Part000.ParseTokens_loop (skipn (Z.to_nat skip) rest) n
              (int_add (int_add i skip) 1)
              (V1.ParseList.Append p (V1.LoopNode b (V1.ParseList.Nodes p2)))
        | Part000.Failed e => Part000.Failed e
        | Part000.Panicked k => Part000.Panicked k
        end
    | Part000.Failed err => Part000.Failed err
    | Part000.Panicked k => Part000.Panicked k
    end
  else if V1.is_close x then
    if n =? 0
    then Part000.Failed (Part000.parseError x "Loop closed while not open")
    else Part000.Returned (p, int_add i 1)
  else Part000.ParseTokens_loop rest n (int_add i 1)
         (V1.ParseList.Append p x).
Proof.
  rewrite Part000.ParseTokens_loop_equation_2. destruct x; reflexivity.
Qed.

Lemma V1_In_skipn (x : V1.Node) k l : In x (skipn k l) -> In x l.
Proof.
  intros H. rewrite <- (firstn_skipn k l). apply in_or_app. now right.
Qed.

(** An error of [ParseTokens] is the one of a closer of its tokens. *)
Lemma Part000_ParseTokens_loop_Failed : forall ts n i p e,
  Part000.ParseTokens_loop ts n i p = Part000.Failed e ->
  exists c, In c ts /\ V1.is_close c = true /\
    e = Part000.parseError c "Loop closed while not open".
Proof.
  induction ts as [ts IH] using V1_length_ind.
  intros n i p e. destruct ts as [| x rest].
  - rewrite Part000.ParseTokens_loop_equation_1. discriminate.
  - rewrite Part000_ParseTokens_loop_step.
    destruct (V1.is_open x) eqn:Ho.
    + destruct (Part000.ParseTokens_loop rest (int_add n 1) 0
                  V1.ParseList.empty) as [[p2 skip] | e' | k] eqn:E.
      * destruct (Part000.span_of p2) as [b | e' | k] eqn:Es.
        -- intros H. apply IH in H.
           ++ destruct H as (c & Hin & Hc & ->). exists c.
              split; [right; eapply V1_In_skipn; exact Hin | now split].
           ++ rewrite length_skipn. cbn [List.length]. lia.
        -- unfold Part000.span_of, Part000.index in Es.
           repeat match type of Es with
           | context [if ?c then _ else _] => destruct c
           | context [match nth_error ?l ?k with _ => _ end] =>
               destruct (nth_error l k)
           end; discriminate Es.
        -- discriminate.
      * intros [= <-]. apply IH in E; [| cbn [List.length]; lia].
        destruct E as (c & Hin & Hc & ->). exists c.
        split; [now right | now split].
      * discriminate.
    + destruct (V1.is_close x) eqn:Hc.
      * destruct (n =? 0); [| discriminate].
        intros [= <-]. exists x. split; [now left | now split].
      * intros H. apply IH in H; [| cbn [List.length]; lia].
        destruct H as (c & Hin & Hc' & ->). exists c.
        split; [now right | now split].
Qed.

(** What a call of the loop that returns has added to its list: at most
    a node for each token, and nothing only when there was no token or
    the first one was a closer. *)
Lemma Part000_ParseTokens_loop_grows : forall ts n i p q k,
  Part000.ParseTokens_loop ts n i p = Part000.Returned (q, k) ->
  exists d, V1.ParseList.Nodes q = V1.ParseList.Nodes p ++ d /\
    (List.length d <= List.length ts)%nat /\
    (d = [] -> ts = [] \/ exists c rest, ts = c :: rest /\ V1.is_close c = true).
Proof.
  induction ts as [ts IH] using V1_length_ind.
  intros n i p q k. destruct ts as [| x rest].
  - rewrite Part000.ParseTokens_loop_equation_1. intros [= <- <-].
    exists []. rewrite app_nil_r. repeat split; auto.
  - rewrite Part000_ParseTokens_loop_step.
    destruct (V1.is_open x) eqn:Ho.
    + destruct (Part000.ParseTokens_loop rest (int_add n 1) 0
                  V1.ParseList.empty) as [[p2 skip] | e' | k'] eqn:E;
        try discriminate.
      destruct (Part000.span_of p2) as [b | e' | k'] eqn:Es;
        try discriminate.
      intros H. apply IH in H;
        [| rewrite length_skipn; cbn [List.length]; lia].
      destruct H as (d & Hq & Hl & _).
      exists (V1.LoopNode b (V1.ParseList.Nodes p2) :: d).
      rewrite Hq. cbn [V1.ParseList.Append V1.ParseList.Nodes].
      rewrite <- app_assoc. split; [reflexivity |]. split.
      * rewrite length_skipn in Hl. cbn [List.length]. lia.
      * discriminate.
    + destruct (V1.is_close x) eqn:Hc.
      * destruct (n =? 0); [discriminate |]. intros [= <- <-].
        exists []. rewrite app_nil_r. repeat split; [cbn; lia |].
        intros _. right. exists x, rest. now split.
      * intros H. apply IH in H; [| cbn [List.length]; lia].
        destruct H as (d & Hq & Hl & _).
        exists (x :: d). rewrite Hq.
        cbn [V1.ParseList.Append V1.ParseList.Nodes].
        rewrite <- app_assoc. split; [reflexivity |]. split.
        -- cbn [List.length]. lia.
        -- discriminate.
Qed.

Lemma Part000_Tokenize_body_unrecognized tl i c :
  recognized c = false -> Part000.Tokenize_body tl (i, c) = tl.
Proof.
  unfold recognized. cbn [map existsb].
  rewrite !orb_false_iff. intros H.
  unfold Part000.Tokenize_body.
  repeat match goal with
  | H : _ /\ _ |- _ => let E := fresh in destruct H as [E H]; rewrite ?E
  end.
  reflexivity.
Qed.

Lemma Part000_Tokenize_body_cases tl i c :
  Part000.Tokenize_body tl (i, c) = tl \/
  exists n, Part000.Tokenize_body tl (i, c) = V1.TokenList.Append tl n /\
    V1.is_token n = true.
Proof.
  unfold Part000.Tokenize_body.
  repeat match goal with
  | |- context [if ?c =? ?r then _ else _] => destruct (c =? r)
  end; try (left; reflexivity); right;
  eexists; (split; [reflexivity |]); reflexivity.
Qed.

Lemma Part000_Tokenize_scan s :
  Part000.Tokenize s =
  V1.TokenList.Append
    (fold_left Part000.Tokenize_body (indexed (bytes_of_string s) 0)
       (V1.TokenList.Append V1.TokenList.empty
          (V1.PreambleNode {| start := 0; end_ := 0 |})))
    (V1.PostambleNode {| start := 0; end_ := 0 |}).
Proof.
  unfold Part000.Tokenize, range_string.
  rewrite (fold_range_bytes _ _ Part000_Tokenize_body_unrecognized)
    by constructor.
  reflexivity.
Qed.

Lemma Part000_scan_inv bs : forall i tl,
  Forall (fun n => V1.is_token n = true) (V1.TokenList.Nodes tl) ->
  Forall (fun n => V1.is_token n = true)
    (V1.TokenList.Nodes (fold_left Part000.Tokenize_body (indexed bs i) tl)) /\
  (List.length
     (V1.TokenList.Nodes (fold_left Part000.Tokenize_body (indexed bs i) tl))
   <= List.length (V1.TokenList.Nodes tl) + List.length bs)%nat.
Proof.
  induction bs as [| b bs IH]; intros i tl Htl;
    cbn [indexed fold_left List.length].
  - split; [assumption | lia].
  - destruct (Part000_Tokenize_body_cases tl i b) as [-> | (n & -> & Hn)].
    + destruct (IH (i + 1) tl Htl) as [H1 H2]. split; [assumption | lia].
    + assert (Ha : Forall (fun n => V1.is_token n = true)
                     (V1.TokenList.Nodes (V1.TokenList.Append tl n))).
      { apply V1_Append_Forall; try assumption.
        intros x Hx. destruct x; exact Hx. }
      destruct (IH (i + 1) _ Ha) as [H1 H2]. split; [assumption |].
      pose proof (V1_Append_length tl n). lia.
Qed.

(** The token list of this variant: it ends with the postamble, holds
    tokens only and at most two more than the bytes of the text. *)
Lemma Part000_Tokenize_shape s :
  exists body,
    V1.TokenList.Nodes (Part000.Tokenize s) =
      body ++ [V1.PostambleNode {| start := 0; end_ := 0 |}] /\
    Forall (fun n => V1.is_token n = true)
      (V1.TokenList.Nodes (Part000.Tokenize s)) /\
    (List.length (V1.TokenList.Nodes (Part000.Tokenize s))
     <= String.length s + 2)%nat.
Proof.
  rewrite Part000_Tokenize_scan.
  set (tl0 := V1.TokenList.Append V1.TokenList.empty _).
  destruct (Part000_scan_inv (bytes_of_string s) 0 tl0) as [H1 H2].
  { repeat constructor. }
  set (tl := fold_left _ _ _) in *.
  exists (V1.TokenList.Nodes tl).
  rewrite V1_Append_marker by reflexivity.
  split; [reflexivity |]. split.
  - apply Forall_app. split; [assumption | repeat constructor].
  - rewrite length_app. cbn [List.length].
    rewrite bytes_of_string_length in H2.
    change (List.length (V1.TokenList.Nodes tl0)) with 1%nat in H2. lia.
Qed.

Lemma Part000_span_of_Panicked p2 k :
  Z.of_nat (List.length (V1.ParseList.Nodes p2)) <= MaxInt ->
  Part000.span_of p2 = Part000.Panicked k ->
  k = IndexOutOfRange /\ V1.ParseList.Nodes p2 = [].
Proof.
  unfold MaxInt. intros Hlen. unfold Part000.span_of, Part000.index, V1.len.
  destruct (V1.ParseList.Nodes p2) as [| x l] eqn:E.
  - cbn. intros [= <-]. now split.
  - cbn [Z.ltb Z.compare Z.to_nat nth_error].
    cbn [List.length] in *. rewrite Nat2Z.inj_succ in *.
    rewrite int_add_exact by lia.
    replace (Z.succ (Z.of_nat (List.length l)) + -1)
      with (Z.of_nat (List.length l)) by lia.
    destruct (Z.of_nat (List.length l) <? 0) eqn:E0;
      [apply Z.ltb_lt in E0; lia |].
    rewrite Nat2Z.id.
    destruct (nth_error (x :: l) (List.length l)) eqn:En; [discriminate |].
    apply nth_error_None in En. cbn [List.length] in En. lia.
Qed.

Lemma Part000_empty_body_skipn k : forall l,
  Part000.empty_body (skipn k l) = true -> Part000.empty_body l = true.
Proof.
  induction k as [| k IH]; intros l; [trivial |].
  destruct l as [| x l]; [trivial |].
  cbn [skipn]. intros H. apply IH in H.
  cbn [Part000.empty_body]. rewrite H. apply orb_true_r.
Qed.

(** The loop of [ParseTokens] panics only on an empty body. *)
Lemma Part000_ParseTokens_loop_Panicked : forall ts n i p k,
  Z.of_nat (List.length ts) <= MaxInt ->
  Part000.ParseTokens_loop ts n i p = Part000.Panicked k ->
  k = IndexOutOfRange /\ Part000.empty_body ts = true.
Proof.
  induction ts as [ts IH] using V1_length_ind.
  intros n i p k Hlen. destruct ts as [| x rest].
  - rewrite Part000.ParseTokens_loop_equation_1. discriminate.
  - cbn [List.length] in Hlen. rewrite Nat2Z.inj_succ in Hlen.
    rewrite Part000_ParseTokens_loop_step.
    cbn [Part000.empty_body].
    destruct (V1.is_open x) eqn:Ho; cbn [andb orb].
    + destruct (Part000.ParseTokens_loop rest (int_add n 1) 0
                  V1.ParseList.empty) as [[p2 skip] | e' | k'] eqn:E;
        try discriminate.
      * destruct (Part000_ParseTokens_loop_grows _ _ _ _ _ _ E)
          as (d & Hd & Hl & Hnil).
        cbn [V1.ParseList.empty V1.ParseList.Nodes app] in Hd.
        destruct (Part000.span_of p2) as [b | e' | k'] eqn:Es;
          try discriminate.
        -- intros H. apply IH in H.
           ++ destruct H as [-> H]. split; [reflexivity |].
              apply Part000_empty_body_skipn in H. rewrite H.
              apply orb_true_r.
           ++ rewrite length_skipn. cbn [List.length]. lia.
           ++ rewrite length_skipn. lia.
        -- intros [= <-].
           apply Part000_span_of_Panicked in Es; [| rewrite Hd; lia].
           destruct Es as [-> Hp2]. split; [reflexivity |].
           rewrite Hd in Hp2.
           destruct (Hnil Hp2) as [-> | (c & r & -> & Hc)];
             [reflexivity | rewrite Hc; reflexivity].
      * intros [= <-]. apply IH in E; [| cbn [List.length]; lia | lia].
        destruct E as [-> E]. split; [reflexivity |].
        rewrite E. apply orb_true_r.
    + destruct (V1.is_close x) eqn:Hc.
      * destruct (n =? 0); discriminate.
      * intros H. apply IH in H; [| cbn [List.length]; lia | lia].
        exact H.
Qed.

Lemma V1_skipn_past (a : list V1.Node) x l :
  skipn (List.length a + 1) (a ++ x :: l) = l.
Proof.
  induction a as [| y a IH]; [reflexivity |]. exact IH.
Qed.

Lemma V1_ParseList_eta (p : V1.ParseList.t) :
  {| V1.ParseList.Nodes := V1.ParseList.Nodes p |} = p.
Proof. destruct p. reflexivity. Qed.

(** Below an opener, well-bracketed tokens followed by a closer give
    their nodes and the count of the tokens up to and with the closer. *)
Lemma Part000_ParseTokens_loop_nest ts ns :
  Part000.nest ts ns ->
  forall n i p closer rest,
    V1.is_close closer = true ->
    0 < n -> n + Z.of_nat (List.length ts) < MaxInt ->
    0 <= i -> i + Z.of_nat (List.length ts) < MaxInt ->
    Part000.ParseTokens_loop (ts ++ closer :: rest) n i p =
    Part000.Returned
      ({| V1.ParseList.Nodes := V1.ParseList.Nodes p ++ ns |},
       i + Z.of_nat (List.length ts) + 1).
Proof.
  unfold MaxInt.
  induction 1 as [| x ts ns Hox Hcx _ IH
                  | bo bc body ch b ts ns _ IHb Hs _ IH];
    intros n i p closer rest Hc Hn Hnb Hi Hb.
  - cbn [app]. rewrite Part000_ParseTokens_loop_step, Hc.
    assert (Ho : V1.is_open closer = false)
      by (destruct closer; try discriminate Hc; reflexivity).
    rewrite Ho.
    destruct (n =? 0) eqn:E; [apply Z.eqb_eq in E; lia |].
    cbn [List.length Z.of_nat] in *.
    rewrite int_add_exact by lia.
    rewrite app_nil_r, V1_ParseList_eta, Z.add_0_r. reflexivity.
  - cbn [List.length] in *. rewrite Nat2Z.inj_succ in *.
    cbn [app]. rewrite Part000_ParseTokens_loop_step, Hox, Hcx.
    rewrite int_add_exact by lia.
    rewrite (IH n (i + 1) _ closer rest) by (try assumption; lia).
    cbn [V1.ParseList.Append V1.ParseList.Nodes].
    rewrite <- app_assoc. cbn [app]. do 2 f_equal. lia.
  - cbn [List.length] in *. rewrite length_app in *.
    cbn [List.length] in *.
    rewrite Nat2Z.inj_succ, Nat2Z.inj_add, Nat2Z.inj_succ in *.
    cbn [app]. rewrite <- app_assoc. cbn [app].
    rewrite Part000_ParseTokens_loop_step. cbn [V1.is_open].
    rewrite (IHb (int_add n 1) 0 V1.ParseList.empty (V1.LoopCloseNode bc))
      by (try reflexivity; rewrite ?int_add_exact by lia; lia).
    cbn [V1.ParseList.empty V1.ParseList.Nodes app]. rewrite Hs.
    replace (Z.to_nat (0 + Z.of_nat (List.length body) + 1))
      with (List.length body + 1)%nat by lia.
    rewrite V1_skipn_past.
    rewrite (int_add_exact i) by lia. rewrite int_add_exact by lia.
    rewrite (IH n _ _ closer rest) by (try assumption; lia).
    cbn [V1.ParseList.Append V1.ParseList.Nodes].
    rewrite <- app_assoc. cbn [app]. do 2 f_equal. lia.
Qed.

(** The same at the top level, up to the end of the tokens. *)
Lemma Part000_ParseTokens_loop_nest_top ts ns :
  Part000.nest ts ns ->
  forall i p,
    0 <= i -> i + Z.of_nat (List.length ts) < MaxInt ->
    Part000.ParseTokens_loop ts 0 i p =
    Part000.Returned
      ({| V1.ParseList.Nodes := V1.ParseList.Nodes p ++ ns |}, 0).
Proof.
  unfold MaxInt.
  induction 1 as [| x ts ns Hox Hcx _ IH
                  | bo bc body ch b ts ns Hbody _ Hs _ IH];
    intros i p Hi Hb.
  - rewrite Part000.ParseTokens_loop_equation_1.
    rewrite app_nil_r, V1_ParseList_eta. reflexivity.
  - cbn [List.length] in *. rewrite Nat2Z.inj_succ in *.
    rewrite Part000_ParseTokens_loop_step, Hox, Hcx.
    rewrite int_add_exact by lia.
    rewrite IH by lia.
    cbn [V1.ParseList.Append V1.ParseList.Nodes].
    rewrite <- app_assoc. reflexivity.
  - cbn [List.length] in *. rewrite length_app in *.
    cbn [List.length] in *.
    rewrite Nat2Z.inj_succ, Nat2Z.inj_add, Nat2Z.inj_succ in *.
    rewrite Part000_ParseTokens_loop_step. cbn [V1.is_open].
    change (int_add 0 1) with 1.
    rewrite (Part000_ParseTokens_loop_nest body ch Hbody 1 0
               V1.ParseList.empty (V1.LoopCloseNode bc))
      by (try reflexivity; unfold MaxInt; lia).
    cbn [V1.ParseList.empty V1.ParseList.Nodes app]. rewrite Hs.
    replace (Z.to_nat (0 + Z.of_nat (List.length body) + 1))
      with (List.length body + 1)%nat by lia.
    rewrite V1_skipn_past.
    rewrite (int_add_exact i) by lia. rewrite int_add_exact by lia.
    rewrite IH by lia.
    cbn [V1.ParseList.Append V1.ParseList.Nodes].
    rewrite <- app_assoc. reflexivity.
Qed.

(** In the variant of [part_000] a text whose tokens are well bracketed,
    with no empty body, is parsed into the nodes its tokens stand for,
    between the preamble and the postamble: input and output are taken
    inside a loop as anywhere else. *)
Theorem Part000_Parse_well_bracketed (s : string) (ns : list V1.Node) :
  Part000.nest (V1.TokenList.Nodes (Part000.Tokenize s)) ns ->
  Z.of_nat (String.length s) + 2 < MaxInt ->
  Part000.Parse s = Part000.Returned {| V1.ParseList.Nodes := ns |}.
Proof.
  intros H Hlen. unfold Part000.Parse, Part000.ParseTokens.
  destruct (Part000_Tokenize_shape s) as (body & _ & _ & Hl).
  rewrite (Part000_ParseTokens_loop_nest_top _ ns H) by lia.
  reflexivity.
Qed.

Lemma Part000_Parse_well_bracketed_witness :
  Part000.Parse "+[.-]" =
  Part000.Returned
    {| V1.ParseList.Nodes :=
         [V1.PreambleNode {| start := 0; end_ := 0 |};
          V1.IncNode {| start := 0; end_ := 1 |} {| count := 1 |};
          V1.LoopNode {| start := 2; end_ := 4 |}
            [V1.OutputNode {| start := 2; end_ := 3 |};
             V1.DecNode {| start := 3; end_ := 4 |} {| count := 1 |}];
          V1.PostambleNode {| start := 0; end_ := 0 |}] |}.
Proof.
  apply (Part000_Parse_well_bracketed "+[.-]").
  - change (V1.TokenList.Nodes (Part000.Tokenize "+[.-]"))
      with (V1.PreambleNode {| start := 0; end_ := 0 |}
            :: V1.IncNode {| start := 0; end_ := 1 |} {| count := 1 |}
            :: V1.LoopOpenNode {| start := 1; end_ := 2 |}
            :: [V1.OutputNode {| start := 2; end_ := 3 |};
                V1.DecNode {| start := 3; end_ := 4 |} {| count := 1 |}]
               ++ V1.LoopCloseNode {| start := 4; end_ := 5 |}
                  :: [V1.PostambleNode {| start := 0; end_ := 0 |}]).
    apply Part000.nest_leaf; [reflexivity | reflexivity |].
    apply Part000.nest_leaf; [reflexivity | reflexivity |].
    apply Part000.nest_loop.
    + apply Part000.nest_leaf; [reflexivity | reflexivity |].
      apply Part000.nest_leaf; [reflexivity | reflexivity |].
      apply Part000.nest_nil.
    + reflexivity.
    + apply Part000.nest_leaf; [reflexivity | reflexivity |].
      apply Part000.nest_nil.
  - vm_compute. reflexivity.
Defined.

Lemma Part000_empty_body_split ts :
  Part000.empty_body ts = true ->
  (exists a bo bc r,
     ts = a ++ V1.LoopOpenNode bo :: V1.LoopCloseNode bc :: r) \/
  (exists a bo, ts = a ++ [V1.LoopOpenNode bo]).
Proof.
  induction ts as [| x ts IH]; [discriminate |].
  cbn [Part000.empty_body]. intros H. apply orb_true_iff in H.
  destruct H as [H | H].
  - apply andb_true_iff in H. destruct H as [Hx Hy].
    destruct x; try discriminate Hx.
    destruct ts as [| y r].
    + right. exists [], b. reflexivity.
    + destruct y; try discriminate Hy.
      left. exists [], b, b0, r. reflexivity.
  - destruct (IH H) as [(a & bo & bc & r & ->) | (a & bo & ->)].
    + left. exists (x :: a), bo, bc, r. reflexivity.
    + right. exists (x :: a), bo. reflexivity.
Qed.

(** In the variant of [part_000] the parser panics on an empty loop
    only: when [Parse] panics, it is on an index out of range, and the
    token list has an opener with a closer right after it. *)
Theorem Part000_Parse_Panicked (s : string) (k : PanicKind) :
  Z.of_nat (String.length s) + 2 <= MaxInt ->
  Part000.Parse s = Part000.Panicked k ->
  k = IndexOutOfRange /\
  exists a bo bc r,
    V1.TokenList.Nodes (Part000.Tokenize s) =
    a ++ V1.LoopOpenNode bo :: V1.LoopCloseNode bc :: r.
Proof.
  intros Hlen. unfold Part000.Parse, Part000.ParseTokens.
  destruct (Part000_Tokenize_shape s) as (body & E & _ & Hl).
  destruct (Part000.ParseTokens_loop _ 0 0 V1.ParseList.empty)
    as [[p c] | e | k'] eqn:H; try discriminate.
  intros [= <-].
  apply Part000_ParseTokens_loop_Panicked in H; [| lia].
  destruct H as [-> H]. split; [reflexivity |].
  apply Part000_empty_body_split in H.
  destruct H as [H | (a & bo & H)]; [exact H |].
  rewrite E in H. apply app_inj_tail in H. destruct H as [_ H].
  discriminate H.
Qed.

Lemma Part000_Parse_Panicked_witness :
  IndexOutOfRange = IndexOutOfRange /\
  exists a bo bc r,
    V1.TokenList.Nodes (Part000.Tokenize "+[]") =
    a ++ V1.LoopOpenNode bo :: V1.LoopCloseNode bc :: r.
Proof.
  apply (Part000_Parse_Panicked "+[]").
  - vm_compute. discriminate.
  - vm_compute. reflexivity.
Defined.

Lemma Part000_Tokenize_body_close tl i c :
  Part000.Tokenize_body tl (i, c) = tl \/
  exists n, Part000.Tokenize_body tl (i, c) = V1.TokenList.Append tl n /\
    (V1.is_close n = true ->
     c = rune "]" /\ V1.Pos n = i /\ V1.End_ n = int_add i 1).
Proof.
  unfold Part000.Tokenize_body.
  repeat match goal with
  | |- context [if ?c =? ?r then _ else _] => destruct (c =? r) eqn:?
  end; try (left; reflexivity); right;
  eexists; (split; [reflexivity |]); try discriminate.
  intros _. repeat match goal with
  | H : (_ =? _) = true |- _ => apply Z.eqb_eq in H; subst
  end. repeat split.
Qed.

(** Every closer of the token list stands at a [']'] of the text, and
    its span is that byte. *)
Lemma Part000_scan_close bs' : forall pre tl,
  Forall (fun n => V1.is_close n = true ->
            0 <= V1.Pos n /\
            nth_error (pre ++ bs') (Z.to_nat (V1.Pos n)) = Some (rune "]") /\
            V1.End_ n = V1.Pos n + 1) (V1.TokenList.Nodes tl) ->
  Z.of_nat (List.length (pre ++ bs')) <= MaxInt ->
  Forall (fun n => V1.is_close n = true ->
            0 <= V1.Pos n /\
            nth_error (pre ++ bs') (Z.to_nat (V1.Pos n)) = Some (rune "]") /\
            V1.End_ n = V1.Pos n + 1)
    (V1.TokenList.Nodes
       (fold_left Part000.Tokenize_body
          (indexed bs' (Z.of_nat (List.length pre))) tl)).
Proof.
  unfold MaxInt.
  induction bs' as [| b bs IH]; intros pre tl Htl Hlen; [exact Htl |].
  cbn [indexed fold_left].
  replace (pre ++ b :: bs) with ((pre ++ [b]) ++ bs) in *
    by (rewrite <- app_assoc; reflexivity).
  replace (Z.of_nat (List.length pre) + 1)
    with (Z.of_nat (List.length (pre ++ [b])))
    by (rewrite length_app; cbn [List.length]; lia).
  apply IH; [| exact Hlen].
  destruct (Part000_Tokenize_body_close tl (Z.of_nat (List.length pre)) b)
    as [-> | (n & -> & Hn)]; [exact Htl |].
  apply V1_Append_Forall; [| exact Htl |].
  - intros x Hx Hc. destruct x; try discriminate Hc; exact (Hx Hc).
  - intros Hc. destruct (Hn Hc) as (-> & -> & ->).
    rewrite !length_app in Hlen. cbn [List.length] in Hlen.
    rewrite int_add_exact by lia.
    split; [lia |]. split; [| reflexivity].
    rewrite Nat2Z.id, <- app_assoc, nth_error_app2 by lia.
    rewrite Nat.sub_diag. reflexivity.
Qed.

Lemma Part000_Tokenize_close s :
  Z.of_nat (String.length s) <= MaxInt ->
  Forall (fun n => V1.is_close n = true ->
            0 <= V1.Pos n /\
            nth_error (bytes_of_string s) (Z.to_nat (V1.Pos n))
              = Some (rune "]") /\
            V1.End_ n = V1.Pos n + 1)
    (V1.TokenList.Nodes (Part000.Tokenize s)).
Proof.
  intros Hlen. rewrite Part000_Tokenize_scan.
  apply V1_Append_Forall.
  - intros x Hx Hc. destruct x; try discriminate Hc; exact (Hx Hc).
  - apply (Part000_scan_close (bytes_of_string s) []).
    + apply V1_Append_Forall; [| apply Forall_nil | discriminate].
      intros x Hx Hc. destruct x; try discriminate Hc; exact (Hx Hc).
    + cbn [app]. rewrite bytes_of_string_length. exact Hlen.
  - discriminate.
Qed.

(** In the variant of [part_000] every error of [Parse] is the one of a
    closer of the text: the faulty node is a [LoopCloseNode] of the
    token list, its span is the byte of a [']'] of the text, and the
    message gives that span. *)
Theorem Part000_Parse_Failed (s : string) (e : Part000.ParseError) :
  Z.of_nat (String.length s) <= MaxInt ->
  Part000.Parse s = Part000.Failed e ->
  exists c,
    In c (V1.TokenList.Nodes (Part000.Tokenize s)) /\
    V1.is_close c = true /\
    0 <= V1.Pos c /\
    nth_error (bytes_of_string s) (Z.to_nat (V1.Pos c)) = Some (rune "]") /\
    V1.End_ c = V1.Pos c + 1 /\
    e = Part000.parseError c "Loop closed while not open".
Proof.
  intros Hlen. unfold Part000.Parse, Part000.ParseTokens.
  destruct (Part000.ParseTokens_loop _ 0 0 V1.ParseList.empty)
    as [[p c] | e' | k'] eqn:H; try discriminate.
  intros [= <-].
  apply Part000_ParseTokens_loop_Failed in H.
  destruct H as (c & Hin & Hc & ->). exists c.
  pose proof (Part000_Tokenize_close s Hlen) as Hall.
  rewrite Forall_forall in Hall.
  destruct (Hall c Hin Hc) as (H1 & H2 & H3).
  repeat (split; [assumption |]). reflexivity.
Qed.

Lemma Part000_Parse_Failed_witness :
  exists c,
    In c (V1.TokenList.Nodes (Part000.Tokenize "+]")) /\
    V1.is_close c = true /\
    0 <= V1.Pos c /\
    nth_error (bytes_of_string "+]") (Z.to_nat (V1.Pos c))
      = Some (rune "]") /\
    V1.End_ c = V1.Pos c + 1 /\
    Part000.parseError (V1.LoopCloseNode {| start := 1; end_ := 2 |})
      "Loop closed while not open" =
    Part000.parseError c "Loop closed while not open".
Proof.
  apply (Part000_Parse_Failed "+]").
  - vm_compute. discriminate.
  - vm_compute. reflexivity.
Defined.

Lemma V1_Forall_skipn (P : V1.Node -> Prop) k l :
  Forall P l -> Forall P (skipn k l).
Proof.
  intros H. rewrite <- (firstn_skipn k l) in H.
  apply Forall_app in H. apply H.
Qed.

Lemma V1_forallb_deep_snoc l x :
  forallb V1.deep_encodable l = true -> V1.deep_encodable x = true ->
  forallb V1.deep_encodable (l ++ [x]) = true.
Proof.
  intros Hl Hx. rewrite forallb_app, Hl. cbn [forallb]. rewrite Hx.
  reflexivity.
Qed.

(** The lists of the loop of [ParseTokens] hold no marker at any depth. *)
Lemma Part000_ParseTokens_loop_deep : forall ts n i p q k,
  Forall (fun x => V1.is_token x = true) ts ->
  forallb V1.deep_encodable (V1.ParseList.Nodes p) = true ->
  Part000.ParseTokens_loop ts n i p = Part000.Returned (q, k) ->
  forallb V1.deep_encodable (V1.ParseList.Nodes q) = true.
Proof.
  induction ts as [ts IH] using V1_length_ind.
  intros n i p q k Ht Hp. destruct ts as [| x rest].
  - rewrite Part000.ParseTokens_loop_equation_1. intros [= <- <-]. exact Hp.
  - inversion Ht as [| ? ? Hx Hrest]; subst.
    rewrite Part000_ParseTokens_loop_step.
    destruct (V1.is_open x) eqn:Ho.
    + destruct (Part000.ParseTokens_loop rest (int_add n 1) 0
                  V1.ParseList.empty) as [[p2 skip] | e' | k'] eqn:E;
        try discriminate.
      destruct (Part000.span_of p2) as [b | e' | k'] eqn:Es;
        try discriminate.
      apply IH in E; [| cbn [List.length]; lia | assumption | reflexivity].
      apply IH.
      * rewrite length_skipn. cbn [List.length]. lia.
      * apply V1_Forall_skipn. assumption.
      * cbn [V1.ParseList.Append V1.ParseList.Nodes].
        apply V1_forallb_deep_snoc; [assumption |].
        rewrite V1_deep_encodable_LoopNode. exact E.
    + destruct (V1.is_close x) eqn:Hc.
      * destruct (n =? 0); [discriminate |]. intros [= <- <-]. exact Hp.
      * apply IH; [cbn [List.length]; lia | assumption |].
        cbn [V1.ParseList.Append V1.ParseList.Nodes].
        apply V1_forallb_deep_snoc; [assumption |].
        destruct x; try discriminate; reflexivity.
Qed.

Lemma Part000_Code_LoopNode b l :
  Part000.Code (V1.LoopNode b l) = Part000.Code_children l LoopNode_header.
Proof. reflexivity. Qed.

Lemma Part000_Code_children_total l :
  Forall (fun n => V1.deep_encodable n = true ->
                   exists c, Part000.Code n = Part000.Returned c) l ->
  forallb V1.deep_encodable l = true ->
  forall code, exists out,
    Part000.Code_children l code = Part000.Returned out.
Proof.
  induction 1 as [| x l Hx _ IH]; intros Hd code.
  - eexists. reflexivity.
  - cbn [forallb] in Hd. apply andb_true_iff in Hd. destruct Hd as [Hdx Hd].
    cbn [Part000.Code_children].
    rewrite (V1_deep_encodable_Encodable x Hdx).
    destruct (Hx Hdx) as [c ->]. now apply IH.
Qed.

Lemma Part000_Code_total n :
  V1.deep_encodable n = true -> exists c, Part000.Code n = Part000.Returned c.
Proof.
  induction n as [n Hn | b l IH] using V1_Node_nested_ind.
  - destruct n; try discriminate Hn; try discriminate;
      intros _; eexists; reflexivity.
  - rewrite Part000_Code_LoopNode. intros Hd.
    apply Part000_Code_children_total; assumption.
Qed.

Lemma Part000_Encode_loop_total l : forall code,
  forallb V1.deep_encodable l = true ->
  exists out, Part000.Encode_loop l code = Part000.Returned out.
Proof.
  induction l as [| x l IH]; intros code Hd.
  - eexists. reflexivity.
  - cbn [forallb] in Hd. apply andb_true_iff in Hd. destruct Hd as [Hx Hd].
    cbn [Part000.Encode_loop]. rewrite (V1_deep_encodable_Encodable x Hx).
    destruct (Part000_Code_total x Hx) as [c ->]. now apply IH.
Qed.

(** In the variant of [part_000] the encoder returns on every list the
    parser returns: no marker is left in a loop, so that the assertion
    to [Encodable] in [LoopNode.Code] never fails. *)
Theorem Part000_Parse_Encode (s : string) (p : V1.ParseList.t) :
  Part000.Parse s = Part000.Returned p ->
  exists out, Part000.Encode p = Part000.Returned out.
Proof.
  unfold Part000.Parse, Part000.ParseTokens.
  destruct (Part000.ParseTokens_loop _ 0 0 V1.ParseList.empty)
    as [[q c] | e' | k'] eqn:H; try discriminate.
  intros [= <-]. unfold Part000.Encode.
  apply Part000_Encode_loop_total.
  apply Part000_ParseTokens_loop_deep in H; [exact H | | reflexivity].
  destruct (Part000_Tokenize_shape s) as (body & _ & Ht & _). exact Ht.
Qed.

Lemma Part000_Parse_Encode_witness :
  exists out,
    Part000.Encode
      {| V1.ParseList.Nodes :=
           [V1.PreambleNode {| start := 0; end_ := 0 |};
            V1.IncNode {| start := 0; end_ := 1 |} {| count := 1 |};
            V1.LoopNode {| start := 2; end_ := 4 |}
              [V1.OutputNode {| start := 2; end_ := 3 |};
               V1.DecNode {| start := 3; end_ := 4 |} {| count := 1 |}];
            V1.PostambleNode {| start := 0; end_ := 0 |}] |} =
    Part000.Returned out.
Proof.
  apply (Part000_Parse_Encode "+[.-]"). vm_compute. reflexivity.
Defined.

(** ** The generated program *)


